(** * NumberSliderSolver: the board model and the A* search engine

    A shallow embedding of [Board.hpp], [PuzzleSolver.hpp] and
    [PuzzleSolver.cpp] (the version with [came_from] and
    [reconstruct_path]).

    C++ [int] values are modelled as [Z]; signed overflow is undefined
    behaviour in C++, so nothing wraps.  Integer division and remainder
    truncate toward zero ([Z.quot], [Z.rem]).  A [std::vector<int>] is a
    [list Z]; reading it outside its bounds is undefined in C++ and yields
    [0] here, writing outside its bounds is undefined in C++ and leaves the
    list as it is here.  All statements about valid boards stay inside the
    bounds. *)

From Equations Require Import Equations.
From Equations.Prop Require Import Logic.
From stdpp Require Import gmap list sorting strings pretty.
From Stdlib Require Import ZArith Lia.

#[local] Open Scope Z_scope.

(** ** Board.hpp *)

Record Board : Type := mkBoard {
  N : Z;                (* rows *)
  M : Z;                (* columns *)
  tiles : list Z;       (* row-major, 0 is the blank *)
  empty_row : Z;
  empty_col : Z
}.

(** [tiles[i]] *)
Definition at_ (t : list Z) (i : Z) : Z :=
  if 0 <=? i then default 0 (t !! Z.to_nat i) else 0.

(** [std::swap(t[i], t[j])] *)
Definition swap_tiles (t : list Z) (i j : Z) : list Z :=
  if (0 <=? i) && (0 <=? j)
  then <[Z.to_nat j := at_ t i]> (<[Z.to_nat i := at_ t j]> t)
  else t.

(** The constructor scans for the first zero among the first [N*M]
    entries; when there is none the two coordinates stay uninitialised,
    which is [None] here. *)
Definition find_empty (n m : Z) (t : list Z) : option (Z * Z) :=
  (fun found => (Z.quot found.2 m, Z.rem found.2 m))
    <$> list_find (fun i => at_ t i = 0) (seqZ 0 (n * m)).

Definition new_Board (n m : Z) (initial_tiles : list Z) : option Board :=
  (fun empty => mkBoard n m initial_tiles empty.1 empty.2)
    <$> find_empty n m initial_tiles.

(** [operator==] compares the tile vectors only. *)
Definition Board_eqb (a b : Board) : bool := bool_decide (tiles a = tiles b).

(** [std::lexicographical_compare], behind [operator<] of [std::vector]. *)
Fixpoint lexicographical_compare {A : Type} (ltb : A → A → bool)
    (a b : list A) : bool :=
  match a, b with
  | _, [] => false
  | [], _ :: _ => true
  | x :: a', y :: b' =>
      if ltb x y then true
      else if ltb y x then false
      else lexicographical_compare ltb a' b'
  end.

(** [std::vector<int>::operator<] *)
Definition tiles_ltb (a b : list Z) : bool :=
  lexicographical_compare Z.ltb a b.

(** [Board::operator<] *)
Definition Board_ltb (a b : Board) : bool :=
  if negb (N a =? N b) || negb (M a =? M b)
  then (N a <? N b) || ((N a =? N b) && (M a <? M b))
  else tiles_ltb (tiles a) (tiles b).

Definition is_goal (b : Board) : bool :=
  forallb (fun i => at_ (tiles b) i =? i + 1) (seqZ 0 (N b * M b - 1))
  && (at_ (tiles b) (N b * M b - 1) =? 0).

(** The summand of one cell of [get_manhattan_distance]. *)
Definition tile_distance (m i val : Z) : Z :=
  let current_row := Z.quot i m in
  let current_col := Z.rem i m in
  let target_idx := val - 1 in
  let target_row := Z.quot target_idx m in
  let target_col := Z.rem target_idx m in
  Z.abs (current_row - target_row) + Z.abs (current_col - target_col).

Definition manhattan_step (b : Board) (h i : Z) : Z :=
  let val := at_ (tiles b) i in
  if val =? 0 then h else h + tile_distance (M b) i val.

Definition get_manhattan_distance (b : Board) : Z :=
  foldl (manhattan_step b) 0 (seqZ 0 (N b * M b)).

(** The four entries of the arrays [dr] and [dc]: up, down, left, right. *)
Inductive Direction : Type := Up | Down | Left | Right.

Definition dr (d : Direction) : Z :=
  match d with Up => -1 | Down => 1 | Left => 0 | Right => 0 end.
Definition dc (d : Direction) : Z :=
  match d with Up => 0 | Down => 0 | Left => -1 | Right => 1 end.

Definition directions : list Direction := [Up; Down; Left; Right].

Definition in_bounds (b : Board) (r c : Z) : bool :=
  (0 <=? r) && (r <? N b) && (0 <=? c) && (c <? M b).

(** One pass of the loop body of [get_neighbors_adjacent_swap]. *)
Definition adjacent_swap_step (b : Board) (neighbors : list Board)
    (d : Direction) : list Board :=
  let new_row := empty_row b + dr d in
  let new_col := empty_col b + dc d in
  if in_bounds b new_row new_col then
    let new_empty_idx := new_row * M b + new_col in
    let old_empty_idx := empty_row b * M b + empty_col b in
    neighbors ++
      [mkBoard (N b) (M b) (swap_tiles (tiles b) old_empty_idx new_empty_idx)
         new_row new_col]
  else neighbors.

Definition get_neighbors_adjacent_swap (b : Board) : list Board :=
  foldl (adjacent_swap_step b) [] directions.

(** The number of cells left before the walk from [(r, c)] in direction
    [d] leaves the grid: the variant of the inner [while] loop. *)
Definition cells_ahead (b : Board) (d : Direction) (r c : Z) : nat :=
  Z.to_nat match d with
           | Up => r + 1
           | Down => N b - r
           | Left => c + 1
           | Right => M b - c
           end.

(** The inner [while] loop of [get_neighbors_block_shift]: [cur] is
    [current_shifted_board], [(r, c)] is [(current_r, current_c)]; the
    bounds test uses the dimensions of [*this], here [b]. *)
Equations? block_shift_loop (b : Board) (d : Direction) (cur : Board)
    (r c : Z) (neighbors : list Board) : list Board
    by wf (cells_ahead b d r c) lt :=
  block_shift_loop b d cur r c neighbors with inspect (in_bounds b r c) := {
    | exist _ true Hin =>
        let current_tile_idx := r * M b + c in
        let prev_empty_idx := (r - dr d) * M b + (c - dc d) in
        let cur' := mkBoard (N cur) (M cur)
                      (swap_tiles (tiles cur) current_tile_idx prev_empty_idx)
                      r c in
        block_shift_loop b d cur' (r + dr d) (c + dc d) (neighbors ++ [cur']);
    | exist _ false Hout => neighbors }.
Proof.
  unfold in_bounds in Hin. unfold cells_ahead. destruct d; simpl; lia.
Qed.

Definition block_shift_step (b : Board) (neighbors : list Board)
    (d : Direction) : list Board :=
  block_shift_loop b d b (empty_row b + dr d) (empty_col b + dc d) neighbors.

Definition get_neighbors_block_shift (b : Board) : list Board :=
  foldl (block_shift_step b) [] directions.


(** ** PuzzleSolver.hpp *)

Inductive SolveType : Type := AdjacentSwap | BlockShift.

Record State : Type := mkState {
  board : Board;
  g_cost : Z;
  h_cost : Z;
  f_cost : Z
}.

(** [State(Board b, int g, int h)] *)
Definition new_State (b : Board) (g h : Z) : State := mkState b g h (g + h).

(** [CompareStateForTBB::operator()]: [true] when [a] has the lower
    priority of the two. *)
Definition CompareStateForTBB (a b : State) : bool :=
  if negb (f_cost a =? f_cost b) then f_cost a >? f_cost b
  else g_cost a >? g_cost b.

Record Solution : Type := mkSolution {
  cost : Z;
  path : list Board
}.

(** [std::vector<Board>::operator<], lexicographic over [Board::operator<]. *)
Definition path_ltb (p q : list Board) : bool :=
  lexicographical_compare Board_ltb p q.

(** [Solution::operator<] *)
Definition Solution_ltb (a b : Solution) : bool :=
  if negb (cost a =? cost b) then cost a <? cost b
  else path_ltb (path a) (path b).

(** ** The containers

    [tbb::concurrent_priority_queue<State, CompareStateForTBB>] is a bag
    of states, here a list in no particular order; [try_pop] removes an
    element that no other element beats under the comparator (which one
    among several such elements is up to the container; this model takes
    the earliest in the list).  The two [tbb::concurrent_unordered_map]s
    hash and compare their [Board] keys through the tile vector alone, so
    they are finite maps keyed by the tiles.  [std::set<Solution>] is the
    list of its elements in the order of [Solution::operator<]. *)

Fixpoint pop_top (best : State) (rest : list State) : State * list State :=
  match rest with
  | [] => (best, [])
  | x :: rest' =>
      if CompareStateForTBB best x
      then let '(top, others) := pop_top x rest' in (top, best :: others)
      else let '(top, others) := pop_top best rest' in (top, x :: others)
  end.

Definition try_pop (q : list State) : option (State * list State) :=
  match q with
  | [] => None
  | x :: rest => Some (pop_top x rest)
  end.

(** [std::set<Solution>::insert] *)
Fixpoint set_insert (x : Solution) (s : list Solution) : list Solution :=
  match s with
  | [] => [x]
  | y :: s' =>
      if Solution_ltb x y then x :: y :: s'
      else if Solution_ltb y x then y :: set_insert x s'
      else y :: s'
  end.

(** [map.emplace(k, v)]: inserts only when the key is absent. *)
Definition emplace {V : Type} (k : list Z) (v : V) (m : gmap (list Z) V)
    : gmap (list Z) V :=
  match m !! k with
  | None => <[k := v]> m
  | Some _ => m
  end.

(** The members of [PuzzleSolver] shared by the workers. *)
Record PuzzleSolver : Type := mkSolver {
  open_set : list State;
  g_costs : gmap (list Z) Z;
  came_from : gmap (list Z) Board;
  found_solutions : list Solution;
  terminate_search : bool;
  states_explored : Z
}.

Definition set_open_set (q : list State) (s : PuzzleSolver) : PuzzleSolver :=
  mkSolver q (g_costs s) (came_from s) (found_solutions s)
    (terminate_search s) (states_explored s).
Definition set_g_costs (g : gmap (list Z) Z) (s : PuzzleSolver) : PuzzleSolver :=
  mkSolver (open_set s) g (came_from s) (found_solutions s)
    (terminate_search s) (states_explored s).
Definition set_came_from (c : gmap (list Z) Board) (s : PuzzleSolver)
    : PuzzleSolver :=
  mkSolver (open_set s) (g_costs s) c (found_solutions s)
    (terminate_search s) (states_explored s).
Definition set_found_solutions (f : list Solution) (s : PuzzleSolver)
    : PuzzleSolver :=
  mkSolver (open_set s) (g_costs s) (came_from s) f
    (terminate_search s) (states_explored s).
Definition set_terminate_search (t : bool) (s : PuzzleSolver) : PuzzleSolver :=
  mkSolver (open_set s) (g_costs s) (came_from s) (found_solutions s)
    t (states_explored s).
Definition set_states_explored (n : Z) (s : PuzzleSolver) : PuzzleSolver :=
  mkSolver (open_set s) (g_costs s) (came_from s) (found_solutions s)
    (terminate_search s) n.

(** ** PuzzleSolver.cpp *)

(** The [while] loop of [reconstruct_path].  It has no bound of its own,
    so the model counts its passes down from [fuel] and answers [None]
    when they run out before the loop exits. *)
Fixpoint reconstruct_loop (fuel : nat) (parents : gmap (list Z) Board)
    (initial_board current : Board) (path : list Board)
    : option (list Board) :=
  match fuel with
  | O => None
  | S fuel' =>
      if Board_eqb current initial_board then Some path
      else
        let path := path ++ [current] in
        match parents !! tiles current with
        | Some parent =>
            reconstruct_loop fuel' parents initial_board parent path
        | None => Some path     (* error logged, [break] *)
        end
  end.

Definition reconstruct_path (fuel : nat) (parents : gmap (list Z) Board)
    (goal_board initial_board : Board) : option (list Board) :=
  (fun path => reverse (path ++ [initial_board]))
    <$> reconstruct_loop fuel parents initial_board goal_board [].

(** [found_solutions.size() >= num_solutions_to_find]: the [int] is
    converted to the unsigned [size_t] (64 bits) before the comparison. *)
Definition size_ge (size : nat) (num_solutions_to_find : Z) : bool :=
  Z.of_nat size >=? num_solutions_to_find mod 2 ^ 64.

(** The cost of the [num_solutions_to_find]-th solution of the set, or
    [-1] when the set is smaller.  For [num_solutions_to_find <= 0] the
    source moves an iterator before [begin()], which is undefined; the
    model reads the first solution there. *)
Definition nth_best_cost (num_solutions_to_find : Z)
    (found : list Solution) : Z :=
  if size_ge (length found) num_solutions_to_find then
    match found !! Z.to_nat (num_solutions_to_find - 1) with
    | Some sol => cost sol
    | None => -1
    end
  else -1.

(** The body of the loop over the neighbours. *)
Definition relax (current_state : State) (s : PuzzleSolver)
    (neighbor_board : Board) : PuzzleSolver :=
  let new_g_cost := g_cost current_state + 1 in
  match g_costs s !! tiles neighbor_board with
  | None =>
      let neighbor_h := get_manhattan_distance neighbor_board in
      set_came_from
        (emplace (tiles neighbor_board) (board current_state) (came_from s))
        (set_open_set
           (new_State neighbor_board new_g_cost neighbor_h :: open_set s)
           (set_g_costs (<[tiles neighbor_board := new_g_cost]> (g_costs s)) s))
  | Some stored =>
      if new_g_cost <? stored then
        let neighbor_h := get_manhattan_distance neighbor_board in
        set_came_from
          (<[tiles neighbor_board := board current_state]> (came_from s))
          (set_open_set
             (new_State neighbor_board new_g_cost neighbor_h :: open_set s)
             (set_g_costs (<[tiles neighbor_board := new_g_cost]> (g_costs s)) s))
      else s
  end.

Definition get_neighbors (type : SolveType) (b : Board) : list Board :=
  match type with
  | AdjacentSwap => get_neighbors_adjacent_swap b
  | BlockShift => get_neighbors_block_shift b
  end.

Inductive LoopCtl : Type := Continue | Break.

(** [g_cost_it != g_costs.end() && current_state.g_cost > g_cost_it->second] *)
Definition is_stale (current_state : State) (s : PuzzleSolver) : bool :=
  match g_costs s !! tiles (board current_state) with
  | Some stored => g_cost current_state >? stored
  | None => false
  end.

(** [time_limit_seconds > 0 && elapsed >= time_limit_seconds] *)
Definition time_limit_reached (time_limit_seconds elapsed : Z) : bool :=
  (time_limit_seconds >? 0) && (elapsed >=? time_limit_seconds).

(** [current_nth_best_cost != -1 && current_state.f_cost >= current_nth_best_cost] *)
Definition is_pruned (num_solutions_to_find : Z) (current_state : State)
    (s : PuzzleSolver) : bool :=
  let current_nth_best_cost :=
    nth_best_cost num_solutions_to_find (found_solutions s) in
  negb (current_nth_best_cost =? -1)
  && (f_cost current_state >=? current_nth_best_cost).

(** The goal branch: the path is rebuilt and the solution inserted. *)
Definition collect_solution (fuel : nat) (num_solutions_to_find : Z)
    (initial_board : Board) (current_state : State) (s : PuzzleSolver)
    : option PuzzleSolver :=
  match reconstruct_path fuel (came_from s) (board current_state)
          initial_board with
  | None => None
  | Some path =>
      let found :=
        set_insert (mkSolution (g_cost current_state) path)
          (found_solutions s) in
      let s := set_found_solutions found s in
      Some (if size_ge (length found) num_solutions_to_find
            then set_terminate_search true s else s)
  end.

(** The expansion: every neighbour is relaxed in turn. *)
Definition expand (type : SolveType) (current_state : State)
    (s : PuzzleSolver) : PuzzleSolver :=
  foldl (relax current_state) s (get_neighbors type (board current_state)).

(** One pass of the [while] loop of [worker_thread_func], after
    [try_pop] has handed over [current_state]; [elapsed] is the number of
    whole seconds since [start_time] that the clock shows in this pass.
    The periodic log line is not modelled.  The answer is [None] when
    [reconstruct_path] does not come back within [fuel]. *)
Definition worker_iteration (fuel : nat) (type : SolveType)
    (num_solutions_to_find : Z) (initial_board : Board)
    (time_limit_seconds elapsed : Z) (current_state : State)
    (s : PuzzleSolver) : option (LoopCtl * PuzzleSolver) :=
  let s := set_states_explored (states_explored s + 1) s in
  if time_limit_reached time_limit_seconds elapsed then
    Some (Break, set_terminate_search true s)
  else if is_pruned num_solutions_to_find current_state s then
    Some (Continue, s)
  else if is_stale current_state s then
    Some (Continue, s)
  else if is_goal (board current_state) then
    (fun s' => (Continue, s'))
      <$> collect_solution fuel num_solutions_to_find initial_board
            current_state s
  else
    Some (Continue, expand type current_state s).

(** [worker_thread_func]: the loop of one worker.  [clock] gives the
    elapsed seconds read in the pass that finds [states_explored] at the
    given value.  [None] when [fuel] passes were not enough. *)
Fixpoint worker_thread_func (fuel : nat) (type : SolveType)
    (num_solutions_to_find : Z) (initial_board : Board)
    (time_limit_seconds : Z) (clock : Z → Z) (s : PuzzleSolver)
    : option PuzzleSolver :=
  match fuel with
  | O => None
  | S fuel' =>
      if terminate_search s then Some s
      else
        match try_pop (open_set s) with
        | None => Some s
        | Some (current_state, rest) =>
            match worker_iteration fuel' type num_solutions_to_find
                    initial_board time_limit_seconds
                    (clock (states_explored s)) current_state
                    (set_open_set rest s) with
            | None => None
            | Some (Break, s') => Some s'
            | Some (Continue, s') =>
                worker_thread_func fuel' type num_solutions_to_find
                  initial_board time_limit_seconds clock s'
            end
        end
  end.

(** The state [solve] sets up before it starts the workers. *)
Definition initial_solver (initial_board : Board) : PuzzleSolver :=
  mkSolver
    [new_State initial_board 0 (get_manhattan_distance initial_board)]
    {[ tiles initial_board := 0 ]} ∅ [] false 0.

(** The extraction loop at the end of [solve]. *)
Fixpoint extract_solutions (num_solutions_to_find count : Z)
    (found : list Solution) : list Solution :=
  match found with
  | [] => []
  | sol :: rest =>
      if count >=? num_solutions_to_find then []
      else sol :: extract_solutions num_solutions_to_find (count + 1) rest
  end.

(** ** The pool of workers

    [solve] starts [num_threads] tasks that all run [worker_thread_func]
    on the shared members.  A worker is about to test the loop condition
    ([Idle]), or holds the state it has popped and is about to run the
    loop body on it ([Holding]), or has left its loop ([Exited]).  The
    loop body is taken as one step; what the threads do to the shared
    members inside one body is not interleaved any finer. *)

Inductive WorkerState : Type :=
  | Idle
  | Holding (current_state : State)
  | Exited.

Definition worker_step (fuel : nat) (type : SolveType)
    (num_solutions_to_find : Z) (initial_board : Board)
    (time_limit_seconds elapsed : Z) (w : WorkerState) (s : PuzzleSolver)
    : option (WorkerState * PuzzleSolver) :=
  match w with
  | Exited => Some (Exited, s)
  | Idle =>
      if terminate_search s then Some (Exited, s)
      else
        match try_pop (open_set s) with
        | None => Some (Exited, s)
        | Some (current_state, rest) =>
            Some (Holding current_state, set_open_set rest s)
        end
  | Holding current_state =>
      match worker_iteration fuel type num_solutions_to_find initial_board
              time_limit_seconds elapsed current_state s with
      | None => None
      | Some (Break, s') => Some (Exited, s')
      | Some (Continue, s') => Some (Idle, s')
      end
  end.

(** The workers take their steps in the order [schedule] names them. *)
Fixpoint run_schedule (fuel : nat) (type : SolveType)
    (num_solutions_to_find : Z) (initial_board : Board)
    (time_limit_seconds : Z) (clock : Z → Z) (schedule : list nat)
    (ws : list WorkerState) (s : PuzzleSolver)
    : option (list WorkerState * PuzzleSolver) :=
  match schedule with
  | [] => Some (ws, s)
  | t :: schedule' =>
      match ws !! t with
      | None => None
      | Some w =>
          match worker_step fuel type num_solutions_to_find initial_board
                  time_limit_seconds (clock (states_explored s)) w s with
          | None => None
          | Some (w', s') =>
              run_schedule fuel type num_solutions_to_find initial_board
                time_limit_seconds clock schedule' (<[t := w']> ws) s'
          end
      end
  end.

Definition has_exited (w : WorkerState) : bool :=
  match w with Exited => true | _ => false end.

(** [solve] under a given schedule of its [num_threads] workers; the
    answer is there once every worker has left its loop ([tg.wait()]),
    [None] before that. *)
Definition solve (fuel : nat) (initial_board : Board)
    (type : SolveType)
    (num_solutions_to_find num_threads time_limit_seconds : Z)
    (clock : Z → Z) (schedule : list nat) : option (list Solution) :=
  match run_schedule fuel type num_solutions_to_find initial_board
          time_limit_seconds clock schedule
          (replicate (Z.to_nat num_threads) Idle)
          (initial_solver initial_board) with
  | Some (ws, s) =>
      if forallb has_exited ws
      then Some (extract_solutions num_solutions_to_find 0 (found_solutions s))
      else None
  | None => None
  end.

(** ** Valid boards

    A board is valid when its dimensions are positive, its tiles are the
    numbers [0 .. N*M-1] each once, and the cached coordinates are those
    of the blank. *)

Definition blank_idx (b : Board) : Z := empty_row b * M b + empty_col b.

Definition valid_Board (b : Board) : bool :=
  (0 <? N b) && (0 <? M b)
  && bool_decide (Z.of_nat (length (tiles b)) = N b * M b)
  && forallb (fun v => bool_decide (v ∈ tiles b)) (seqZ 0 (N b * M b))
  && in_bounds b (empty_row b) (empty_col b)
  && (at_ (tiles b) (blank_idx b) =? 0).

(** A sequence of moves: every board is a successor of the one before. *)
Fixpoint move_sequence (neighbors : Board → list Board) (b : Board)
    (steps : list Board) : Prop :=
  match steps with
  | [] => True
  | b' :: rest => b' ∈ neighbors b ∧ move_sequence neighbors b' rest
  end.

(** What the tile [v] in cell [k] adds to [get_manhattan_distance], and
    the sum over the cells of [t], the first of which is cell [k]. *)
Definition cell_term (m k v : Z) : Z :=
  if v =? 0 then 0 else tile_distance m k v.

Fixpoint cell_sum (m k : Z) (t : list Z) : Z :=
  match t with
  | [] => 0
  | v :: t' => cell_term m k v + cell_sum m (k + 1) t'
  end.

(** The successors of [get_neighbors_adjacent_swap], one per direction
    whose adjacent cell is in bounds. *)
Definition adjacent_successor (b : Board) (d : Direction) : Board :=
  mkBoard (N b) (M b)
    (swap_tiles (tiles b) (blank_idx b)
       ((empty_row b + dr d) * M b + (empty_col b + dc d)))
    (empty_row b + dr d) (empty_col b + dc d).

(** ** Walking away from the blank

    [walk_row b d j], [walk_col b d j]: the cell at distance [j] from the
    blank of [b] in direction [d]; [walk_idx] is its index in the tile
    vector. *)
Definition walk_row (b : Board) (d : Direction) (j : Z) : Z :=
  empty_row b + j * dr d.
Definition walk_col (b : Board) (d : Direction) (j : Z) : Z :=
  empty_col b + j * dc d.
Definition walk_idx (b : Board) (d : Direction) (j : Z) : Z :=
  walk_row b d j * M b + walk_col b d j.

(** The number of cells between the blank and the edge in direction [d]. *)
Definition run_length (b : Board) (d : Direction) : nat :=
  cells_ahead b d (empty_row b + dr d) (empty_col b + dc d).

(** [current_shifted_board] after [j] passes of the inner loop of
    [get_neighbors_block_shift] in direction [d]. *)
Fixpoint shifted (b : Board) (d : Direction) (j : nat) : Board :=
  match j with
  | O => b
  | S j' =>
      let cur := shifted b d j' in
      let r := walk_row b d (Z.of_nat (S j')) in
      let c := walk_col b d (Z.of_nat (S j')) in
      mkBoard (N cur) (M cur)
        (swap_tiles (tiles cur) (r * M b + c)
           ((r - dr d) * M b + (c - dc d)))
        r c
  end.

(** The successors produced along one direction. *)
Definition block_shift_successors (b : Board) (d : Direction) : list Board :=
  block_shift_step b [] d.

(** [a] is served no later than [b]: smaller [f_cost] first, then smaller
    [g_cost]. *)
Definition served_before (a b : State) : Prop :=
  f_cost a < f_cost b ∨ (f_cost a = f_cost b ∧ g_cost a <= g_cost b).

(** ** The worker pool as a transition system

    One worker of the pool takes a step; the clock may show any time and
    [reconstruct_path] may be given any number of passes. *)
Inductive pool_step (type : SolveType) (num_solutions_to_find : Z)
    (initial_board : Board) (time_limit_seconds : Z)
    : list WorkerState * PuzzleSolver → list WorkerState * PuzzleSolver → Prop :=
  | pool_step_worker ws s (t : nat) w w' s' fuel elapsed :
      ws !! t = Some w →
      worker_step fuel type num_solutions_to_find initial_board
        time_limit_seconds elapsed w s = Some (w', s') →
      pool_step type num_solutions_to_find initial_board time_limit_seconds
        (ws, s) (<[t := w']> ws, s').

(** The configurations a call of [solve] can pass through. *)
Definition reachable (type : SolveType) (num_solutions_to_find : Z)
    (initial_board : Board) (num_threads time_limit_seconds : Z)
    (c : list WorkerState * PuzzleSolver) : Prop :=
  rtc (pool_step type num_solutions_to_find initial_board time_limit_seconds)
    (replicate (Z.to_nat num_threads) Idle, initial_solver initial_board) c.

(** What the claims C5 and C8 say a pass does with a state it discards:
    it only counts it and goes on with the loop. *)
Definition discards_and_continues (fuel : nat) (type : SolveType)
    (num_solutions_to_find : Z) (initial_board : Board)
    (time_limit_seconds elapsed : Z) (current_state : State)
    (s : PuzzleSolver) : Prop :=
  worker_iteration fuel type num_solutions_to_find initial_board
    time_limit_seconds elapsed current_state s
  = Some (Continue, set_states_explored (states_explored s + 1) s).

(** ** The order of the solution set *)

(** What [Board::operator<] looks at: the dimensions, then the tiles. *)
Definition board_key (b : Board) : list Z := N b :: M b :: tiles b.

Definition Solution_lt (a b : Solution) : Prop := Solution_ltb a b = true.

(** ** What the search maintains *)

Definition same_dims (a b : Board) : Prop := N a = N b ∧ M a = M b.

(** [c] is a successor of [p] under the cost model, boards being compared
    the way [Board::operator==] does. *)
Definition valid_move (type : SolveType) (p c : Board) : Prop :=
  ∃ n, n ∈ get_neighbors type p ∧ tiles n = tiles c.

Fixpoint moves_ok (type : SolveType) (path : list Board) : Prop :=
  match path with
  | [] => True
  | p :: rest =>
      match rest with
      | [] => True
      | c :: _ => valid_move type p c ∧ moves_ok type rest
      end
  end.

(** What holds of every collected solution. *)
Definition solution_ok (type : SolveType) (initial_board : Board)
    (sol : Solution) : Prop :=
  head (path sol) = Some initial_board
  ∧ (∃ b, last (path sol) = Some b ∧ is_goal b = true)
  ∧ moves_ok type (path sol)
  ∧ Z.of_nat (length (path sol)) - 1 <= cost sol.

(** The states the workers hold. *)
Definition held_states (ws : list WorkerState) : list State :=
  ws ≫= fun w => match w with Holding st => [st] | _ => [] end.

Record tables_ok (type : SolveType) (initial_board : Board)
    (s : PuzzleSolver) : Prop := {
  initial_g : g_costs s !! tiles initial_board = Some 0;
  initial_parent : came_from s !! tiles initial_board = None;
  parent_link : ∀ k p, came_from s !! k = Some p →
    ∃ gk gp, g_costs s !! k = Some gk ∧ g_costs s !! tiles p = Some gp
             ∧ gp < gk
             ∧ (∃ n, n ∈ get_neighbors type p ∧ tiles n = k)
             ∧ (p = initial_board ∨ tiles p ≠ tiles initial_board);
  table_entry : ∀ k g, g_costs s !! k = Some g →
    0 <= g ∧ (k = tiles initial_board ∨ is_Some (came_from s !! k))
}.

Definition state_ok (initial_board : Board) (s : PuzzleSolver)
    (st : State) : Prop :=
  (∃ g, g_costs s !! tiles (board st) = Some g ∧ g <= g_cost st)
  ∧ same_dims (board st) initial_board
  ∧ (board st = initial_board ∨ tiles (board st) ≠ tiles initial_board).

(** What the relaxation of a neighbour keeps, [extra] being the states
    held by the workers. *)
Definition relax_inv (type : SolveType) (initial_board : Board)
    (extra : list State) (s : PuzzleSolver) : Prop :=
  tables_ok type initial_board s
  ∧ Forall (state_ok initial_board s) (open_set s ++ extra).

Record search_inv (type : SolveType) (initial_board : Board)
    (c : list WorkerState * PuzzleSolver) : Prop := {
  inv_tables : tables_ok type initial_board c.2;
  inv_states : Forall (state_ok initial_board c.2)
                 (open_set c.2 ++ held_states c.1);
  inv_sorted : Sorted Solution_lt (found_solutions c.2);
  inv_solutions : Forall (solution_ok type initial_board)
                    (found_solutions c.2)
}.

(** The walk of [reconstruct_path] along the parent links, from
    [current] to the board where it stops. *)
Inductive parent_chain (parents : gmap (list Z) Board)
    (initial_board : Board) : Board → list Board → Prop :=
  | chain_arrived current :
      Board_eqb current initial_board = true →
      parent_chain parents initial_board current []
  | chain_broken current :
      Board_eqb current initial_board = false →
      parents !! tiles current = None →
      parent_chain parents initial_board current [current]
  | chain_link current parent rest :
      Board_eqb current initial_board = false →
      parents !! tiles current = Some parent →
      parent_chain parents initial_board parent rest →
      parent_chain parents initial_board current (current :: rest).

(** ** Boards used in the examples *)

Definition board_2x2 : Board := mkBoard 2 2 [1; 0; 3; 2] 0 1.
Definition board_2x3 : Board := mkBoard 2 3 [4; 1; 3; 0; 2; 5] 1 0.
Definition board_3x3 : Board := mkBoard 3 3 [2; 3; 6; 1; 5; 8; 4; 0; 7] 2 1.

(** A schedule of two workers: worker [1] takes a state off the frontier
    early and only runs the loop body on it after worker [0] has popped
    the goal state. *)
Definition two_worker_schedule : list nat :=
  [0; 0; 0; 0; 1]%nat ++ replicate 29 0%nat ++ [1; 0; 1; 0]%nat.



(** Shared members in which the board [1 0 / 3 2] is stored with [g = 3],
    and others in which one solution of cost [3] has been collected. *)
Definition solver_with_cheaper_g : PuzzleSolver :=
  mkSolver [] {[ [1; 0; 3; 2] := 3 ]} ∅ [] false 7.
Definition solver_with_solution : PuzzleSolver :=
  mkSolver [] {[ [1; 0; 3; 2] := 0 ]} ∅ [mkSolution 3 [board_2x2]] false 0.

(** The solution [solve] returns for [board_2x3] under
    [two_worker_schedule]: four moves, filed under cost [10]. *)
Definition mismatch_solution : Solution :=
  mkSolution 10
    [board_2x3; mkBoard 2 3 [0; 1; 3; 4; 2; 5] 0 0;
     mkBoard 2 3 [1; 0; 3; 4; 2; 5] 0 1;
     mkBoard 2 3 [1; 2; 3; 4; 0; 5] 1 1;
     mkBoard 2 3 [1; 2; 3; 4; 5; 0] 1 2].

(** ** Valid boards throughout the search *)

Definition board_ok (initial_board b : Board) : Prop :=
  valid_Board b = true ∧ same_dims b initial_board.

Record boards_valid (initial_board : Board)
    (c : list WorkerState * PuzzleSolver) : Prop := {
  valid_states : Forall (fun st => board_ok initial_board (board st))
                   (open_set c.2 ++ held_states c.1);
  valid_parents : ∀ k p, came_from c.2 !! k = Some p →
                         board_ok initial_board p;
  valid_paths : Forall (fun sol => Forall (board_ok initial_board) (path sol))
                  (found_solutions c.2)
}.

(** Every board of the path is in the neighbour list of the one before. *)
Fixpoint moves_in (type : SolveType) (path : list Board) : Prop :=
  match path with
  | [] => True
  | p :: rest =>
      match rest with
      | [] => True
      | c :: _ => c ∈ get_neighbors type p ∧ moves_in type rest
      end
  end.

(** The solved 2 by 2 board, and the shared members once a worker has
    collected it as the solution of itself. *)
Definition solved_2x2 : Board := mkBoard 2 2 [1; 2; 3; 0] 1 1.
Definition solver_after_solution : PuzzleSolver :=
  mkSolver [] {[ [1; 2; 3; 0] := 0 ]} ∅ [mkSolution 0 [solved_2x2]] true 1.

(** Two more schedules for [board_2x3] with two workers, a time limit of
    one second and a clock that stays at zero.  Under both, worker [0]
    ends up holding the goal state it popped with [g = 10].  Under the
    first, worker [1] has by then lowered the stored [g] of the goal board
    to [4]; under the second it has gone on to collect the solution of
    cost [4]. *)
Definition stale_schedule : list nat :=
  take 35 two_worker_schedule ++ [1; 1]%nat.
Definition pruned_schedule : list nat :=
  take 35 two_worker_schedule ++ [1; 1; 1; 1]%nat.

Definition held_goal_state : State :=
  mkState (mkBoard 2 3 [1; 2; 3; 4; 5; 0] 1 2) 10 0 10.

Definition solver_after (schedule : list nat) : PuzzleSolver :=
  match run_schedule 100 AdjacentSwap 1 board_2x3 1 (fun _ => 0) schedule
          (replicate 2 Idle) (initial_solver board_2x3) with
  | Some c => c.2
  | None => initial_solver board_2x3
  end.

Definition stale_solver : PuzzleSolver :=
  Eval vm_compute in solver_after stale_schedule.
Definition pruned_solver : PuzzleSolver :=
  Eval vm_compute in solver_after pruned_schedule.

(** * Further definitions: goal boards, coverage of the cost table,
    the phases of the search, printing *)

(** The solved position [1, 2, ..., n*m-1, 0], and the board that holds
    it. *)
Definition goal_tiles (n m : Z) : list Z := seqZ 1 (n * m - 1) ++ [0].
Definition goal_Board (n m : Z) : Board :=
  mkBoard n m (goal_tiles n m) (n - 1) (m - 1).

(** The direction that undoes a move. *)
Definition opposite (d : Direction) : Direction :=
  match d with Up => Down | Down => Up | Left => Right | Right => Left end.

(** Whether the blank of [b] has a cell next to it in direction [d]. *)
Definition can_move (b : Board) (d : Direction) : bool :=
  match d with
  | Up => 0 <? empty_row b
  | Down => empty_row b <? N b - 1
  | Left => 0 <? empty_col b
  | Right => empty_col b <? M b - 1
  end.

(** A single row with the blank in front of the tiles [1 .. m-1], which
    are in order but each one cell to the right of its target. *)
Definition row_board (m : Z) : Board := mkBoard 1 m (seqZ 0 m) 0 0.

(** ** Coverage of the cost table

    A key of the cost table is live when a state on the frontier or in
    the hands of a worker carries its board with the stored [g]; it is
    closed when its board is not a goal and each of its successors has an
    entry of at most the stored [g] plus one. *)
Definition live_at (live : list State) (k : list Z) (g : Z) : Prop :=
  ∃ st, st ∈ live ∧ tiles (board st) = k ∧ g_cost st = g.

Definition closed_at (type : SolveType) (initial_board : Board)
    (s : PuzzleSolver) (k : list Z) (g : Z) : Prop :=
  ∃ b, tiles b = k ∧ board_ok initial_board b ∧ is_goal b = false
       ∧ ∀ n, n ∈ get_neighbors type b →
              ∃ g', g_costs s !! tiles n = Some g' ∧ g' <= g + 1.

Definition covered (type : SolveType) (initial_board : Board)
    (c : list WorkerState * PuzzleSolver) : Prop :=
  ∀ k g, g_costs c.2 !! k = Some g →
    live_at (open_set c.2 ++ held_states c.1) k g
    ∨ closed_at type initial_board c.2 k g.

(** The same while the worker that holds [cur] relaxes the successors of
    its board. *)
Definition covered_except (type : SolveType) (initial_board : Board)
    (extra : list State) (cur : State) (s : PuzzleSolver) : Prop :=
  ∀ k g, g_costs s !! k = Some g →
    live_at (open_set s ++ extra) k g
    ∨ closed_at type initial_board s k g
    ∨ (k = tiles (board cur) ∧ g = g_cost cur).

(** Some worker is still in its loop, or the loop condition fails for
    every worker that tests it. *)
Definition pool_active (c : list WorkerState * PuzzleSolver) : Prop :=
  (∃ w, w ∈ c.1 ∧ has_exited w = false)
  ∨ terminate_search c.2 = true ∨ open_set c.2 = [].

(** [x] is at most the number of moves of every sequence of moves from
    the initial board to the goal. *)
Definition cost_optimal (type : SolveType) (initial_board : Board)
    (x : Z) : Prop :=
  ∀ steps, move_sequence (get_neighbors type) initial_board steps →
           is_goal (default initial_board (last steps)) = true →
           x <= Z.of_nat (length steps).

(** A state as the search builds it: [h] is the Manhattan distance of
    its board and [f = g + h]. *)
Definition state_wf (st : State) : Prop :=
  h_cost st = get_manhattan_distance (board st)
  ∧ f_cost st = g_cost st + h_cost st.

(** With a single worker, the state it holds was the best of the
    frontier when it was popped, and still is. *)
Definition held_is_best (c : list WorkerState * PuzzleSolver) : Prop :=
  length c.1 = 1%nat
  ∧ ∀ cur, cur ∈ held_states c.1 → Forall (served_before cur) (open_set c.2).

(** The state [solve] pushes first, and the solution that consists of
    the initial board alone. *)
Definition initial_state (initial_board : Board) : State :=
  new_State initial_board 0 (get_manhattan_distance initial_board).
Definition trivial_solution (initial_board : Board) : Solution :=
  mkSolution 0 [initial_board].

(** A worker holds nothing but the initial state. *)
Definition holds_initial (initial_board : Board) (w : WorkerState) : Prop :=
  ∀ st, w = Holding st → st = initial_state initial_board.

(** The three phases of a search that starts at the goal: the initial
    state is on the frontier, then in the hands of a worker, then
    collected. *)
Definition solved_phase (initial_board : Board)
    (c : list WorkerState * PuzzleSolver) : Prop :=
  (open_set c.2 = [initial_state initial_board]
   ∧ found_solutions c.2 = [] ∧ terminate_search c.2 = false
   ∧ Forall (fun w => w = Idle) c.1)
  ∨ (open_set c.2 = [] ∧ found_solutions c.2 = []
     ∧ terminate_search c.2 = false
     ∧ (∃ t : nat, c.1 !! t = Some (Holding (initial_state initial_board)))
     ∧ Forall (holds_initial initial_board) c.1)
  ∨ (open_set c.2 = []
     ∧ found_solutions c.2 = [trivial_solution initial_board]
     ∧ Forall (holds_initial initial_board) c.1).

(** The schedule in which worker [0] pops and collects, and then every
    worker tests the loop condition once. *)
Definition first_worker_schedule (num_threads : Z) : list nat :=
  [0; 0]%nat ++ seq 0 (Z.to_nat num_threads).

(** The 2 by 2 board [2 1 / 3 _], which no sequence of moves solves, and
    a schedule of a single worker. *)
Definition unsolvable_2x2 : Board := mkBoard 2 2 [2; 1; 3; 0] 1 1.
Definition single_worker_schedule (n : nat) : list nat := replicate n 0%nat.

(** The solution the single worker finds for [board_2x3]. *)
Definition optimal_solution_2x3 : Solution :=
  mkSolution 4 (path mismatch_solution).

(** A 2 by 3 board on which the BlockShift search of a single worker
    returns a solution of cost [13], and a sequence of [11] block shifts
    that solves it. *)
Definition shift_board_2x3 : Board := mkBoard 2 3 [3; 5; 1; 0; 4; 2] 1 0.
Definition shift_short_path : list Board :=
  [mkBoard 2 3 [0; 5; 1; 3; 4; 2] 0 0;
   mkBoard 2 3 [5; 0; 1; 3; 4; 2] 0 1;
   mkBoard 2 3 [5; 4; 1; 3; 0; 2] 1 1;
   mkBoard 2 3 [5; 4; 1; 0; 3; 2] 1 0;
   mkBoard 2 3 [0; 4; 1; 5; 3; 2] 0 0;
   mkBoard 2 3 [4; 1; 0; 5; 3; 2] 0 2;
   mkBoard 2 3 [4; 1; 2; 5; 3; 0] 1 2;
   mkBoard 2 3 [4; 1; 2; 0; 5; 3] 1 0;
   mkBoard 2 3 [0; 1; 2; 4; 5; 3] 0 0;
   mkBoard 2 3 [1; 2; 0; 4; 5; 3] 0 2;
   mkBoard 2 3 [1; 2; 3; 4; 5; 0] 1 2].

(** ** Printing a board *)

(** The line feed that ends a row. *)
Definition newline : string := String (Ascii.ascii_of_nat 10) EmptyString.

(** [std::to_string(int)]: the decimal digits, after a minus sign when the
    number is negative. *)
Definition to_string_int (v : Z) : string := pretty v.

(** The body of the inner loop of [Board::to_string]. *)
Definition to_string_cell (b : Board) (r : Z) (s : string) (c : Z) : string :=
  let val := at_ (tiles b) (r * M b + c) in
  let s :=
    if val =? 0 then s +:+ "  "
    else s +:+ ((if val <? 10 then " " else "") +:+ to_string_int val) in
  s +:+ " ".

Definition to_string_row (b : Board) (s : string) (r : Z) : string :=
  foldl (to_string_cell b r) s (seqZ 0 (M b)) +:+ newline.

(** [Board::to_string] *)
Definition to_string (b : Board) : string :=
  foldl (to_string_row b) "" (seqZ 0 (N b)).

(** The body of the inner loop of [print_board] in [main.cpp]. *)
Definition print_board_cell (b : Board) (r : Z) (board_str : string)
    (c : Z) : string :=
  let val := at_ (tiles b) (r * M b + c) in
  board_str
  +:+ (((if val =? 0 then "  " else if val <? 10 then " " else "")
        +:+ to_string_int val) +:+ " ").

Definition print_board_row (b : Board) (board_str : string) (r : Z) : string :=
  foldl (print_board_cell b r) board_str (seqZ 0 (M b)) +:+ newline.

(** The text [print_board] hands to the logger. *)
Definition print_board (b : Board) : string :=
  foldl (print_board_row b) "" (seqZ 0 (N b)).

(** The width of a number below [100] behind its padding. *)
Definition padded_width_ok (v : Z) : bool :=
  Nat.eqb
    (String.length ((if v <? 10 then " " else "") +:+ to_string_int v)) 2.

(** ** A measure of the work left

    The tile vectors a board of the given size can hold, the number of
    them the cost table has not seen yet, the sum of the stored costs, and
    the load of the pool: three for a state on the frontier or in the
    hands of a worker, one for a worker that has not left its loop. *)
Definition board_space (n m : Z) : gset (list Z) :=
  list_to_set (permutations (seqZ 0 (n * m))).

Definition undiscovered (initial_board : Board) (s : PuzzleSolver) : nat :=
  size (board_space (N initial_board) (M initial_board) ∖ dom (g_costs s)).

Definition sum_g (m : gmap (list Z) Z) : Z :=
  map_fold (fun _ g acc => g + acc) 0 m.

Definition worker_weight (w : WorkerState) : nat :=
  match w with Idle => 1 | Holding _ => 3 | Exited => 0 end.

Fixpoint workers_weight (ws : list WorkerState) : nat :=
  match ws with
  | [] => 0
  | w :: ws => worker_weight w + workers_weight ws
  end.

Definition pool_weight (c : list WorkerState * PuzzleSolver) : nat :=
  3 * length (open_set c.2) + workers_weight c.1.

Definition pool_measure (initial_board : Board)
    (c : list WorkerState * PuzzleSolver) : nat * nat * nat :=
  (undiscovered initial_board c.2, Z.to_nat (sum_g (g_costs c.2)),
   pool_weight c).

(** The lexicographic order on the measures. *)
Definition measure_lt (a b : nat * nat * nat) : Prop :=
  (a.1.1 < b.1.1)%nat
  ∨ (a.1.1 = b.1.1 ∧ (a.1.2 < b.1.2)%nat)
  ∨ (a.1.1 = b.1.1 ∧ a.1.2 = b.1.2 ∧ (a.2 < b.2)%nat).

(** The tables of [s'] against those of [s]: fewer boards left to
    discover, or as many and a smaller sum of costs. *)
Definition tables_lt (initial_board : Board) (s' s : PuzzleSolver) : Prop :=
  (undiscovered initial_board s' < undiscovered initial_board s)%nat
  ∨ (undiscovered initial_board s' = undiscovered initial_board s
     ∧ (Z.to_nat (sum_g (g_costs s')) < Z.to_nat (sum_g (g_costs s)))%nat).

(** A step in which a worker that has not left its loop does something:
    it tests the loop condition or runs the loop body. *)
Definition active_step (type : SolveType) (K : Z) (initial_board : Board)
    (time_limit_seconds : Z) (c c' : list WorkerState * PuzzleSolver) : Prop :=
  pool_step type K initial_board time_limit_seconds c c' ∧ c' ≠ c.

(** * The solver that keeps the path in the state

    [src/PuzzleSolver.cpp] goes with the header in which a [State] carries
    the boards that led to it; there is no parent map, no time limit, and
    the loop body has no [break]. *)
Module PathSolver.

Record State : Type := mkState {
  board : Board;
  g_cost : Z;
  h_cost : Z;
  f_cost : Z;
  path : list Board
}.

(** [State(Board b, int g, int h, const std::vector<Board>& p)] *)
Definition new_State (b : Board) (g h : Z) (p : list Board) : State :=
  mkState b g h (g + h) p.

(** [State::operator>] *)
Definition State_gtb (a other : State) : bool :=
  if negb (f_cost a =? f_cost other) then f_cost a >? f_cost other
  else g_cost a >? g_cost other.

(** [CompareStateForTBB::operator()] of this header, with [<]. *)
Definition CompareStateForTBB (a b : State) : bool :=
  if negb (f_cost a =? f_cost b) then f_cost a <? f_cost b
  else g_cost a <? g_cost b.

(** [tbb::concurrent_priority_queue<State, CompareStateForTBB>], as in
    the later solver: [try_pop] removes an element that no other element
    beats under the comparator. *)
Fixpoint pop_top (best : State) (rest : list State) : State * list State :=
  match rest with
  | [] => (best, [])
  | x :: rest' =>
      if CompareStateForTBB best x
      then let '(top, others) := pop_top x rest' in (top, best :: others)
      else let '(top, others) := pop_top best rest' in (top, x :: others)
  end.

Definition try_pop (q : list State) : option (State * list State) :=
  match q with
  | [] => None
  | x :: rest => Some (pop_top x rest)
  end.

Record PuzzleSolver : Type := mkSolver {
  open_set : list State;
  g_costs : gmap (list Z) Z;
  found_solutions : list Solution;
  terminate_search : bool;
  states_explored : Z
}.

Definition set_open_set (q : list State) (s : PuzzleSolver) : PuzzleSolver :=
  mkSolver q (g_costs s) (found_solutions s) (terminate_search s)
    (states_explored s).
Definition set_g_costs (g : gmap (list Z) Z) (s : PuzzleSolver) : PuzzleSolver :=
  mkSolver (open_set s) g (found_solutions s) (terminate_search s)
    (states_explored s).
Definition set_found_solutions (f : list Solution) (s : PuzzleSolver)
    : PuzzleSolver :=
  mkSolver (open_set s) (g_costs s) f (terminate_search s)
    (states_explored s).
Definition set_terminate_search (t : bool) (s : PuzzleSolver) : PuzzleSolver :=
  mkSolver (open_set s) (g_costs s) (found_solutions s) t
    (states_explored s).
Definition set_states_explored (n : Z) (s : PuzzleSolver) : PuzzleSolver :=
  mkSolver (open_set s) (g_costs s) (found_solutions s)
    (terminate_search s) n.

(** [current_nth_best_cost != -1 && current_state.f_cost >= current_nth_best_cost] *)
Definition is_pruned (num_solutions_to_find : Z) (current_state : State)
    (s : PuzzleSolver) : bool :=
  let current_nth_best_cost :=
    nth_best_cost num_solutions_to_find (found_solutions s) in
  negb (current_nth_best_cost =? -1)
  && (f_cost current_state >=? current_nth_best_cost).

(** [g_cost_it != g_costs.end() && current_state.g_cost > g_cost_it->second] *)
Definition is_stale (current_state : State) (s : PuzzleSolver) : bool :=
  match g_costs s !! tiles (board current_state) with
  | Some stored => g_cost current_state >? stored
  | None => false
  end.

(** The goal branch: the path of the state goes into the set as it is. *)
Definition collect_solution (num_solutions_to_find : Z)
    (current_state : State) (s : PuzzleSolver) : PuzzleSolver :=
  let found :=
    set_insert (mkSolution (g_cost current_state) (path current_state))
      (found_solutions s) in
  let s := set_found_solutions found s in
  if size_ge (length found) num_solutions_to_find
  then set_terminate_search true s else s.

(** The body of the loop over the neighbours: [emplace], and when the
    board was there already the comparison with the stored cost. *)
Definition relax (current_state : State) (s : PuzzleSolver)
    (neighbor_board : Board) : PuzzleSolver :=
  let new_g_cost := g_cost current_state + 1 in
  let pushed :=
    new_State neighbor_board new_g_cost
      (get_manhattan_distance neighbor_board)
      (path current_state ++ [neighbor_board]) in
  match g_costs s !! tiles neighbor_board with
  | None =>
      set_open_set (pushed :: open_set s)
        (set_g_costs (<[tiles neighbor_board := new_g_cost]> (g_costs s)) s)
  | Some stored =>
      if new_g_cost <? stored then
        set_open_set (pushed :: open_set s)
          (set_g_costs (<[tiles neighbor_board := new_g_cost]> (g_costs s))
             s)
      else s
  end.

Definition expand (type : SolveType) (current_state : State)
    (s : PuzzleSolver) : PuzzleSolver :=
  foldl (relax current_state) s (get_neighbors type (board current_state)).

(** One pass of the [while] loop of [worker_thread_func], after [try_pop]
    has handed over [current_state]. *)
Definition worker_iteration (type : SolveType) (num_solutions_to_find : Z)
    (current_state : State) (s : PuzzleSolver) : PuzzleSolver :=
  let s := set_states_explored (states_explored s + 1) s in
  if is_pruned num_solutions_to_find current_state s then s
  else if is_stale current_state s then s
  else if is_goal (board current_state) then
    collect_solution num_solutions_to_find current_state s
  else expand type current_state s.

(** The state [solve] sets up before it starts the workers. *)
Definition initial_solver (initial_board : Board) : PuzzleSolver :=
  mkSolver
    [new_State initial_board 0 (get_manhattan_distance initial_board)
       [initial_board]]
    {[ tiles initial_board := 0 ]} [] false 0.

(** The workers, as in the later solver. *)
Inductive WorkerState : Type :=
  | Idle
  | Holding (current_state : State)
  | Exited.

Definition worker_step (type : SolveType) (num_solutions_to_find : Z)
    (w : WorkerState) (s : PuzzleSolver) : WorkerState * PuzzleSolver :=
  match w with
  | Exited => (Exited, s)
  | Idle =>
      if terminate_search s then (Exited, s)
      else
        match try_pop (open_set s) with
        | None => (Exited, s)
        | Some (current_state, rest) =>
            (Holding current_state, set_open_set rest s)
        end
  | Holding current_state =>
      (Idle, worker_iteration type num_solutions_to_find current_state s)
  end.

Fixpoint run_schedule (type : SolveType) (num_solutions_to_find : Z)
    (schedule : list nat) (ws : list WorkerState) (s : PuzzleSolver)
    : option (list WorkerState * PuzzleSolver) :=
  match schedule with
  | [] => Some (ws, s)
  | t :: schedule' =>
      match ws !! t with
      | None => None
      | Some w =>
          let '(w', s') := worker_step type num_solutions_to_find w s in
          run_schedule type num_solutions_to_find schedule'
            (<[t := w']> ws) s'
      end
  end.

Definition has_exited (w : WorkerState) : bool :=
  match w with Exited => true | _ => false end.

(** [solve] under a given schedule of its [num_threads] workers; [None]
    while some worker is still in its loop. *)
Definition solve (initial_board : Board) (type : SolveType)
    (num_solutions_to_find num_threads : Z) (schedule : list nat)
    : option (list Solution) :=
  match run_schedule type num_solutions_to_find schedule
          (replicate (Z.to_nat num_threads) Idle)
          (initial_solver initial_board) with
  | Some (ws, s) =>
      if forallb has_exited ws
      then Some (extract_solutions num_solutions_to_find 0 (found_solutions s))
      else None
  | None => None
  end.

End PathSolver.

(** A path that is what a board and a cost say: a sequence of [g] moves
    from the initial board to the board [b]. *)
Definition path_ok (type : SolveType) (initial_board : Board)
    (b : Board) (g : Z) (p : list Board) : Prop :=
  ∃ steps,
    p = initial_board :: steps
    ∧ move_sequence (get_neighbors type) initial_board steps
    ∧ default initial_board (last steps) = b
    ∧ g = Z.of_nat (length steps).

Definition path_state_ok (type : SolveType) (initial_board : Board)
    (st : PathSolver.State) : Prop :=
  path_ok type initial_board (PathSolver.board st) (PathSolver.g_cost st)
    (PathSolver.path st).

Definition path_solution_ok (type : SolveType) (initial_board : Board)
    (sol : Solution) : Prop :=
  ∃ b, is_goal b = true
       ∧ path_ok type initial_board b (cost sol) (path sol).

Definition paths_ok (type : SolveType) (initial_board : Board)
    (c : list PathSolver.WorkerState * PathSolver.PuzzleSolver) : Prop :=
  Forall (path_state_ok type initial_board) (PathSolver.open_set c.2)
  ∧ (∀ (t : nat) cur, c.1 !! t = Some (PathSolver.Holding cur) →
       path_state_ok type initial_board cur)
  ∧ Forall (path_solution_ok type initial_board)
      (PathSolver.found_solutions c.2).

(** The order in which the queue of the path-carrying solver hands out
    its states: [a] is not behind [b]. *)
Definition served_first (a b : PathSolver.State) : Prop :=
  PathSolver.f_cost b < PathSolver.f_cost a
  ∨ (PathSolver.f_cost b = PathSolver.f_cost a
     ∧ PathSolver.g_cost b <= PathSolver.g_cost a).

(** The 2 by 2 board [_ 1 / 3 2], two moves from the goal, and the
    solution the path-carrying solver returns for it. *)
Definition detour_board : Board := mkBoard 2 2 [0; 1; 3; 2] 0 0.
Definition detour_short_path : list Board :=
  [mkBoard 2 2 [1; 0; 3; 2] 0 1; mkBoard 2 2 [1; 2; 3; 0] 1 1].
Definition detour_solution : Solution :=
  Eval vm_compute in
    default (mkSolution 0 [])
      (PathSolver.solve detour_board AdjacentSwap 1 1
         (single_worker_schedule 24) ≫= head).

(** A frontier of two states of that search. *)
Definition detour_frontier : list PathSolver.State :=
  [PathSolver.new_State (mkBoard 2 2 [1; 0; 3; 2] 0 1) 1 1
     [detour_board; mkBoard 2 2 [1; 0; 3; 2] 0 1];
   PathSolver.new_State (mkBoard 2 2 [3; 1; 0; 2] 1 0) 1 3
     [detour_board; mkBoard 2 2 [3; 1; 0; 2] 1 0]].
(** * Properties of the board model *)

Example adjacent_swap_3x3 :
  tiles <$> get_neighbors_adjacent_swap (mkBoard 3 3 [2;3;6;1;5;8;4;0;7] 2 1)
  = [ [2;3;6;1;0;8;4;5;7]; [2;3;6;1;5;8;0;4;7]; [2;3;6;1;5;8;4;7;0] ].
Proof. reflexivity. Qed.

Example new_Board_3x3 :
  new_Board 3 3 [2; 3; 6; 1; 5; 8; 4; 0; 7] = Some board_3x3.
Proof. reflexivity. Qed.

Example block_shift_1x4 :
  tiles <$> get_neighbors_block_shift (mkBoard 1 4 [0;1;2;3] 0 0)
  = [ [1;0;2;3]; [1;2;0;3]; [1;2;3;0] ].
Proof. vm_compute. reflexivity. Qed.

Section BoardFacts.

Implicit Types (b : Board) (t : list Z).

Lemma at_lookup t (i : Z) v :
  0 <= i → t !! Z.to_nat i = Some v → at_ t i = v.
Proof.
  intros Hi Hv. unfold at_. rewrite Hv.
  by destruct (Z.leb_spec 0 i); [|lia].
Qed.

Lemma lookup_at t (i : Z) :
  0 <= i < Z.of_nat (length t) → t !! Z.to_nat i = Some (at_ t i).
Proof.
  intros Hi. destruct (lookup_lt_is_Some_2 t (Z.to_nat i)) as [v Hv]; [lia|].
  by rewrite (at_lookup _ _ _ (proj1 Hi) Hv).
Qed.

Lemma length_swap_tiles t i j : length (swap_tiles t i j) = length t.
Proof.
  unfold swap_tiles. destruct (_ && _); [|done].
  by rewrite !length_insert.
Qed.

Lemma at_swap_tiles t (i j p : Z) :
  0 <= i < Z.of_nat (length t) → 0 <= j < Z.of_nat (length t) →
  at_ (swap_tiles t i j) p =
    if bool_decide (p = j) then at_ t i
    else if bool_decide (p = i) then at_ t j else at_ t p.
Proof.
  intros Hi Hj. unfold swap_tiles.
  replace ((0 <=? i) && (0 <=? j)) with true
    by (symmetry; apply andb_true_iff; split; apply Z.leb_le; lia).
  case_bool_decide as Hpj.
  - subst p. apply at_lookup; [lia|].
    apply list_lookup_insert_eq. rewrite length_insert. lia.
  - case_bool_decide as Hpi.
    + subst p. apply at_lookup; [lia|].
      rewrite list_lookup_insert_ne by lia.
      apply list_lookup_insert_eq. lia.
    + unfold at_. destruct (Z.leb_spec 0 p); [|done].
      by rewrite !list_lookup_insert_ne by lia.
Qed.

Lemma swap_tiles_Permutation t (i j : Z) :
  0 <= i < Z.of_nat (length t) → 0 <= j < Z.of_nat (length t) →
  swap_tiles t i j ≡ₚ t.
Proof.
  intros Hi Hj. unfold swap_tiles.
  replace ((0 <=? i) && (0 <=? j)) with true
    by (symmetry; apply andb_true_iff; split; apply Z.leb_le; lia).
  apply Permutation_insert_swap; by apply lookup_at.
Qed.

(** *** What validity gives *)

Lemma valid_Board_spec b :
  valid_Board b = true ↔
    0 < N b ∧ 0 < M b ∧ Z.of_nat (length (tiles b)) = N b * M b ∧
    (∀ v, 0 <= v < N b * M b → v ∈ tiles b) ∧
    (0 <= empty_row b < N b ∧ 0 <= empty_col b < M b) ∧
    at_ (tiles b) (blank_idx b) = 0.
Proof.
  unfold valid_Board, in_bounds.
  rewrite !andb_true_iff, forallb_forall, bool_decide_eq_true.
  rewrite !Z.ltb_lt, !Z.leb_le, Z.eqb_eq.
  split.
  - intros [[[[[??] ?] Hall] [[[??]?]?]] ?]. repeat split; try done.
    intros v Hv. specialize (Hall v).
    rewrite bool_decide_eq_true in Hall. apply Hall.
    apply list_elem_of_In, elem_of_seqZ. lia.
  - intros (?&?&?&Hall&[[??][??]]&?). repeat split; try done.
    intros v Hv%list_elem_of_In%elem_of_seqZ.
    apply bool_decide_eq_true, Hall. lia.
Qed.

Lemma valid_Board_Permutation b :
  valid_Board b = true → tiles b ≡ₚ seqZ 0 (N b * M b).
Proof.
  intros (?&?&Hlen&Hall&_)%valid_Board_spec. symmetry.
  apply submseteq_length_Permutation.
  - apply NoDup_submseteq; [apply NoDup_seqZ|].
    intros v Hv%elem_of_seqZ. apply Hall. lia.
  - rewrite length_seqZ. lia.
Qed.

Lemma valid_Board_blank_idx b :
  valid_Board b = true → 0 <= blank_idx b < Z.of_nat (length (tiles b)).
Proof.
  intros (?&?&Hlen&_&[??]&_)%valid_Board_spec. unfold blank_idx. nia.
Qed.

(** The blank is the only zero. *)
Lemma valid_Board_zero_unique b (i : Z) :
  valid_Board b = true → 0 <= i < N b * M b →
  at_ (tiles b) i = 0 → i = blank_idx b.
Proof.
  intros Hv Hi Hz.
  pose proof (valid_Board_blank_idx b Hv) as Hb.
  pose proof (valid_Board_Permutation b Hv) as HP.
  apply valid_Board_spec in Hv as (?&?&Hlen&_&_&Hbz).
  assert (NoDup (tiles b)) as Hnd by (rewrite HP; apply NoDup_seqZ).
  assert (Z.to_nat i = Z.to_nat (blank_idx b)); [|lia].
  eapply NoDup_lookup; [done| |].
  - rewrite lookup_at by lia. by rewrite Hz.
  - rewrite lookup_at by lia. by rewrite Hbz.
Qed.

End BoardFacts.

(** ** The Manhattan distance under AdjacentSwap *)

Section Manhattan.

Implicit Types (b : Board) (t : list Z).

Lemma foldl_cell_sum b pre rest a :
  tiles b = pre ++ rest →
  foldl (manhattan_step b) a
    (seqZ (Z.of_nat (length pre)) (Z.of_nat (length rest)))
  = a + cell_sum (M b) (Z.of_nat (length pre)) rest.
Proof.
  revert pre a. induction rest as [|v rest IH]; intros pre a Ht.
  - simpl. lia.
  - rewrite length_cons, Nat2Z.inj_succ, seqZ_cons by lia. simpl.
    replace (Z.pred (Z.succ (Z.of_nat (length rest))))
      with (Z.of_nat (length rest)) by lia.
    replace (Z.succ (Z.of_nat (length pre)))
      with (Z.of_nat (length (pre ++ [v])))
      by (rewrite length_app; simpl; lia).
    rewrite (IH (pre ++ [v])) by (by rewrite <- app_assoc).
    unfold manhattan_step at 1.
    rewrite (at_lookup (tiles b) _ v) by
      (try lia; rewrite Ht, Nat2Z.id; by apply list_lookup_middle).
    rewrite length_app. simpl.
    replace (Z.of_nat (length pre + 1)) with (Z.of_nat (length pre) + 1) by lia.
    unfold cell_term. destruct (v =? 0); lia.
Qed.

Lemma manhattan_cell_sum b :
  Z.of_nat (length (tiles b)) = N b * M b →
  get_manhattan_distance b = cell_sum (M b) 0 (tiles b).
Proof.
  intros Hlen. unfold get_manhattan_distance. rewrite <- Hlen.
  by apply (foldl_cell_sum b [] (tiles b) 0).
Qed.

Lemma cell_sum_insert m k t (i : nat) x y :
  t !! i = Some y →
  cell_sum m k (<[i:=x]> t)
  = cell_sum m k t - cell_term m (k + Z.of_nat i) y
    + cell_term m (k + Z.of_nat i) x.
Proof.
  revert k i. induction t as [|v t IH]; intros k [|i] Hi; try done.
  - simpl in *. injection Hi as ->. unfold cell_term.
    replace (k + Z.of_nat 0) with k by lia. lia.
  - simpl in *. rewrite (IH (k + 1) i Hi).
    replace (k + 1 + Z.of_nat i) with (k + Z.of_nat (S i)) by lia. lia.
Qed.

Lemma quot_rem_cell m r c :
  0 < m → 0 <= r → 0 <= c < m →
  Z.quot (r * m + c) m = r ∧ Z.rem (r * m + c) m = c.
Proof.
  intros Hm Hr Hc.
  rewrite Z.quot_div_nonneg, Z.rem_mod_nonneg by nia.
  rewrite Z.div_add_l, Z.div_small by lia.
  rewrite (Z.add_comm (r * m)), Z.mod_add, Z.mod_small by lia. lia.
Qed.

(** Moving one cell changes the distance of a tile to its target by at
    most one. *)
Lemma tile_distance_step m r c (d : Direction) v :
  0 < m → 0 <= r → 0 <= c < m → 0 <= r + dr d → 0 <= c + dc d < m →
  tile_distance m ((r + dr d) * m + (c + dc d)) v
  <= 1 + tile_distance m (r * m + c) v.
Proof.
  intros Hm Hr Hc Hr' Hc'. unfold tile_distance.
  destruct (quot_rem_cell m r c) as [-> ->]; [done..|].
  destruct (quot_rem_cell m (r + dr d) (c + dc d)) as [-> ->]; [done..|].
  destruct d; simpl; lia.
Qed.

Lemma elem_of_adjacent_swap b b' :
  b' ∈ get_neighbors_adjacent_swap b ↔
  ∃ d, in_bounds b (empty_row b + dr d) (empty_col b + dc d) = true
       ∧ b' = adjacent_successor b d.
Proof.
  unfold get_neighbors_adjacent_swap, directions, adjacent_swap_step.
  cbn [foldl]. fold (blank_idx b). fold (adjacent_successor b Up).
  fold (adjacent_successor b Down). fold (adjacent_successor b Left).
  fold (adjacent_successor b Right).
  split.
  - intros Hin.
    repeat match type of Hin with
           | context [in_bounds ?x ?r ?c] =>
               let E := fresh "E" in destruct (in_bounds x r c) eqn:E
           end;
      repeat (apply elem_of_app in Hin as [Hin|Hin]);
      repeat match goal with
             | H : _ ∈ [] |- _ => by apply elem_of_nil in H
             | H : _ ∈ [_] |- _ => apply list_elem_of_singleton in H; subst b'
             end;
      eauto.
  - intros [d [Hd ->]].
    destruct d; rewrite Hd;
      repeat match goal with
             | |- context [in_bounds ?x ?r ?c] => destruct (in_bounds x r c)
             end;
      repeat (rewrite elem_of_app || rewrite list_elem_of_singleton); tauto.
Qed.

Lemma in_bounds_spec b r c :
  in_bounds b r c = true ↔ 0 <= r < N b ∧ 0 <= c < M b.
Proof.
  unfold in_bounds. rewrite !andb_true_iff, !Z.leb_le, !Z.ltb_lt. lia.
Qed.

Lemma adjacent_successor_valid b d :
  valid_Board b = true →
  in_bounds b (empty_row b + dr d) (empty_col b + dc d) = true →
  valid_Board (adjacent_successor b d) = true.
Proof.
  intros Hv Hin.
  pose proof (valid_Board_blank_idx b Hv) as Hb.
  apply valid_Board_spec in Hv as (HN&HM&Hlen&Hall&[Hr Hc]&Hz).
  apply in_bounds_spec in Hin as [Hr' Hc'].
  assert (0 <= (empty_row b + dr d) * M b + (empty_col b + dc d)
          < Z.of_nat (length (tiles b))) as Hnew by nia.
  apply valid_Board_spec. simpl. rewrite length_swap_tiles.
  repeat split; try lia.
  - intros v Hvr. rewrite swap_tiles_Permutation by done. by apply Hall.
  - unfold blank_idx. simpl. rewrite at_swap_tiles by done.
    by rewrite bool_decide_eq_true_2.
Qed.

Lemma adjacent_successor_distance b d :
  valid_Board b = true →
  in_bounds b (empty_row b + dr d) (empty_col b + dc d) = true →
  get_manhattan_distance b <= 1 + get_manhattan_distance (adjacent_successor b d).
Proof.
  intros Hv Hin.
  pose proof (adjacent_successor_valid b d Hv Hin) as Hv'.
  pose proof (valid_Board_blank_idx b Hv) as Hb.
  apply valid_Board_spec in Hv as (HN&HM&Hlen&Hall&[Hr Hc]&Hz).
  apply valid_Board_spec in Hv' as (_&_&Hlen'&_).
  apply in_bounds_spec in Hin as [Hr' Hc'].
  set (new := (empty_row b + dr d) * M b + (empty_col b + dc d)) in *.
  assert (0 <= new < Z.of_nat (length (tiles b))) as Hnew by (unfold new; nia).
  assert (new ≠ blank_idx b) as Hne
    by (unfold new, blank_idx; destruct d; simpl; nia).
  rewrite (manhattan_cell_sum b) by done.
  rewrite (manhattan_cell_sum (adjacent_successor b d)) by done.
  simpl. fold new. unfold swap_tiles.
  replace ((0 <=? blank_idx b) && (0 <=? new)) with true
    by (symmetry; apply andb_true_iff; split; apply Z.leb_le; lia).
  rewrite (cell_sum_insert _ _ _ _ _ (at_ (tiles b) new))
    by (rewrite list_lookup_insert_ne by lia; by apply lookup_at).
  rewrite (cell_sum_insert _ _ _ _ _ (at_ (tiles b) (blank_idx b)))
    by (by apply lookup_at).
  rewrite !Z2Nat.id by lia. rewrite Hz. unfold cell_term. simpl.
  rewrite !Z.add_0_l.
  destruct (at_ (tiles b) new =? 0); [lia|].
  pose proof (tile_distance_step (M b) (empty_row b) (empty_col b) d
                (at_ (tiles b) new)) as Hstep.
  fold new in Hstep. unfold blank_idx in *. lia.
Qed.

Lemma is_goal_distance b : is_goal b = true → get_manhattan_distance b = 0.
Proof.
  unfold is_goal. rewrite andb_true_iff, forallb_forall, Z.eqb_eq.
  intros [Hall Hlast]. unfold get_manhattan_distance.
  assert (∀ l, (∀ i, i ∈ l → 0 <= i < N b * M b) →
               foldl (manhattan_step b) 0 l = 0) as Hfold.
  { induction l as [|i l IH] using rev_ind; [done|]. intros Hl.
    rewrite foldl_snoc, IH by (intros j Hj; apply Hl, elem_of_app; by left).
    unfold manhattan_step. destruct (Z.eqb_spec (at_ (tiles b) i) 0); [done|].
    assert (0 <= i < N b * M b) as Hi
      by (apply Hl, elem_of_app; right; by apply list_elem_of_singleton).
    destruct (decide (i = N b * M b - 1)) as [->|]; [done|].
    assert (at_ (tiles b) i = i + 1) as ->.
    { apply Z.eqb_eq, Hall, list_elem_of_In, elem_of_seqZ. lia. }
    unfold tile_distance. replace (i + 1 - 1) with i by lia. lia. }
  apply Hfold. intros i Hi%elem_of_seqZ. lia.
Qed.

Lemma move_sequence_distance steps : ∀ b,
  valid_Board b = true →
  move_sequence get_neighbors_adjacent_swap b steps →
  is_goal (default b (last steps)) = true →
  get_manhattan_distance b <= Z.of_nat (length steps).
Proof.
  induction steps as [|b' rest IH]; intros b Hv Hseq Hgoal.
  - simpl in *. by rewrite is_goal_distance.
  - destruct Hseq as [(d & Hd & ->)%elem_of_adjacent_swap Hrest].
    pose proof (adjacent_successor_distance b d Hv Hd).
    pose proof (adjacent_successor_valid b d Hv Hd) as Hv'.
    specialize (IH _ Hv' Hrest).
    rewrite length_cons, Nat2Z.inj_succ.
    enough (get_manhattan_distance (adjacent_successor b d)
            <= Z.of_nat (length rest)) by lia.
    apply IH. rewrite last_cons in Hgoal. by destruct (last rest).
Qed.

End Manhattan.

(** **** Claim C2.  On a valid board the Manhattan distance never exceeds
  the number of moves of any AdjacentSwap move sequence that ends in the
  goal (admissible), and it drops by at most one over any single
  AdjacentSwap move (consistent). *)
Theorem manhattan_admissible_consistent (b : Board) :
valid_Board b = true →
(∀ steps : list Board,
    move_sequence get_neighbors_adjacent_swap b steps →
    is_goal (default b (last steps)) = true →
    get_manhattan_distance b <= Z.of_nat (length steps))
∧ (∀ b' : Board,
    b' ∈ get_neighbors_adjacent_swap b →
    get_manhattan_distance b <= 1 + get_manhattan_distance b').
Proof.
intros Hv. split.
- intros steps. by apply move_sequence_distance.
- intros b' (d & Hd & ->)%elem_of_adjacent_swap.
  by apply adjacent_successor_distance.
Qed.

Lemma manhattan_admissible_consistent_witness :
  valid_Board board_3x3 = true
  ∧ ∀ b' : Board,
      b' ∈ get_neighbors_adjacent_swap board_3x3 →
      get_manhattan_distance board_3x3 <= 1 + get_manhattan_distance b'.
Proof.
  split; [reflexivity|].
  apply (manhattan_admissible_consistent board_3x3). reflexivity.
Defined.

(** * BlockShift successors *)

Section BlockShift.

Implicit Types (b : Board) (d : Direction).

Lemma block_shift_loop_eq b d cur r c acc :
  block_shift_loop b d cur r c acc =
  if in_bounds b r c then
    let cur' := mkBoard (N cur) (M cur)
                  (swap_tiles (tiles cur) (r * M b + c)
                     ((r - dr d) * M b + (c - dc d))) r c in
    block_shift_loop b d cur' (r + dr d) (c + dc d) (acc ++ [cur'])
  else acc.
Proof.
  rewrite block_shift_loop_equation_1.
  destruct (inspect (in_bounds b r c)) as [[] E]; simpl; by rewrite E.
Qed.

Lemma run_length_spec b d :
  0 <= empty_row b < N b → 0 <= empty_col b < M b →
  Z.of_nat (run_length b d) =
    match d with
    | Up => empty_row b
    | Down => N b - 1 - empty_row b
    | Left => empty_col b
    | Right => M b - 1 - empty_col b
    end.
Proof. intros. unfold run_length, cells_ahead. destruct d; simpl; lia. Qed.

(** The cells at distance [1 .. run_length] are the ones in bounds. *)
Lemma walk_in_bounds b d (j : Z) :
  0 <= empty_row b < N b → 0 <= empty_col b < M b → 1 <= j →
  in_bounds b (walk_row b d j) (walk_col b d j) = true
  ↔ j <= Z.of_nat (run_length b d).
Proof.
  intros Hr Hc Hj. rewrite in_bounds_spec, run_length_spec by done.
  unfold walk_row, walk_col. destruct d; simpl; lia.
Qed.

Lemma walk_in_grid b d (j : Z) :
  0 <= empty_row b < N b → 0 <= empty_col b < M b →
  0 <= j <= Z.of_nat (run_length b d) →
  (0 <= walk_row b d j < N b ∧ 0 <= walk_col b d j < M b)
  ∧ 0 <= walk_idx b d j < N b * M b.
Proof.
  intros Hr Hc Hj. rewrite run_length_spec in Hj by done.
  unfold walk_idx, walk_row, walk_col. destruct d; simpl in *; nia.
Qed.

Lemma walk_idx_inj b d (i j : Z) :
  0 < M b → walk_idx b d i = walk_idx b d j → i = j.
Proof.
  unfold walk_idx, walk_row, walk_col. destruct d; simpl; nia.
Qed.

Lemma walk_idx_0 b d : walk_idx b d 0 = blank_idx b.
Proof. unfold walk_idx, walk_row, walk_col, blank_idx. lia. Qed.

(** The loop, pass by pass. *)
Lemma block_shift_loop_shifted b d :
  0 <= empty_row b < N b → 0 <= empty_col b < M b →
  ∀ (n j : nat) acc,
    cells_ahead b d (walk_row b d (Z.of_nat (S j)))
      (walk_col b d (Z.of_nat (S j))) = n →
    block_shift_loop b d (shifted b d j)
      (walk_row b d (Z.of_nat (S j))) (walk_col b d (Z.of_nat (S j))) acc
    = acc ++ (shifted b d <$> seq (S j) n).
Proof.
  intros Hr Hc. induction n as [|n IH]; intros j acc Hn;
    rewrite block_shift_loop_eq.
  - replace (in_bounds b _ _) with false; [by rewrite app_nil_r|].
    symmetry. apply not_true_iff_false. rewrite in_bounds_spec.
    revert Hn. unfold cells_ahead, walk_row, walk_col.
    destruct d; simpl; lia.
  - replace (in_bounds b _ _) with true.
    2:{ symmetry. apply in_bounds_spec. revert Hn.
        unfold cells_ahead, walk_row, walk_col. destruct d; simpl; lia. }
    cbv zeta.
    change (mkBoard (N (shifted b d j)) (M (shifted b d j)) _ _ _)
      with (shifted b d (S j)).
    replace (walk_row b d (Z.of_nat (S j)) + dr d)
      with (walk_row b d (Z.of_nat (S (S j)))) by (unfold walk_row; lia).
    replace (walk_col b d (Z.of_nat (S j)) + dc d)
      with (walk_col b d (Z.of_nat (S (S j)))) by (unfold walk_col; lia).
    rewrite IH.
    + by rewrite <- app_assoc.
    + revert Hn. unfold cells_ahead, walk_row, walk_col.
      destruct d; simpl; lia.
Qed.

Lemma block_shift_step_shifted b d acc :
  0 <= empty_row b < N b → 0 <= empty_col b < M b →
  block_shift_step b acc d
  = acc ++ (shifted b d <$> seq 1 (run_length b d)).
Proof.
  intros Hr Hc. unfold block_shift_step.
  pose proof (block_shift_loop_shifted b d Hr Hc (run_length b d) 0 acc) as H.
  replace (walk_row b d (Z.of_nat 1)) with (empty_row b + dr d) in H
    by (unfold walk_row; lia).
  replace (walk_col b d (Z.of_nat 1)) with (empty_col b + dc d) in H
    by (unfold walk_col; lia).
  by apply H.
Qed.

Lemma get_neighbors_block_shift_shifted b :
  0 <= empty_row b < N b → 0 <= empty_col b < M b →
  get_neighbors_block_shift b
  = block_shift_successors b Up ++ block_shift_successors b Down
    ++ block_shift_successors b Left ++ block_shift_successors b Right.
Proof.
  intros Hr Hc. unfold get_neighbors_block_shift, block_shift_successors.
  unfold directions. cbn [foldl].
  rewrite !(block_shift_step_shifted b _ _ Hr Hc). simpl.
  by rewrite <- !app_assoc.
Qed.

Lemma shifted_step_idx b d (j : nat) :
  walk_row b d (Z.of_nat (S j)) * M b + walk_col b d (Z.of_nat (S j))
    = walk_idx b d (Z.of_nat (S j))
  ∧ (walk_row b d (Z.of_nat (S j)) - dr d) * M b
      + (walk_col b d (Z.of_nat (S j)) - dc d)
    = walk_idx b d (Z.of_nat j).
Proof.
  split; [done|]. unfold walk_idx, walk_row, walk_col.
  destruct d; simpl; lia.
Qed.

(** What the board looks like after [j] passes: the blank sits at
    distance [j], the [j] tiles it jumped over have each moved one cell
    toward the place the blank started from, nothing else has changed. *)
Lemma shifted_spec b d (j : nat) :
  valid_Board b = true → (j <= run_length b d)%nat →
  let s := shifted b d j in
  (N s = N b ∧ M s = M b ∧ length (tiles s) = length (tiles b)
   ∧ empty_row s = walk_row b d (Z.of_nat j)
   ∧ empty_col s = walk_col b d (Z.of_nat j))
  ∧ tiles s ≡ₚ tiles b
  ∧ at_ (tiles s) (walk_idx b d (Z.of_nat j)) = 0
  ∧ (∀ i : Z, 0 <= i < Z.of_nat j →
       at_ (tiles s) (walk_idx b d i) = at_ (tiles b) (walk_idx b d (i + 1)))
  ∧ (∀ p : Z, (∀ i : Z, 0 <= i <= Z.of_nat j → p ≠ walk_idx b d i) →
       at_ (tiles s) p = at_ (tiles b) p).
Proof.
  intros Hv. pose proof Hv as (HN&HM&Hlen&_&[Hr Hc]&Hz)%valid_Board_spec.
  induction j as [|j IH]; intros Hj s.
  - subst s. simpl. rewrite walk_idx_0.
    repeat split; try done; unfold walk_row, walk_col; lia.
  - destruct IH as ((HN'&HM'&Hlen'&Hr'&Hc')&HP&Hzero&Hrun&Hrest); [lia|].
    destruct (shifted_step_idx b d j) as [E1 E2].
    destruct (walk_in_grid b d (Z.of_nat j) Hr Hc) as [_ Hj0]; [lia|].
    destruct (walk_in_grid b d (Z.of_nat (S j)) Hr Hc) as [_ Hj1]; [lia|].
    assert (∀ p, at_ (tiles s) p =
                 if bool_decide (p = walk_idx b d (Z.of_nat j))
                 then at_ (tiles (shifted b d j)) (walk_idx b d (Z.of_nat (S j)))
                 else if bool_decide (p = walk_idx b d (Z.of_nat (S j)))
                      then at_ (tiles (shifted b d j)) (walk_idx b d (Z.of_nat j))
                      else at_ (tiles (shifted b d j)) p) as Hat.
    { intros p. subst s. cbn [shifted tiles]. rewrite E1, E2.
      apply at_swap_tiles; lia. }
    assert (at_ (tiles (shifted b d j)) (walk_idx b d (Z.of_nat (S j)))
            = at_ (tiles b) (walk_idx b d (Z.of_nat (S j)))) as Hnext.
    { apply Hrest. intros i Hi E%walk_idx_inj; lia. }
    repeat split.
    + done.
    + done.
    + subst s. cbn [shifted tiles]. by rewrite length_swap_tiles.
    + subst s. cbn [shifted tiles]. rewrite E1, E2.
      rewrite swap_tiles_Permutation; [done|lia..].
    + rewrite Hat. rewrite bool_decide_eq_false_2
        by (intros E%walk_idx_inj; lia).
      by rewrite bool_decide_eq_true_2.
    + intros i Hi. rewrite Hat.
      destruct (decide (i = Z.of_nat j)) as [->|Hne].
      * rewrite bool_decide_eq_true_2 by done. rewrite Hnext.
        f_equal. f_equal. lia.
      * rewrite !bool_decide_eq_false_2 by (intros E%walk_idx_inj; lia).
        apply Hrun. lia.
    + intros p Hp. rewrite Hat.
      rewrite !bool_decide_eq_false_2 by (apply Hp; lia).
      apply Hrest. intros i Hi. apply Hp. lia.
Qed.

Lemma shifted_valid b d (j : nat) :
  valid_Board b = true → (j <= run_length b d)%nat →
  valid_Board (shifted b d j) = true.
Proof.
  intros Hv Hj.
  destruct (shifted_spec b d j Hv Hj) as ((HN'&HM'&Hlen'&Hr'&Hc')&HP&Hzero&_).
  pose proof Hv as (HN&HM&Hlen&Hall&[Hr Hc]&Hz)%valid_Board_spec.
  destruct (walk_in_grid b d (Z.of_nat j) Hr Hc) as [[??] _]; [lia|].
  apply valid_Board_spec. rewrite HN', HM', Hlen', Hr', Hc'.
  repeat split; try lia.
  - intros v Hvr. rewrite HP. by apply Hall.
  - unfold blank_idx. by rewrite HM', Hr', Hc'.
Qed.

Lemma elem_of_block_shift_successors b d s :
  0 <= empty_row b < N b → 0 <= empty_col b < M b →
  s ∈ block_shift_successors b d ↔
  ∃ j : nat, (1 <= j <= run_length b d)%nat ∧ s = shifted b d j.
Proof.
  intros Hr Hc. unfold block_shift_successors.
  rewrite block_shift_step_shifted by done. simpl.
  rewrite list_elem_of_fmap. setoid_rewrite elem_of_seq.
  split; intros (j & ? & ?); exists j; split; (done || lia).
Qed.

Lemma lookup_block_shift_successors b d (j : nat) :
  0 <= empty_row b < N b → 0 <= empty_col b < M b →
  block_shift_successors b d !! j =
    if decide (j < run_length b d)%nat then Some (shifted b d (S j)) else None.
Proof.
  intros Hr Hc. unfold block_shift_successors.
  rewrite block_shift_step_shifted by done. simpl.
  rewrite list_lookup_fmap. case_decide.
  - by rewrite lookup_seq_lt.
  - by rewrite lookup_seq_ge by lia.
Qed.

Lemma length_block_shift_successors b d :
  0 <= empty_row b < N b → 0 <= empty_col b < M b →
  length (block_shift_successors b d) = run_length b d.
Proof.
  intros Hr Hc. unfold block_shift_successors.
  rewrite block_shift_step_shifted by done. simpl.
  by rewrite length_fmap, length_seq.
Qed.

(** Successors at different distances differ in their tiles. *)
Lemma shifted_tiles_inj b d (i j : nat) :
  valid_Board b = true →
  (i <= run_length b d)%nat → (j <= run_length b d)%nat →
  tiles (shifted b d i) = tiles (shifted b d j) → i = j.
Proof.
  intros Hv.
  pose proof Hv as (HN&HM&Hlen&_&[Hr Hc]&Hz)%valid_Board_spec.
  enough (∀ i j : nat, (i < j)%nat → (j <= run_length b d)%nat →
            tiles (shifted b d i) ≠ tiles (shifted b d j)) as Hlt.
  { intros Hi Hj E. destruct (Nat.lt_trichotomy i j) as [?|[?|?]]; [|done|].
    - by destruct (Hlt i j).
    - by destruct (Hlt j i). }
  clear i j. intros i j Hij Hj E.
  destruct (shifted_spec b d i Hv) as (_&_&Hzero&_); [lia|].
  destruct (shifted_spec b d j Hv Hj) as (_&_&_&Hrun&_).
  rewrite E, Hrun in Hzero by lia.
  destruct (walk_in_grid b d (Z.of_nat i + 1) Hr Hc) as [_ ?]; [lia|].
  apply valid_Board_zero_unique in Hzero; [|done..].
  rewrite <- walk_idx_0 with (d := d) in Hzero.
  apply walk_idx_inj in Hzero; lia.
Qed.

Lemma block_shift_successors_NoDup b d :
  valid_Board b = true → NoDup (tiles <$> block_shift_successors b d).
Proof.
  intros Hv.
  pose proof Hv as (HN&HM&Hlen&_&[Hr Hc]&Hz)%valid_Board_spec.
  unfold block_shift_successors.
  rewrite block_shift_step_shifted by done. simpl.
  rewrite <- list_fmap_compose.
  apply NoDup_fmap_2_strong; [|apply NoDup_seq].
  intros i j Hi%elem_of_seq Hj%elem_of_seq E.
  apply (shifted_tiles_inj b d i j Hv); (done || lia).
Qed.

End BlockShift.

(** **** Claim C10.  On a valid [N] by [M] board
    [get_neighbors_block_shift] returns [(N-1) + (M-1)] successors,
    wherever the blank is: along each direction one per cell between the
    blank and the edge of the grid. *)
Theorem block_shift_branching_factor (b : Board) :
  valid_Board b = true →
  Z.of_nat (length (get_neighbors_block_shift b)) = (N b - 1) + (M b - 1)
  ∧ Z.of_nat (length (block_shift_successors b Up)) = empty_row b
  ∧ Z.of_nat (length (block_shift_successors b Down)) = N b - 1 - empty_row b
  ∧ Z.of_nat (length (block_shift_successors b Left)) = empty_col b
  ∧ Z.of_nat (length (block_shift_successors b Right)) = M b - 1 - empty_col b.
Proof.
  intros (HN&HM&Hlen&_&[Hr Hc]&Hz)%valid_Board_spec.
  rewrite get_neighbors_block_shift_shifted, !length_app by done.
  rewrite !length_block_shift_successors by done.
  pose proof (run_length_spec b Up Hr Hc).
  pose proof (run_length_spec b Down Hr Hc).
  pose proof (run_length_spec b Left Hr Hc).
  pose proof (run_length_spec b Right Hr Hc).
  simpl in *. lia.
Qed.

Lemma block_shift_branching_factor_witness :
  valid_Board board_3x3 = true
  ∧ Z.of_nat (length (get_neighbors_block_shift board_3x3))
    = (N board_3x3 - 1) + (M board_3x3 - 1).
Proof.
  split; [reflexivity|].
  apply (block_shift_branching_factor board_3x3). reflexivity.
Defined.

(** * The frontier order *)

Section Frontier.

Implicit Types (a b x : State) (q : list State).

Lemma CompareStateForTBB_spec a b :
  CompareStateForTBB a b = true ↔
  f_cost a > f_cost b ∨ (f_cost a = f_cost b ∧ g_cost a > g_cost b).
Proof.
  unfold CompareStateForTBB.
  destruct (Z.eqb_spec (f_cost a) (f_cost b)); simpl;
    rewrite Z.gtb_ltb, Z.ltb_lt; lia.
Qed.

Lemma not_Compare_served_before a b :
  CompareStateForTBB a b = false ↔ served_before a b.
Proof.
  rewrite <- not_true_iff_false, CompareStateForTBB_spec.
  unfold served_before. lia.
Qed.

Lemma served_before_trans a b c :
  served_before a b → served_before b c → served_before a c.
Proof. unfold served_before. lia. Qed.

Lemma pop_top_spec q : ∀ best top others,
  pop_top best q = (top, others) →
  best :: q ≡ₚ top :: others
  ∧ served_before top best
  ∧ Forall (served_before top) others.
Proof.
  induction q as [|x q IH]; intros best top others; simpl.
  - intros [= <- <-].
    split_and!; [done|unfold served_before; lia|by constructor].
  - destruct (CompareStateForTBB best x) eqn:E.
    + destruct (pop_top x q) as [top' others'] eqn:Ep. intros [= <- <-].
      destruct (IH _ _ _ Ep) as (HP & Hx & Hall).
      apply CompareStateForTBB_spec in E.
      assert (served_before top' best)
        by (revert Hx; unfold served_before; lia).
      split_and!; [|done|by constructor].
      rewrite HP. apply Permutation_swap.
    + destruct (pop_top best q) as [top' others'] eqn:Ep. intros [= <- <-].
      destruct (IH _ _ _ Ep) as (HP & Hb & Hall).
      apply not_Compare_served_before in E.
      split_and!; [|done|].
      * rewrite (Permutation_swap x best q), HP. apply Permutation_swap.
      * constructor; [|done]. by eapply served_before_trans.
Qed.

Lemma try_pop_spec q top others :
  try_pop q = Some (top, others) →
  q ≡ₚ top :: others ∧ Forall (served_before top) others.
Proof.
  destruct q as [|x q]; [done|]. simpl. intros [= H].
  by destruct (pop_top_spec _ _ _ _ H) as (?&?&?).
Qed.

End Frontier.

(** **** Claim C7.  [CompareStateForTBB a b] holds exactly when [a] has the
    greater [f_cost], or the same [f_cost] and the greater [g_cost]; and
    the state [try_pop] takes out of the frontier has the least [f_cost]
    of all, and the least [g_cost] among those with that [f_cost]. *)
Theorem CompareStateForTBB_order (a b : State) (q : list State) :
  (CompareStateForTBB a b = true ↔
     f_cost a > f_cost b ∨ (f_cost a = f_cost b ∧ g_cost a > g_cost b))
  ∧ (∀ top others, try_pop q = Some (top, others) →
       q ≡ₚ top :: others
       ∧ ∀ x, x ∈ q →
           CompareStateForTBB top x = false
           ∧ f_cost top <= f_cost x
           ∧ (f_cost top = f_cost x → g_cost top <= g_cost x)).
Proof.
  split; [apply CompareStateForTBB_spec|].
  intros top others [HP Hall]%try_pop_spec. split; [done|].
  intros x Hx. rewrite HP in Hx.
  assert (served_before top x) as Hs.
  { apply elem_of_cons in Hx as [->|Hx].
    - unfold served_before. lia.
    - by eapply Forall_forall in Hall. }
  split; [by apply not_Compare_served_before|].
  revert Hs. unfold served_before. lia.
Qed.

(** * One pass of the worker loop *)

Section Iteration.

Context (fuel : nat) (type : SolveType) (num_solutions_to_find : Z)
  (initial_board : Board) (time_limit_seconds elapsed : Z).

Implicit Types (s : PuzzleSolver) (cur : State).

Local Abbreviation iteration :=
  (worker_iteration fuel type num_solutions_to_find initial_board
     time_limit_seconds elapsed).

Lemma worker_iteration_time_limit cur s :
  time_limit_reached time_limit_seconds elapsed = true →
  iteration cur s =
    Some (Break,
          set_terminate_search true
            (set_states_explored (states_explored s + 1) s)).
Proof. intros H. unfold worker_iteration. by rewrite H. Qed.

Lemma worker_iteration_pruned cur s :
  time_limit_reached time_limit_seconds elapsed = false →
  is_pruned num_solutions_to_find cur s = true →
  iteration cur s =
    Some (Continue, set_states_explored (states_explored s + 1) s).
Proof.
  intros Ht Hp. unfold worker_iteration. rewrite Ht.
  unfold is_pruned in *. simpl. by rewrite Hp.
Qed.

Lemma worker_iteration_stale cur s :
  time_limit_reached time_limit_seconds elapsed = false →
  is_stale cur s = true →
  iteration cur s =
    Some (Continue, set_states_explored (states_explored s + 1) s).
Proof.
  intros Ht Hs. unfold worker_iteration. rewrite Ht.
  destruct (is_pruned _ _ _); [done|].
  unfold is_stale in *. simpl. by rewrite Hs.
Qed.

Lemma size_ge_spec (n : nat) :
  0 <= num_solutions_to_find < 2 ^ 64 →
  size_ge n num_solutions_to_find = true ↔ num_solutions_to_find <= Z.of_nat n.
Proof.
  intros HK. unfold size_ge. rewrite Z.mod_small by done.
  rewrite Z.geb_leb, Z.leb_le. lia.
Qed.

Lemma nth_best_cost_few (found : list Solution) :
  0 <= num_solutions_to_find < 2 ^ 64 →
  Z.of_nat (length found) < num_solutions_to_find →
  nth_best_cost num_solutions_to_find found = -1.
Proof.
  intros HK Hlen. unfold nth_best_cost.
  destruct (size_ge _ _) eqn:E; [|done].
  apply size_ge_spec in E; [lia|done].
Qed.

Lemma nth_best_cost_enough (found : list Solution) :
  1 <= num_solutions_to_find < 2 ^ 64 →
  num_solutions_to_find <= Z.of_nat (length found) →
  ∃ kth, found !! Z.to_nat (num_solutions_to_find - 1) = Some kth
         ∧ nth_best_cost num_solutions_to_find found = cost kth.
Proof.
  intros HK Hlen. unfold nth_best_cost.
  destruct (lookup_lt_is_Some_2 found (Z.to_nat (num_solutions_to_find - 1)))
    as [kth Hkth]; [lia|].
  exists kth. split; [done|]. rewrite Hkth.
  destruct (size_ge _ _) eqn:E; [done|].
  apply not_true_iff_false in E. rewrite size_ge_spec in E; lia.
Qed.

(** *** Relaxation and the cost table *)

Lemma relax_g_costs cur s n k g :
  g_costs s !! k = Some g →
  ∃ g', g_costs (relax cur s n) !! k = Some g' ∧ g' <= g
        ∧ (g' < g → g' = g_cost cur + 1
                    ∧ came_from (relax cur s n) !! k = Some (board cur))
        ∧ (g' = g → came_from (relax cur s n) !! k = came_from s !! k).
Proof.
  intros Hk. unfold relax.
  destruct (g_costs s !! tiles n) as [stored|] eqn:En.
  - destruct (Z.ltb_spec (g_cost cur + 1) stored) as [Hlt|Hge].
    + simpl. destruct (decide (tiles n = k)) as [<-|Hne].
      * rewrite !lookup_insert_eq. exists (g_cost cur + 1).
        assert (stored = g) as -> by congruence.
        split_and!; [done|lia|done|lia].
      * rewrite !lookup_insert_ne by done. exists g.
        split_and!; [done|lia|lia|done].
    + exists g. split_and!; [done|lia|lia|done].
  - simpl. assert (tiles n ≠ k) as Hne by congruence.
    rewrite lookup_insert_ne by done. exists g.
    split_and!; [done|lia|lia|].
    intros _. unfold emplace. destruct (came_from s !! tiles n); [done|].
    by rewrite lookup_insert_ne.
Qed.


Lemma collect_solution_tables cur s s' :
  collect_solution fuel num_solutions_to_find initial_board cur s = Some s' →
  g_costs s' = g_costs s ∧ came_from s' = came_from s
  ∧ open_set s' = open_set s.
Proof.
  unfold collect_solution. destruct (reconstruct_path _ _ _ _); [|done].
  intros [= <-]. by destruct (size_ge _ _).
Qed.

(** Whatever branch a pass takes, it ends in one of these shapes. *)
Lemma worker_iteration_cases cur s ctl s' :
  iteration cur s = Some (ctl, s') →
  let s1 := set_states_explored (states_explored s + 1) s in
  (ctl = Break ∧ s' = set_terminate_search true s1)
  ∨ (ctl = Continue ∧ s' = s1)
  ∨ (ctl = Continue ∧ is_goal (board cur) = true ∧
     collect_solution fuel num_solutions_to_find initial_board cur s1 = Some s')
  ∨ (ctl = Continue ∧ is_stale cur s = false ∧ s' = expand type cur s1).
Proof.
  intros H s1. unfold worker_iteration in H. fold s1 in H.
  destruct (time_limit_reached _ _); [left; by injection H as <- <-|].
  destruct (is_pruned _ _ s1); [right; left; by injection H as <- <-|].
  destruct (is_stale cur s1) eqn:Es; [right; left; by injection H as <- <-|].
  destruct (is_goal _) eqn:Eg.
  - right; right; left.
    destruct (collect_solution _ _ _ _ _) as [s2|]; [|done].
    by injection H as <- <-.
  - right; right; right. by injection H as <- <-.
Qed.

End Iteration.

Section CostTable.

Context (type : SolveType) (K : Z) (initial_board : Board)
  (time_limit_seconds : Z).



End CostTable.



(** **** Claim C5, as amended.  When the cost table holds a strictly
    smaller [g] for the board of the popped state, the pass runs no goal
    check and no expansion: frontier, cost table, parent map and solution
    set are left as they are and the explored counter goes up by one.
    Unless the time budget is found exhausted the stop flag is left alone
    and the loop goes on; when it is, the stop flag is set and the worker
    leaves the loop. *)
Theorem stale_state_discarded (fuel : nat) (type : SolveType)
    (num_solutions_to_find : Z) (initial_board : Board)
    (time_limit_seconds elapsed : Z) (cur : State) (s : PuzzleSolver)
    (stored : Z) :
  g_costs s !! tiles (board cur) = Some stored →
  stored < g_cost cur →
  ∃ ctl s',
    worker_iteration fuel type num_solutions_to_find initial_board
      time_limit_seconds elapsed cur s = Some (ctl, s')
    ∧ open_set s' = open_set s
    ∧ g_costs s' = g_costs s
    ∧ came_from s' = came_from s
    ∧ found_solutions s' = found_solutions s
    ∧ states_explored s' = states_explored s + 1
    ∧ (if time_limit_reached time_limit_seconds elapsed
       then ctl = Break ∧ terminate_search s' = true
       else ctl = Continue ∧ terminate_search s' = terminate_search s).
Proof.
  intros Hk Hlt.
  destruct (time_limit_reached time_limit_seconds elapsed) eqn:Et.
  - exists Break, (set_terminate_search true
                     (set_states_explored (states_explored s + 1) s)).
    split; [by apply worker_iteration_time_limit|]. simpl. by split_and!.
  - exists Continue, (set_states_explored (states_explored s + 1) s).
    split; [|simpl; by split_and!].
    apply worker_iteration_stale; [done|].
    unfold is_stale. rewrite Hk. rewrite Z.gtb_ltb. by apply Z.ltb_lt.
Qed.

Lemma stale_state_discarded_witness :
  ∃ ctl s',
    worker_iteration 0 AdjacentSwap 1 board_2x2 0 0
      (new_State board_2x2 4 2) solver_with_cheaper_g = Some (ctl, s')
    ∧ g_costs s' = g_costs solver_with_cheaper_g
    ∧ states_explored s' = 8.
Proof.
  destruct (stale_state_discarded 0 AdjacentSwap 1 board_2x2 0 0
              (new_State board_2x2 4 2) solver_with_cheaper_g 3)
    as (ctl & s' & Hit & _ & Hg & _ & _ & He & _).
  - reflexivity.
  - simpl. lia.
  - exists ctl, s'. split; [exact Hit|]. split; [exact Hg|exact He].
Defined.

(** Pruning, as long as no collected cost is negative ([-1] is what the
    source uses for "fewer than [K] solutions"). *)
Lemma is_pruned_spec (fuel : nat) (type : SolveType)
    (K : Z) (initial_board : Board) (time_limit_seconds elapsed : Z)
    (cur : State) (s : PuzzleSolver) :
  1 <= K < 2 ^ 64 →
  Forall (fun sol => 0 <= cost sol) (found_solutions s) →
  (time_limit_reached time_limit_seconds elapsed = true →
     worker_iteration fuel type K initial_board time_limit_seconds elapsed
       cur s
     = Some (Break,
             set_terminate_search true
               (set_states_explored (states_explored s + 1) s)))
  ∧ (time_limit_reached time_limit_seconds elapsed = false →
     (K <= Z.of_nat (length (found_solutions s)) →
        ∃ kth, found_solutions s !! Z.to_nat (K - 1) = Some kth
               ∧ is_pruned K cur s = bool_decide (cost kth <= f_cost cur)
               ∧ (cost kth <= f_cost cur →
                  discards_and_continues fuel type K initial_board
                    time_limit_seconds elapsed cur s))
     ∧ (Z.of_nat (length (found_solutions s)) < K →
        is_pruned K cur s = false)).
Proof.
  intros HK Hcost. split; [apply worker_iteration_time_limit|].
  intros Ht. split.
  - intros Hlen.
    destruct (nth_best_cost_enough K (found_solutions s) HK Hlen)
      as (kth & Hkth & Hnth).
    assert (0 <= cost kth) as Hk0.
    { eapply Forall_forall in Hcost; [exact Hcost|].
      by eapply list_elem_of_lookup_2. }
    assert (is_pruned K cur s = bool_decide (cost kth <= f_cost cur)) as Hp.
    { unfold is_pruned. rewrite Hnth.
      destruct (Z.eqb_spec (cost kth) (-1)); [lia|]. simpl.
      rewrite Z.geb_leb. destruct (Z.leb_spec (cost kth) (f_cost cur)).
      - by rewrite bool_decide_eq_true_2.
      - by rewrite bool_decide_eq_false_2 by lia. }
    exists kth. split_and!; [done..|].
    intros Hle. apply worker_iteration_pruned; [done|].
    change (is_pruned K cur s = true). rewrite Hp.
    by apply bool_decide_eq_true.
  - intros Hlen. unfold is_pruned.
    rewrite nth_best_cost_few by lia. done.
Qed.


(** * The order of the solution set *)

Section Lexicographic.

Context {A : Type} (ltb : A → A → bool).
Hypothesis ltb_irrefl : ∀ x, ltb x x = false.
Hypothesis ltb_trans : ∀ x y z, ltb x y = true → ltb y z = true → ltb x z = true.
Hypothesis ltb_total : ∀ x y, ltb x y = false → ltb y x = false → x = y.

Lemma lexicographical_compare_irrefl (a : list A) :
  lexicographical_compare ltb a a = false.
Proof. induction a as [|x a IH]; simpl; [done|]. by rewrite ltb_irrefl. Qed.

Lemma lexicographical_compare_trans (a b c : list A) :
  lexicographical_compare ltb a b = true →
  lexicographical_compare ltb b c = true →
  lexicographical_compare ltb a c = true.
Proof.
  revert b c. induction a as [|x a IH]; intros [|y b] [|z c]; simpl;
    try done.
  destruct (ltb x y) eqn:Exy.
  - intros _. destruct (ltb y z) eqn:Eyz.
    + by rewrite (ltb_trans x y z).
    + destruct (ltb z y) eqn:Ezy; [done|].
      by rewrite <- (ltb_total y z), Exy.
  - destruct (ltb y x) eqn:Eyx; [done|].
    rewrite (ltb_total x y) by done. intros Hab.
    destruct (ltb y z); [done|]. destruct (ltb z y); [done|]. by apply IH.
Qed.

Lemma lexicographical_compare_total (a b : list A) :
  lexicographical_compare ltb a b = false →
  lexicographical_compare ltb b a = false → a = b.
Proof.
  revert b. induction a as [|x a IH]; intros [|y b]; simpl; try done.
  destruct (ltb x y) eqn:Exy; [done|].
  destruct (ltb y x) eqn:Eyx; [done|].
  intros Hab Hba. f_equal; [by apply ltb_total|by apply IH].
Qed.

End Lexicographic.

Section SolutionOrder.

Implicit Types (a b c : Solution) (p q : list Board).

Lemma lexicographical_compare_fmap {A B : Type} (f : A → B)
    (ltb : B → B → bool) (ltb' : A → A → bool) (a b : list A) :
  (∀ x y, ltb' x y = ltb (f x) (f y)) →
  lexicographical_compare ltb' a b
  = lexicographical_compare ltb (f <$> a) (f <$> b).
Proof.
  intros H. revert b. induction a as [|x a IH]; intros [|y b]; simpl;
    try done.
  by rewrite !H, IH.
Qed.

Lemma Zltb_total (x y : Z) : (x <? y) = false → (y <? x) = false → x = y.
Proof. rewrite !Z.ltb_ge. lia. Qed.

Lemma Zltb_trans (x y z : Z) :
  (x <? y) = true → (y <? z) = true → (x <? z) = true.
Proof. rewrite !Z.ltb_lt. lia. Qed.

Lemma Board_ltb_key (x y : Board) :
  Board_ltb x y = tiles_ltb (board_key x) (board_key y).
Proof.
  unfold Board_ltb, tiles_ltb, board_key. simpl.
  destruct (Z.ltb_spec (N x) (N y)), (Z.ltb_spec (N y) (N x)),
    (Z.eqb_spec (N x) (N y)); try lia; simpl; try done.
  destruct (Z.ltb_spec (M x) (M y)), (Z.ltb_spec (M y) (M x)),
    (Z.eqb_spec (M x) (M y)); try lia; done.
Qed.

Lemma path_ltb_key p q :
  path_ltb p q
  = lexicographical_compare tiles_ltb (board_key <$> p) (board_key <$> q).
Proof. apply lexicographical_compare_fmap, Board_ltb_key. Qed.

Lemma path_ltb_irrefl p : path_ltb p p = false.
Proof.
  rewrite path_ltb_key. apply lexicographical_compare_irrefl.
  intros t. apply lexicographical_compare_irrefl, Z.ltb_irrefl.
Qed.

Lemma tiles_ltb_trans (x y z : list Z) :
  tiles_ltb x y = true → tiles_ltb y z = true → tiles_ltb x z = true.
Proof.
  apply lexicographical_compare_trans; [apply Zltb_trans|apply Zltb_total].
Qed.

Lemma tiles_ltb_total (x y : list Z) :
  tiles_ltb x y = false → tiles_ltb y x = false → x = y.
Proof. apply lexicographical_compare_total, Zltb_total. Qed.

Lemma path_ltb_trans p q r :
  path_ltb p q = true → path_ltb q r = true → path_ltb p r = true.
Proof.
  rewrite !path_ltb_key.
  apply lexicographical_compare_trans; [apply tiles_ltb_trans|apply tiles_ltb_total].
Qed.

Lemma path_ltb_total p q :
  path_ltb p q = false → path_ltb q p = false →
  board_key <$> p = board_key <$> q.
Proof.
  rewrite !path_ltb_key.
  apply lexicographical_compare_total, tiles_ltb_total.
Qed.

Lemma Solution_lt_spec a b :
  Solution_lt a b ↔
  cost a < cost b ∨ (cost a = cost b ∧ path_ltb (path a) (path b) = true).
Proof.
  unfold Solution_lt, Solution_ltb.
  destruct (Z.eqb_spec (cost a) (cost b)); simpl; [|rewrite Z.ltb_lt];
    intuition lia.
Qed.

Lemma Solution_lt_irrefl a : ¬ Solution_lt a a.
Proof. rewrite Solution_lt_spec, path_ltb_irrefl. intuition (lia || done). Qed.

#[local] Instance Solution_lt_trans : Transitive Solution_lt.
Proof.
  intros a b c. rewrite !Solution_lt_spec.
  intros [?|[? Hab]] [?|[? Hbc]]; try lia.
  right. split; [lia|]. by eapply path_ltb_trans.
Qed.

(** Two solutions that [operator<] cannot tell apart have the same cost
    and, board for board, the same dimensions and tiles. *)
Lemma Solution_ltb_equiv a b :
  Solution_ltb a b = false → Solution_ltb b a = false →
  cost a = cost b ∧ board_key <$> path a = board_key <$> path b.
Proof.
  unfold Solution_ltb.
  destruct (Z.eqb_spec (cost a) (cost b)) as [E|E]; simpl.
  - rewrite E, Z.eqb_refl. simpl. intros ??. split; [done|].
    by apply path_ltb_total.
  - destruct (Z.eqb_spec (cost b) (cost a)); [lia|]. simpl.
    rewrite !Z.ltb_ge. lia.
Qed.

Lemma set_insert_HdRel x y s :
  Solution_lt y x → HdRel Solution_lt y s → HdRel Solution_lt y (set_insert x s).
Proof.
  intros Hyx Hs. destruct s as [|z s]; simpl; [by constructor|].
  inversion_clear Hs.
  destruct (Solution_ltb x z); [by constructor|].
  destruct (Solution_ltb z x); by constructor.
Qed.

Lemma set_insert_Sorted x s :
  Sorted Solution_lt s → Sorted Solution_lt (set_insert x s).
Proof.
  induction 1 as [|y s Hs IH Hhd]; simpl; [by repeat constructor|].
  destruct (Solution_ltb x y) eqn:Exy.
  - constructor; [by constructor|]. by constructor.
  - destruct (Solution_ltb y x) eqn:Eyx; [|by constructor].
    constructor; [done|]. by apply set_insert_HdRel.
Qed.

Lemma elem_of_set_insert x s sol :
  sol ∈ set_insert x s → sol = x ∨ sol ∈ s.
Proof.
  induction s as [|y s IH]; simpl.
  - intros ->%list_elem_of_singleton. by left.
  - destruct (Solution_ltb x y).
    + intros [->|?]%elem_of_cons; [by left|by right].
    + destruct (Solution_ltb y x); [|by right].
      intros [->|[->|?]%IH]%elem_of_cons.
      * right. by left.
      * by left.
      * right. by right.
Qed.

Lemma extract_solutions_take (K count : Z) (found : list Solution) :
  extract_solutions K count found = take (Z.to_nat (K - count)) found.
Proof.
  revert count. induction found as [|sol found IH]; intros count; simpl.
  - by rewrite take_nil.
  - rewrite Z.geb_leb. destruct (Z.leb_spec K count).
    + by replace (Z.to_nat (K - count)) with 0%nat by lia.
    + rewrite IH.
      replace (Z.to_nat (K - count)) with (S (Z.to_nat (K - (count + 1))))
        by lia.
      done.
Qed.

End SolutionOrder.

(** * What the search maintains *)

Section Neighbors.

Implicit Types (b n : Board) (d : Direction).

Lemma block_shift_loop_dims b d : ∀ (m : nat) cur r c acc n,
  cells_ahead b d r c = m →
  n ∈ block_shift_loop b d cur r c acc →
  n ∈ acc ∨ (N n = N cur ∧ M n = M cur).
Proof.
  induction m as [m IH] using lt_wf_ind. intros cur r c acc n Hm.
  rewrite block_shift_loop_eq. destruct (in_bounds b r c) eqn:Hin; [|by left].
  cbv zeta. intros Hn.
  eapply IH in Hn; [| |done].
  - destruct Hn as [[?| ->%list_elem_of_singleton]%elem_of_app|Hn].
    + by left.
    + by right.
    + by right.
  - subst m. apply in_bounds_spec in Hin. unfold cells_ahead.
    destruct d; simpl; lia.
Qed.

Lemma get_neighbors_dims type b n :
  n ∈ get_neighbors type b → same_dims n b.
Proof.
  destruct type; simpl.
  - intros (d & _ & ->)%elem_of_adjacent_swap. done.
  - unfold get_neighbors_block_shift, directions, block_shift_step.
    cbn [foldl]. intros Hn.
    repeat match type of Hn with
           | _ ∈ block_shift_loop _ _ _ _ _ _ =>
               eapply block_shift_loop_dims in Hn as [Hn|Hn]; [| |done]
           end; try done.
    by apply elem_of_nil in Hn.
Qed.

End Neighbors.

Section Relax.

Context (type : SolveType) (initial_board : Board).

Implicit Types (s : PuzzleSolver) (cur st : State) (n : Board)
  (extra : list State).

Lemma relax_preserves extra cur s n :
  relax_inv type initial_board extra s → cur ∈ extra →
  n ∈ get_neighbors type (board cur) →
  relax_inv type initial_board extra (relax cur s n).
Proof.
  intros [Ht Hst] Hcur Hn.
  assert (state_ok initial_board s cur) as ((gc & Hgc & Hle) & Hdims & Hinit).
  { eapply Forall_forall; [exact Hst|]. apply elem_of_app. by right. }
  destruct Ht as [Hig Hip Hlink Hentry].
  destruct (Hentry _ _ Hgc) as [Hgc0 _].
  pose proof (get_neighbors_dims _ _ _ Hn) as Hnd.
  unfold relax.
  destruct (g_costs s !! tiles n) as [stored|] eqn:En.
  - destruct (Z.ltb_spec (g_cost cur + 1) stored) as [Hlt|Hge]; [|done].
    assert (tiles n ≠ tiles initial_board) as Hni
      by (intros E; rewrite E, Hig in En; injection En as <-; lia).
    assert (tiles n ≠ tiles (board cur)) as Hnc
      by (intros E; rewrite E, Hgc in En; injection En as <-; lia).
    split; [split|]; simpl.
    + by rewrite lookup_insert_ne.
    + by rewrite lookup_insert_ne.
    + intros k p. destruct (decide (tiles n = k)) as [<-|Hne].
      * rewrite lookup_insert_eq. intros [= <-].
        exists (g_cost cur + 1), gc. rewrite lookup_insert_eq.
        rewrite lookup_insert_ne by done. split_and!; [done|done|lia|by exists n|done].
      * rewrite lookup_insert_ne by done. intros Hp.
        destruct (Hlink _ _ Hp) as (gk & gp & Hgk & Hgp & Hlt' & Hnb & Hpi).
        rewrite lookup_insert_ne by done.
        destruct (decide (tiles n = tiles p)) as [E|Hnp].
        -- exists gk, (g_cost cur + 1).
           rewrite <- E, En in Hgp. injection Hgp as <-.
           split_and!; [done|by rewrite <- E, lookup_insert_eq|lia|done|done].
        -- exists gk, gp. rewrite lookup_insert_ne by done. done.
    + intros k g. destruct (decide (tiles n = k)) as [<-|Hne].
      * rewrite !lookup_insert_eq. intros [= <-]. split; [lia|by right].
      * rewrite !lookup_insert_ne by done. apply Hentry.
    + constructor.
      * split_and!; simpl.
        -- exists (g_cost cur + 1). by rewrite lookup_insert_eq.
        -- destruct Hnd, Hdims. split; congruence.
        -- by right.
      * eapply Forall_impl; [exact Hst|].
        intros st ((g & Hg & Hgle) & ? & ?). split_and!; [|done..].
        simpl. destruct (decide (tiles n = tiles (board st))) as [E|Hne].
        -- exists (g_cost cur + 1).
           rewrite <- E, En in Hg. injection Hg as <-.
           split; [by rewrite <- E, lookup_insert_eq|lia].
        -- exists g. by rewrite lookup_insert_ne.
  - assert (came_from s !! tiles n = None) as Hcn.
    { destruct (came_from s !! tiles n) as [p|] eqn:Ep; [|done].
      destruct (Hlink _ _ Ep) as (gk & _ & Hgk & _). congruence. }
    assert (tiles n ≠ tiles initial_board) as Hni by congruence.
    assert (tiles n ≠ tiles (board cur)) as Hnc by congruence.
    unfold emplace. rewrite Hcn.
    split; [split|]; simpl.
    + by rewrite lookup_insert_ne.
    + by rewrite lookup_insert_ne.
    + intros k p. destruct (decide (tiles n = k)) as [<-|Hne].
      * rewrite lookup_insert_eq. intros [= <-].
        exists (g_cost cur + 1), gc. rewrite lookup_insert_eq.
        rewrite lookup_insert_ne by done. split_and!; [done|done|lia|by exists n|done].
      * rewrite lookup_insert_ne by done. intros Hp.
        destruct (Hlink _ _ Hp) as (gk & gp & Hgk & Hgp & Hlt' & Hnb & Hpi).
        exists gk, gp. rewrite !lookup_insert_ne by congruence. done.
    + intros k g. destruct (decide (tiles n = k)) as [<-|Hne].
      * rewrite !lookup_insert_eq. intros [= <-]. split; [lia|by right].
      * rewrite !lookup_insert_ne by done. apply Hentry.
    + constructor.
      * split_and!; simpl.
        -- exists (g_cost cur + 1). by rewrite lookup_insert_eq.
        -- destruct Hnd, Hdims. split; congruence.
        -- by right.
      * eapply Forall_impl; [exact Hst|].
        intros st ((g & Hg & Hgle) & ? & ?). split_and!; [|done..].
        simpl. exists g. by rewrite lookup_insert_ne by congruence.
Qed.

Lemma expand_preserves extra cur s :
  relax_inv type initial_board extra s → cur ∈ extra → relax_inv type initial_board extra (expand type cur s).
Proof.
  intros Hinv Hcur. unfold expand.
  assert (∀ ns, (∀ n, n ∈ ns → n ∈ get_neighbors type (board cur)) →
                relax_inv type initial_board extra (foldl (relax cur) s ns)) as H.
  { induction ns as [|n ns IH] using rev_ind; intros Hns; [done|].
    rewrite foldl_snoc. apply relax_preserves; [|done|].
    - apply IH. intros n' Hn'. apply Hns, elem_of_app. by left.
    - apply Hns, elem_of_app. right. by apply list_elem_of_singleton. }
  by apply H.
Qed.

End Relax.

(** * Path reconstruction *)

Section Reconstruct.

Context (parents : gmap (list Z) Board) (initial_board : Board).

Implicit Types (current : Board) (chain path acc : list Board).

Lemma reconstruct_loop_chain fuel : ∀ current acc path,
  reconstruct_loop fuel parents initial_board current acc = Some path →
  ∃ chain, path = acc ++ chain
           ∧ parent_chain parents initial_board current chain.
Proof.
  induction fuel as [|fuel IH]; intros current acc path; simpl; [done|].
  destruct (Board_eqb current initial_board) eqn:Eb.
  - intros [= <-]. exists []. rewrite app_nil_r. split; [done|].
    by constructor.
  - destruct (parents !! tiles current) as [parent|] eqn:Ep.
    + intros (chain & -> & Hc)%IH. exists (current :: chain).
      rewrite <- app_assoc. split; [done|]. by econstructor.
    + intros [= <-]. exists [current]. split; [done|]. by constructor.
Qed.



End Reconstruct.




(** * The invariant of the search *)

Section Steps.

Context (type : SolveType) (K : Z) (initial_board : Board)
  (time_limit_seconds : Z).

Implicit Types (s : PuzzleSolver) (cur st : State) (ws : list WorkerState)
  (w : WorkerState).

Lemma tables_ok_ext s s' :
  g_costs s' = g_costs s → came_from s' = came_from s →
  tables_ok type initial_board s → tables_ok type initial_board s'.
Proof.
  intros Hg Hp [Hig Hip Hlink Hentry].
  split.
  - by rewrite Hg.
  - by rewrite Hp.
  - intros k p. rewrite Hp, Hg. apply Hlink.
  - intros k g. rewrite Hg, Hp. apply Hentry.
Qed.

Lemma state_ok_ext s s' st :
  g_costs s' = g_costs s →
  state_ok initial_board s st → state_ok initial_board s' st.
Proof. intros Hg. unfold state_ok. by rewrite Hg. Qed.

Lemma held_states_lookup ws (t : nat) st :
  ws !! t = Some (Holding st) → st ∈ held_states ws.
Proof.
  intros Ht. unfold held_states. apply list_elem_of_bind.
  exists (Holding st). split; [by apply list_elem_of_singleton|].
  by eapply list_elem_of_lookup_2.
Qed.

Lemma held_states_insert ws (t : nat) w' st :
  st ∈ held_states (<[t := w']> ws) → st ∈ held_states ws ∨ w' = Holding st.
Proof.
  unfold held_states. rewrite !list_elem_of_bind.
  intros (w & Hst & Hw).
  apply list_elem_of_lookup in Hw as [i Hi].
  destruct (decide (i = t)) as [->|Hne].
  - destruct (decide (t < length ws)%nat).
    + rewrite list_lookup_insert_eq in Hi by done. injection Hi as <-.
      right. destruct w'; try by apply elem_of_nil in Hst.
      by apply list_elem_of_singleton in Hst as ->.
    + rewrite list_insert_ge in Hi by lia. left. exists w.
      split; [done|]. by eapply list_elem_of_lookup_2.
  - rewrite list_lookup_insert_ne in Hi by done. left. exists w.
    split; [done|]. by eapply list_elem_of_lookup_2.
Qed.

(** The boards of a finished walk, read as a path. *)
Lemma parent_chain_ok s current chain :
  tables_ok type initial_board s →
  parent_chain (came_from s) initial_board current chain →
  ∀ g suffix,
    g_costs s !! tiles current = Some g →
    (current = initial_board ∨ tiles current ≠ tiles initial_board) →
    moves_ok type (current :: suffix) →
    moves_ok type (initial_board :: reverse chain ++ suffix)
    ∧ Z.of_nat (length chain) <= g
    ∧ match chain with
      | [] => current = initial_board
      | first :: _ => first = current
      end.
Proof.
  intros [Hig Hip Hlink Hentry].
  induction 1 as [current Eb|current Eb Ep|current parent rest Eb Ep _ IH];
    intros g suffix Hg Hinit Hmoves.
  - apply bool_decide_eq_true in Eb.
    destruct Hinit as [->|?]; [|done].
    destruct (Hentry _ _ Hg) as [? _]. simpl. split_and!; [done|lia|done].
  - apply bool_decide_eq_false in Eb.
    destruct (Hentry _ _ Hg) as [_ [?|[? ?]]]; congruence.
  - destruct (Hlink _ _ Ep) as (gk & gp & Hgk & Hgp & Hlt & Hnb & Hpi).
    assert (gk = g) as -> by congruence.
    destruct (IH gp (current :: suffix) Hgp Hpi) as (Hm & Hlen & _).
    { split; [exact Hnb|exact Hmoves]. }
    rewrite reverse_cons, <- app_assoc. simpl.
    split_and!; [done|lia|done].
Qed.

Lemma reconstruct_path_ok fuel s cur path :
  tables_ok type initial_board s →
  state_ok initial_board s cur →
  is_goal (board cur) = true →
  reconstruct_path fuel (came_from s) (board cur) initial_board = Some path →
  solution_ok type initial_board (mkSolution (g_cost cur) path).
Proof.
  intros Ht ((g & Hg & Hle) & Hdims & Hinit) Hgoal. unfold reconstruct_path.
  destruct (reconstruct_loop _ _ _ _ _) as [walked|] eqn:Ew; [|done].
  intros [= <-].
  apply reconstruct_loop_chain in Ew as (chain & -> & Hc). simpl in *.
  destruct (parent_chain_ok s _ _ Ht Hc g [] Hg Hinit I) as (Hm & Hlen & Hhd).
  rewrite app_nil_r in Hm. rewrite reverse_snoc.
  unfold solution_ok. simpl. split_and!; [done| |done|].
  - destruct chain as [|first rest].
    + exists initial_board. split; [done|]. by rewrite <- Hhd.
    + subst first. exists (board cur). split; [|done].
      rewrite reverse_cons, app_comm_cons. apply last_snoc.
  - rewrite length_reverse. lia.
Qed.

Lemma collect_solution_inv fuel s cur s' :
  tables_ok type initial_board s →
  state_ok initial_board s cur →
  is_goal (board cur) = true →
  Sorted Solution_lt (found_solutions s) →
  Forall (solution_ok type initial_board) (found_solutions s) →
  collect_solution fuel K initial_board cur s = Some s' →
  Sorted Solution_lt (found_solutions s')
  ∧ Forall (solution_ok type initial_board) (found_solutions s').
Proof.
  intros Ht Hst Hgoal Hsorted Hok. unfold collect_solution.
  destruct (reconstruct_path _ _ _ _) as [path|] eqn:Ep; [|done].
  intros [= <-].
  assert (found_solutions
            (if size_ge
                  (length (set_insert (mkSolution (g_cost cur) path)
                             (found_solutions s))) K
             then set_terminate_search true
                    (set_found_solutions
                       (set_insert (mkSolution (g_cost cur) path)
                          (found_solutions s)) s)
             else set_found_solutions
                    (set_insert (mkSolution (g_cost cur) path)
                       (found_solutions s)) s)
          = set_insert (mkSolution (g_cost cur) path) (found_solutions s))
    as -> by (by destruct (size_ge _ _)).
  split; [by apply set_insert_Sorted|].
  apply Forall_forall. intros sol [->|Hsol]%elem_of_set_insert.
  - by eapply reconstruct_path_ok.
  - by eapply Forall_forall in Hok.
Qed.

Lemma Forall_held_insert (P : State → Prop) ws (t : nat) w' q :
  Forall P (q ++ held_states ws) →
  (∀ st, w' = Holding st → P st) →
  Forall P (q ++ held_states (<[t := w']> ws)).
Proof.
  rewrite !Forall_app. intros [Hq Hh] Hw. split; [done|].
  apply Forall_forall. intros st [Hst| ->]%held_states_insert.
  - by eapply Forall_forall in Hh.
  - by apply Hw.
Qed.

Lemma relax_found_solutions cur (ns : list Board) : ∀ s,
  found_solutions (foldl (relax cur) s ns) = found_solutions s.
Proof.
  induction ns as [|n ns IH] using rev_ind; intros s; [done|].
  rewrite foldl_snoc. unfold relax at 1.
  destruct (g_costs _ !! _); [destruct (_ <? _)|]; simpl; apply IH.
Qed.

(** A step that leaves the two tables and the solution set alone. *)
Lemma search_inv_frame ws s (t : nat) w' s' :
  search_inv type initial_board (ws, s) →
  g_costs s' = g_costs s → came_from s' = came_from s →
  found_solutions s' = found_solutions s →
  Forall (state_ok initial_board s) (open_set s') →
  (∀ st, w' = Holding st → state_ok initial_board s st) →
  search_inv type initial_board (<[t := w']> ws, s').
Proof.
  intros [Ht Hst Hsorted Hok] Hg Hp Hf Hq Hw. simpl in *.
  apply Forall_app in Hst as [_ Hh].
  split; simpl.
  - by apply (tables_ok_ext s).
  - apply Forall_held_insert.
    + apply Forall_app. split.
      * eapply Forall_impl; [exact Hq|]. intros st. by apply (state_ok_ext s).
      * eapply Forall_impl; [exact Hh|]. intros st. by apply (state_ok_ext s).
    + intros st Hst. by apply (state_ok_ext s), Hw.
  - by rewrite Hf.
  - by rewrite Hf.
Qed.

Lemma pool_step_inv c c' :
  search_inv type initial_board c →
  pool_step type K initial_board time_limit_seconds c c' →
  search_inv type initial_board c'.
Proof.
  intros Hinv Hstep.
  destruct Hstep as [ws s t w w' s' fuel elapsed Hw Hws].
  pose proof Hinv as [Ht Hst Hsorted Hok]. simpl in *.
  pose proof Hst as [Hq Hh]%Forall_app.
  destruct w as [|cur|]; simpl in Hws.
  - (* the loop condition *)
    destruct (terminate_search s).
    { injection Hws as <- <-. by apply (search_inv_frame ws s). }
    destruct (try_pop (open_set s)) as [[cur rest]|] eqn:Epop.
    2:{ injection Hws as <- <-. by apply (search_inv_frame ws s). }
    injection Hws as <- <-.
    apply try_pop_spec in Epop as [HP _].
    rewrite HP in Hq. apply Forall_cons in Hq as [Hcur Hrest].
    apply (search_inv_frame ws s); try done. by intros st [= <-].
  - (* the loop body *)
    pose proof (held_states_lookup _ _ _ Hw) as Hcur.
    assert (state_ok initial_board s cur) as Hcurok
      by (by eapply Forall_forall in Hh).
    destruct (worker_iteration _ _ _ _ _ _ _ _) as [[ctl s2]|] eqn:Hit;
      [|done].
    assert (w' = match ctl with Break => Exited | Continue => Idle end
            ∧ s' = s2) as [-> ->] by (by destruct ctl; injection Hws as <- <-).
    assert (∀ (P : State → Prop) st,
              match ctl with Break => Exited | Continue => Idle end
              = Holding st → P st) as Hnone by (by destruct ctl).
    destruct (worker_iteration_cases _ _ _ _ _ _ _ _ _ _ Hit)
      as [[_ ->]|[[_ ->]|[(_&Hgoal&Hc)|(_&_&->)]]].
    + apply (search_inv_frame ws s); try done. apply Hnone.
    + apply (search_inv_frame ws s); try done. apply Hnone.
    + pose proof (collect_solution_tables _ _ _ _ _ _ Hc) as (Hg & Hp & Ho).
      simpl in Hg, Hp, Ho.
      eapply collect_solution_inv in Hc as [? ?];
        [|by apply (tables_ok_ext s)|by apply (state_ok_ext s)|done..].
      split; simpl; try done.
      * by apply (tables_ok_ext s).
      * apply Forall_held_insert; [|apply Hnone].
        rewrite Ho. eapply Forall_impl; [exact Hst|].
        intros st. by apply (state_ok_ext s).
    + destruct (expand_preserves type initial_board (held_states ws) cur
                  (set_states_explored (states_explored s + 1) s))
        as [Ht' Hst']; [|done|].
      { split; [by apply (tables_ok_ext s)|].
        eapply Forall_impl; [exact Hst|]. intros st. by apply (state_ok_ext s). }
      split; simpl.
      * done.
      * apply Forall_held_insert; [done|apply Hnone].
      * unfold expand. by rewrite relax_found_solutions.
      * unfold expand. by rewrite relax_found_solutions.
  - injection Hws as <- <-. by apply (search_inv_frame ws s).
Qed.

Lemma initial_solver_inv ws :
  held_states ws = [] →
  search_inv type initial_board (ws, initial_solver initial_board).
Proof.
  intros Hws. split; simpl.
  - split; simpl.
    + by rewrite lookup_singleton_eq.
    + done.
    + intros k p. by rewrite lookup_empty.
    + intros k g [<- <-]%lookup_singleton_Some. split; [lia|by left].
  - rewrite Hws. simpl. constructor; [|constructor]. split_and!; simpl.
    + exists 0. by rewrite lookup_singleton_eq.
    + done.
    + by left.
  - constructor.
  - constructor.
Qed.

Lemma held_states_replicate_Idle (n : nat) :
  held_states (replicate n Idle) = [].
Proof. induction n; [done|]. simpl. done. Qed.

Lemma reachable_inv num_threads c :
  reachable type K initial_board num_threads time_limit_seconds c →
  search_inv type initial_board c.
Proof.
  unfold reachable. intros Hr.
  eapply (rtc_ind_r (fun c => search_inv type initial_board c));
    [| |exact Hr].
  - apply initial_solver_inv, held_states_replicate_Idle.
  - intros c1 c2 _ Hstep IH. by eapply pool_step_inv.
Qed.

Lemma run_schedule_steps fuel clock schedule : ∀ ws s ws' s',
  run_schedule fuel type K initial_board time_limit_seconds clock schedule
    ws s = Some (ws', s') →
  rtc (pool_step type K initial_board time_limit_seconds) (ws, s) (ws', s').
Proof.
  induction schedule as [|t schedule IH]; intros ws s ws' s'; simpl.
  - by intros [= <- <-].
  - destruct (ws !! t) as [w|] eqn:Hw; [|done].
    destruct (worker_step _ _ _ _ _ _ _ _) as [[w' s1]|] eqn:Hs; [|done].
    intros Hrun%IH. eapply rtc_l; [|exact Hrun]. by econstructor.
Qed.

(** The loop of a single worker is a run of the pool with one worker. *)
Lemma worker_thread_func_steps clock fuel : ∀ s s',
  worker_thread_func fuel type K initial_board time_limit_seconds clock s
    = Some s' →
  rtc (pool_step type K initial_board time_limit_seconds)
    ([Idle], s) ([Exited], s').
Proof.
  induction fuel as [|fuel IH]; intros s s'; simpl; [done|].
  destruct (terminate_search s) eqn:Et.
  { intros [= <-]. apply rtc_once.
    apply (pool_step_worker _ _ _ _ [Idle] s 0 Idle Exited s 0%nat 0);
      [done|]. simpl. by rewrite Et. }
  destruct (try_pop (open_set s)) as [[cur rest]|] eqn:Epop.
  2:{ intros [= <-]. apply rtc_once.
      apply (pool_step_worker _ _ _ _ [Idle] s 0 Idle Exited s 0%nat 0);
        [done|]. simpl. by rewrite Et, Epop. }
  destruct (worker_iteration _ _ _ _ _ _ _ _) as [[ctl s1]|] eqn:Hit; [|done].
  intros Hrest.
  eapply rtc_l.
  { apply (pool_step_worker _ _ _ _ [Idle] s 0 Idle (Holding cur)
             (set_open_set rest s) 0%nat 0); [done|].
    simpl. by rewrite Et, Epop. }
  simpl. eapply rtc_l.
  { apply (pool_step_worker _ _ _ _ [Holding cur] (set_open_set rest s) 0
             (Holding cur)
             (match ctl with Break => Exited | Continue => Idle end) s1
             fuel (clock (states_explored s))); [done|].
    simpl. rewrite Hit. by destruct ctl. }
  simpl. destruct ctl.
  - by apply IH.
  - injection Hrest as <-. done.
Qed.

End Steps.

(** * Valid boards throughout the search *)

Section ValidBoards.

Context (type : SolveType) (K : Z) (initial_board : Board)
  (time_limit_seconds : Z).
Hypothesis initial_valid : valid_Board initial_board = true.

Implicit Types (s : PuzzleSolver) (cur st : State) (ws : list WorkerState)
  (b n p : Board).

(** On valid boards of the same size [operator==] is equality. *)
Lemma valid_Board_eq a b :
  valid_Board a = true → valid_Board b = true →
  same_dims a b → tiles a = tiles b → a = b.
Proof.
  intros Ha Hb [HN HM] Ht.
  pose proof (valid_Board_blank_idx b Hb) as Hib.
  pose proof Ha as (_&HMa&Hlena&_&[Hra Hca]&_)%valid_Board_spec.
  pose proof Hb as (_&_&Hlenb&_&[Hrb Hcb]&Hzb)%valid_Board_spec.
  assert (blank_idx b = blank_idx a) as Hidx.
  { apply valid_Board_zero_unique; [done| |by rewrite Ht].
    rewrite <- Hlena, Ht. lia. }
  unfold blank_idx in Hidx. rewrite <- HM in Hidx, Hcb.
  destruct (quot_rem_cell (M a) (empty_row a) (empty_col a)) as [Hq Hr];
    [lia..|].
  destruct (quot_rem_cell (M a) (empty_row b) (empty_col b)) as [Hq' Hr'];
    [lia..|].
  rewrite Hidx, Hq in Hq'. rewrite Hidx, Hr in Hr'.
  destruct a, b; simpl in *. by subst.
Qed.

Lemma get_neighbors_valid b n :
  valid_Board b = true → n ∈ get_neighbors type b → valid_Board n = true.
Proof.
  intros Hv. destruct type; simpl.
  - intros (d & Hd & ->)%elem_of_adjacent_swap.
    by apply adjacent_successor_valid.
  - pose proof Hv as (_&_&_&_&[Hr Hc]&_)%valid_Board_spec.
    rewrite get_neighbors_block_shift_shifted by done.
    rewrite !elem_of_app, !elem_of_block_shift_successors by done.
    intros [(j&?&->)|[(j&?&->)|[(j&?&->)|(j&?&->)]]];
      apply shifted_valid; (done || lia).
Qed.

Lemma get_neighbors_ok b n :
  board_ok initial_board b → n ∈ get_neighbors type b →
  board_ok initial_board n.
Proof.
  intros [Hv [HN HM]] Hn. split; [by eapply get_neighbors_valid|].
  destruct (get_neighbors_dims _ _ _ Hn). split; congruence.
Qed.

Lemma relax_boards_valid extra cur s n :
  Forall (fun st => board_ok initial_board (board st)) (open_set s ++ extra) →
  (∀ k p, came_from s !! k = Some p → board_ok initial_board p) →
  board_ok initial_board (board cur) →
  n ∈ get_neighbors type (board cur) →
  Forall (fun st => board_ok initial_board (board st))
    (open_set (relax cur s n) ++ extra)
  ∧ (∀ k p, came_from (relax cur s n) !! k = Some p →
            board_ok initial_board p).
Proof.
  intros Hst Hp Hcur Hn.
  pose proof (get_neighbors_ok _ _ Hcur Hn) as Hnok.
  unfold relax.
  destruct (g_costs s !! tiles n); [destruct (_ <? _)|]; simpl;
    try done; (split; [by constructor|]); intros k p.
  - destruct (decide (tiles n = k)) as [<-|?].
    + rewrite lookup_insert_eq. by intros [= <-].
    + rewrite lookup_insert_ne by done. apply Hp.
  - unfold emplace. destruct (came_from s !! tiles n); [apply Hp|].
    destruct (decide (tiles n = k)) as [<-|?].
    + rewrite lookup_insert_eq. by intros [= <-].
    + rewrite lookup_insert_ne by done. apply Hp.
Qed.

Lemma expand_boards_valid extra cur s :
  Forall (fun st => board_ok initial_board (board st)) (open_set s ++ extra) →
  (∀ k p, came_from s !! k = Some p → board_ok initial_board p) →
  board_ok initial_board (board cur) →
  Forall (fun st => board_ok initial_board (board st))
    (open_set (expand type cur s) ++ extra)
  ∧ (∀ k p, came_from (expand type cur s) !! k = Some p →
            board_ok initial_board p).
Proof.
  intros Hst Hp Hcur. unfold expand.
  assert (∀ ns, (∀ n, n ∈ ns → n ∈ get_neighbors type (board cur)) →
     Forall (fun st => board_ok initial_board (board st))
       (open_set (foldl (relax cur) s ns) ++ extra)
     ∧ (∀ k p, came_from (foldl (relax cur) s ns) !! k = Some p →
               board_ok initial_board p)) as H.
  { induction ns as [|n ns IH] using rev_ind; intros Hns; [done|].
    rewrite foldl_snoc. destruct IH as [IH1 IH2].
    { intros n' ?. apply Hns, elem_of_app. by left. }
    apply relax_boards_valid; [done..|].
    apply Hns, elem_of_app. right. by apply list_elem_of_singleton. }
  by apply H.
Qed.

Lemma parent_chain_boards parents current chain b :
  parent_chain parents initial_board current chain → b ∈ chain →
  b = current ∨ ∃ k, parents !! k = Some b.
Proof.
  induction 1 as [current Eb|current Eb Ep|current parent rest Eb Ep _ IH].
  - by intros ?%elem_of_nil.
  - intros ->%list_elem_of_singleton. by left.
  - intros [->|[->|?]%IH]%elem_of_cons; [by left|right; eauto|by right].
Qed.

Lemma collect_solution_found fuel cur s s' :
  collect_solution fuel K initial_board cur s = Some s' →
  ∃ path,
    reconstruct_path fuel (came_from s) (board cur) initial_board = Some path
    ∧ found_solutions s'
      = set_insert (mkSolution (g_cost cur) path) (found_solutions s).
Proof.
  unfold collect_solution.
  destruct (reconstruct_path _ _ _ _) as [path|]; [|done].
  intros [= <-]. exists path. split; [done|]. by destruct (size_ge _ _).
Qed.

Lemma reconstruct_path_boards fuel parents current path :
  board_ok initial_board current →
  (∀ k p, parents !! k = Some p → board_ok initial_board p) →
  reconstruct_path fuel parents current initial_board = Some path →
  Forall (board_ok initial_board) path.
Proof.
  intros Hcur Hp. unfold reconstruct_path.
  destruct (reconstruct_loop _ _ _ _ _) as [walked|] eqn:Ew; [|done].
  intros [= <-].
  apply reconstruct_loop_chain in Ew as (chain & -> & Hc). simpl.
  rewrite reverse_snoc. constructor; [by split|].
  apply Forall_forall. intros b Hb. rewrite elem_of_reverse in Hb.
  destruct (parent_chain_boards _ _ _ _ Hc Hb) as [->|[k Hk]]; [done|].
  by eapply Hp.
Qed.

Lemma boards_valid_frame ws s (t : nat) w' s' :
  boards_valid initial_board (ws, s) →
  came_from s' = came_from s → found_solutions s' = found_solutions s →
  Forall (fun st => board_ok initial_board (board st)) (open_set s') →
  (∀ st, w' = Holding st → board_ok initial_board (board st)) →
  boards_valid initial_board (<[t := w']> ws, s').
Proof.
  intros [Hst Hp Hf] Ec Ef Hq Hw. simpl in *.
  apply Forall_app in Hst as [_ Hh].
  split; simpl; rewrite ?Ec, ?Ef; try done.
  apply Forall_held_insert; [by apply Forall_app|done].
Qed.

Lemma pool_step_boards_valid c c' :
  boards_valid initial_board c →
  pool_step type K initial_board time_limit_seconds c c' →
  boards_valid initial_board c'.
Proof.
  intros Hinv Hstep.
  destruct Hstep as [ws s t w w' s' fuel elapsed Hw Hws].
  pose proof Hinv as [Hst Hp Hf]. simpl in *.
  pose proof Hst as [Hq Hh]%Forall_app.
  destruct w as [|cur|]; simpl in Hws.
  - destruct (terminate_search s).
    { injection Hws as <- <-. by apply (boards_valid_frame ws s). }
    destruct (try_pop (open_set s)) as [[cur rest]|] eqn:Epop.
    2:{ injection Hws as <- <-. by apply (boards_valid_frame ws s). }
    injection Hws as <- <-.
    apply try_pop_spec in Epop as [HP _].
    rewrite HP in Hq. apply Forall_cons in Hq as [Hcur Hrest].
    apply (boards_valid_frame ws s); try done. by intros st [= <-].
  - pose proof (held_states_lookup _ _ _ Hw) as Hcur.
    assert (board_ok initial_board (board cur)) as Hcurok
      by (by eapply Forall_forall in Hh).
    destruct (worker_iteration _ _ _ _ _ _ _ _) as [[ctl s2]|] eqn:Hit;
      [|done].
    assert (w' = match ctl with Break => Exited | Continue => Idle end
            ∧ s' = s2) as [-> ->] by (by destruct ctl; injection Hws as <- <-).
    assert (∀ (P : State → Prop) st,
              match ctl with Break => Exited | Continue => Idle end
              = Holding st → P st) as Hnone by (by destruct ctl).
    destruct (worker_iteration_cases _ _ _ _ _ _ _ _ _ _ Hit)
      as [[_ ->]|[[_ ->]|[(_&Hgoal&Hc)|(_&_&->)]]].
    + apply (boards_valid_frame ws s); try done. apply Hnone.
    + apply (boards_valid_frame ws s); try done. apply Hnone.
    + pose proof (collect_solution_tables _ _ _ _ _ _ Hc) as (_ & Ep & Eo).
      apply collect_solution_found in Hc as (path & Hpath & Efound).
      simpl in Ep, Eo, Hpath.
      split; simpl.
      * rewrite Eo. apply Forall_held_insert; [done|apply Hnone].
      * by rewrite Ep.
      * rewrite Efound. apply Forall_forall.
        intros sol [->|Hsol]%elem_of_set_insert.
        -- simpl. by eapply reconstruct_path_boards.
        -- by eapply Forall_forall in Hf.
    + destruct (expand_boards_valid (held_states ws) cur
                  (set_states_explored (states_explored s + 1) s))
        as [Hst' Hp']; [done..|].
      split; simpl.
      * apply Forall_held_insert; [done|apply Hnone].
      * done.
      * unfold expand. by rewrite relax_found_solutions.
  - injection Hws as <- <-. by apply (boards_valid_frame ws s).
Qed.

Lemma reachable_boards_valid num_threads c :
  reachable type K initial_board num_threads time_limit_seconds c →
  boards_valid initial_board c.
Proof.
  unfold reachable. intros Hr.
  eapply (rtc_ind_r (fun c => boards_valid initial_board c)); [| |exact Hr].
  - split; simpl.
    + rewrite held_states_replicate_Idle. repeat constructor; done.
    + intros k p. by rewrite lookup_empty.
    + constructor.
  - intros c1 c2 _ Hstep IH. by eapply pool_step_boards_valid.
Qed.

Lemma moves_ok_in (path : list Board) :
  Forall (board_ok initial_board) path →
  moves_ok type path → moves_in type path.
Proof.
  induction path as [|p [|c rest] IH]; intros Hok; simpl; try done.
  intros [(n & Hn & Ht) Hrest].
  apply Forall_cons in Hok as [Hpok Hok].
  pose proof Hok as [Hcok _]%Forall_cons.
  split; [|by apply IH].
  pose proof (get_neighbors_ok _ _ Hpok Hn) as [Hnv [HnN HnM]].
  destruct Hcok as [Hcv [HcN HcM]].
  replace c with n; [done|].
  apply valid_Board_eq; [done..| |done]. split; congruence.
Qed.

End ValidBoards.

(** * What [solve] returns *)

Section Solve.

Context (type : SolveType) (K : Z) (initial_board : Board)
  (num_threads time_limit_seconds : Z).

Lemma solve_reachable fuel clock schedule r :
  solve fuel initial_board type K num_threads time_limit_seconds clock
    schedule = Some r →
  ∃ ws s,
    reachable type K initial_board num_threads time_limit_seconds (ws, s)
    ∧ r = extract_solutions K 0 (found_solutions s).
Proof.
  unfold solve.
  destruct (run_schedule _ _ _ _ _ _ _ _ _) as [[ws s]|] eqn:Hrun; [|done].
  destruct (forallb has_exited ws); [|done]. intros [= <-].
  exists ws, s. split; [|done]. by eapply run_schedule_steps.
Qed.

Lemma StronglySorted_lookup_lt {A : Type} (R : A → A → Prop) (l : list A) :
  StronglySorted R l →
  ∀ (i j : nat) a b, (i < j)%nat → l !! i = Some a → l !! j = Some b → R a b.
Proof.
  induction 1 as [|x l _ IH Hx]; intros i j a b Hij Ha Hb; [done|].
  destruct j as [|j]; [lia|]. simpl in Hb. destruct i as [|i].
  - simpl in Ha. injection Ha as <-.
    eapply Forall_forall in Hx; [exact Hx|]. by eapply list_elem_of_lookup_2.
  - simpl in Ha. eapply (IH i j); [lia|done..].
Qed.

Lemma extract_solutions_sorted (found : list Solution) :
  Sorted Solution_lt found →
  StronglySorted Solution_lt (extract_solutions K 0 found).
Proof.
  intros Hs%Sorted_StronglySorted; [|apply Solution_lt_trans].
  rewrite extract_solutions_take.
  rewrite <- (take_drop (Z.to_nat (K - 0)) found) in Hs.
  by apply StronglySorted_app_1_l in Hs.
Qed.


(** No collected cost is negative. *)
Lemma reachable_costs ws s :
  reachable type K initial_board num_threads time_limit_seconds (ws, s) →
  Forall (fun sol => 0 <= cost sol) (found_solutions s).
Proof.
  intros [_ _ _ Hok]%reachable_inv. simpl in *.
  eapply Forall_impl; [exact Hok|].
  intros sol (Hhd & _ & _ & Hlen).
  destruct (path sol); [done|]. simpl in Hlen. lia.
Qed.

Lemma expand_open_set cur s st :
  st ∈ open_set (expand type cur s) →
  st ∈ open_set s
  ∨ (board st ∈ get_neighbors type (board cur)
     ∧ g_cost st = g_cost cur + 1).
Proof.
  unfold expand.
  assert (∀ ns, (∀ n, n ∈ ns → n ∈ get_neighbors type (board cur)) →
                st ∈ open_set (foldl (relax cur) s ns) →
                st ∈ open_set s
                ∨ (board st ∈ get_neighbors type (board cur)
                   ∧ g_cost st = g_cost cur + 1)) as H.
  { induction ns as [|n ns IH] using rev_ind; intros Hns; [by left|].
    rewrite foldl_snoc.
    assert (n ∈ get_neighbors type (board cur)) as Hn
      by (apply Hns, elem_of_app; right; by apply list_elem_of_singleton).
    assert (∀ n', n' ∈ ns → n' ∈ get_neighbors type (board cur)) as Hns'
      by (intros n' ?; apply Hns, elem_of_app; by left).
    unfold relax at 1.
    destruct (g_costs _ !! _); [destruct (_ <? _)|]; simpl;
      try (by apply IH);
      (intros [->|?]%elem_of_cons; [by right|by apply IH]). }
  by apply H.
Qed.

End Solve.

(** **** Claim C3.  On a valid board, along each of the four directions
    [get_neighbors_block_shift] produces one successor for each distance
    [1, 2, ...] that stays in bounds, in this order, and nothing else: in
    the successor for distance [dist] the blank is at distance [dist], the
    [dist] tiles between have each moved one cell toward the cell the
    blank left, and every other cell is as before; successors along one
    direction differ in their tiles; and the state pushed for a successor
    when the worker expands a state with cost [g] has cost [g + 1]. *)
Theorem block_shift_successors_spec (b : Board) (d : Direction) :
  valid_Board b = true →
  get_neighbors_block_shift b
    = block_shift_successors b Up ++ block_shift_successors b Down
      ++ block_shift_successors b Left ++ block_shift_successors b Right
  ∧ (∀ dist : Z, 1 <= dist →
       in_bounds b (walk_row b d dist) (walk_col b d dist) = true
       ↔ is_Some (block_shift_successors b d !! Z.to_nat (dist - 1)))
  ∧ (∀ (j : nat) (s : Board),
       block_shift_successors b d !! j = Some s →
       let dist := Z.of_nat (S j) in
       (N s = N b ∧ M s = M b ∧ length (tiles s) = length (tiles b)
        ∧ empty_row s = walk_row b d dist ∧ empty_col s = walk_col b d dist)
       ∧ at_ (tiles s) (walk_idx b d dist) = 0
       ∧ (∀ i : Z, 0 <= i < dist →
            at_ (tiles s) (walk_idx b d i) = at_ (tiles b) (walk_idx b d (i + 1)))
       ∧ (∀ p : Z, (∀ i : Z, 0 <= i <= dist → p ≠ walk_idx b d i) →
            at_ (tiles s) p = at_ (tiles b) p))
  ∧ NoDup (tiles <$> block_shift_successors b d)
  ∧ (∀ (cur st : State) (s : PuzzleSolver),
       board cur = b →
       st ∈ open_set (expand BlockShift cur s) →
       st ∈ open_set s
       ∨ (board st ∈ get_neighbors_block_shift b
          ∧ g_cost st = g_cost cur + 1)).
Proof.
  intros Hv.
  pose proof Hv as (HN&HM&Hlen&_&[Hr Hc]&Hz)%valid_Board_spec.
  split_and!.
  - by apply get_neighbors_block_shift_shifted.
  - intros dist Hdist. rewrite walk_in_bounds by done.
    rewrite lookup_block_shift_successors by done.
    case_decide; split; intros H'; first [done | lia | by destruct H'].
  - intros j s. rewrite lookup_block_shift_successors by done.
    case_decide; [|done]. intros [= <-] dist.
    destruct (shifted_spec b d (S j) Hv) as (?&?&?&?&?); [lia|].
    done.
  - by apply block_shift_successors_NoDup.
  - intros cur st s <- Hst.
    by apply (expand_open_set BlockShift) in Hst.
Qed.

Lemma block_shift_successors_spec_witness :
  valid_Board board_3x3 = true
  ∧ NoDup (tiles <$> block_shift_successors board_3x3 Up).
Proof.
  split; [reflexivity|].
  apply (block_shift_successors_spec board_3x3 Up). reflexivity.
Defined.

(** **** Claim C9.  What [solve] returns has at most [K] entries (for
    [K >= 0]) and is in the strict order of [Solution::operator<]: of two
    entries the earlier has the smaller cost, or the same cost and the
    path that is smaller lexicographically, boards being compared by
    [Board::operator<]; so no two entries have the same cost and, board
    for board, the same dimensions and tiles. *)
Theorem returned_solutions_sorted (fuel : nat) (initial_board : Board)
    (type : SolveType) (K num_threads time_limit_seconds : Z)
    (clock : Z → Z) (schedule : list nat) (r : list Solution) :
  solve fuel initial_board type K num_threads time_limit_seconds clock
    schedule = Some r →
  (0 <= K → Z.of_nat (length r) <= K)
  ∧ StronglySorted Solution_lt r
  ∧ (∀ (i j : nat) (a b : Solution),
       (i < j)%nat → r !! i = Some a → r !! j = Some b →
       cost a < cost b
       ∨ (cost a = cost b ∧ path_ltb (path a) (path b) = true))
  ∧ (∀ (i j : nat) (a b : Solution),
       r !! i = Some a → r !! j = Some b →
       cost a = cost b → board_key <$> path a = board_key <$> path b →
       i = j).
Proof.
  intros (ws & s & Hreach & ->)%solve_reachable.
  apply reachable_inv in Hreach as [_ _ Hsorted _]. simpl in *.
  pose proof (extract_solutions_sorted K _ Hsorted) as Hss.
  assert (∀ (i j : nat) a b, (i < j)%nat →
            extract_solutions K 0 (found_solutions s) !! i = Some a →
            extract_solutions K 0 (found_solutions s) !! j = Some b →
            Solution_lt a b) as Hlt
    by (by apply StronglySorted_lookup_lt).
  split_and!.
  - intros HK. rewrite extract_solutions_take.
    pose proof (firstn_le_length (Z.to_nat (K - 0)) (found_solutions s)).
    lia.
  - done.
  - intros i j a b Hij Ha Hb. by apply Solution_lt_spec, (Hlt i j).
  - intros i j a b Ha Hb Hcost Hkey.
    assert (¬ Solution_lt a b ∧ ¬ Solution_lt b a) as [Hab Hba].
    { rewrite !Solution_lt_spec, !path_ltb_key, Hkey, Hcost.
      rewrite lexicographical_compare_irrefl
        by (intros t; apply lexicographical_compare_irrefl, Z.ltb_irrefl).
      split; intros [?|[_ ?]]; (lia || done). }
    destruct (Nat.lt_trichotomy i j) as [?|[?|?]]; [|done|].
    + exfalso. apply Hab. by apply (Hlt i j).
    + exfalso. apply Hba. by apply (Hlt j i).
Qed.

Lemma returned_solutions_sorted_witness :
  (0 <= 1 → Z.of_nat (length [mismatch_solution]) <= 1)
  ∧ StronglySorted Solution_lt [mismatch_solution].
Proof.
  destruct (returned_solutions_sorted 100 board_2x3 AdjacentSwap 1 2 0
              (fun _ => 0) two_worker_schedule [mismatch_solution])
    as (Hlen & Hsorted & _).
  - vm_compute. reflexivity.
  - split; [exact Hlen|exact Hsorted].
Defined.

(** **** Claim C1, in the part that holds.  Every solution [solve]
    returns has a path that starts with the initial board, ends in a board
    that satisfies the goal predicate, and moves at each step to a board
    that [Board::operator==] finds in the neighbour list of the board
    before under the active cost model (on a valid initial board: to a
    board of that list); the path has at most [cost + 1] boards. *)
Theorem returned_solutions_sound (fuel : nat) (initial_board : Board)
    (type : SolveType) (K num_threads time_limit_seconds : Z)
    (clock : Z → Z) (schedule : list nat) (r : list Solution)
    (sol : Solution) :
  solve fuel initial_board type K num_threads time_limit_seconds clock
    schedule = Some r →
  sol ∈ r →
  head (path sol) = Some initial_board
  ∧ (∃ b, last (path sol) = Some b ∧ is_goal b = true)
  ∧ moves_ok type (path sol)
  ∧ (valid_Board initial_board = true → moves_in type (path sol))
  ∧ Z.of_nat (length (path sol)) - 1 <= cost sol.
Proof.
  intros (ws & s & Hreach & ->)%solve_reachable Hsol.
  rewrite extract_solutions_take in Hsol.
  apply elem_of_take in Hsol as (i & Hi%list_elem_of_lookup_2 & _).
  pose proof (reachable_inv _ _ _ _ _ _ Hreach) as [_ _ _ Hok].
  simpl in Hok. eapply Forall_forall in Hok as (?&?&?&?); [|exact Hi].
  split_and!; try done.
  intros Hv.
  pose proof (reachable_boards_valid _ _ _ _ Hv _ _ Hreach) as [_ _ Hpaths].
  simpl in Hpaths. eapply Forall_forall in Hpaths; [|exact Hi].
  by apply (moves_ok_in type initial_board).
Qed.

Lemma returned_solutions_sound_witness :
  Z.of_nat (length (path mismatch_solution)) - 1 <= cost mismatch_solution.
Proof.
  destruct (returned_solutions_sound 100 board_2x3 AdjacentSwap 1 2 0
              (fun _ => 0) two_worker_schedule [mismatch_solution]
              mismatch_solution) as (_ & _ & _ & _ & Hlen).
  - vm_compute. reflexivity.
  - apply list_elem_of_singleton. reflexivity.
  - exact Hlen.
Defined.

(** **** Claim C1, where it fails.  With two workers, on the 2 by 3 board
    [4 1 3 / 0 2 5] under AdjacentSwap and [K = 1], the schedule
    [two_worker_schedule] makes [solve] return a solution of cost [10]
    whose path has five boards (four moves): the worker that holds the
    goal state, popped with [g = 10], rebuilds the path after the other
    worker has given a board on the parent chain a cheaper parent. *)
Theorem solve_cost_path_mismatch :
  solve 100 board_2x3 AdjacentSwap 1 2 0 (fun _ => 0) two_worker_schedule
    = Some [mismatch_solution]
  ∧ cost mismatch_solution = 10
  ∧ Z.of_nat (length (path mismatch_solution)) - 1 = 4.
Proof. vm_compute. done. Qed.

(** **** Claim C8, as amended.  Let [K >= 1], in any configuration a call
    of [solve] can pass through.  In a pass that finds the time budget
    exhausted the worker sets the stop flag and leaves the loop.  In any
    other pass: when the solution set holds at least [K] solutions, the
    state is pruned exactly when its [f_cost] is at least the cost of the
    [K]-th one, and a pruned state is only counted before the loop goes
    on; when the set holds fewer than [K], the state is not pruned. *)
Theorem prune_against_kth_best (fuel : nat) (type : SolveType)
    (K : Z) (initial_board : Board) (num_threads time_limit_seconds : Z)
    (elapsed : Z) (cur : State) (ws : list WorkerState) (s : PuzzleSolver) :
  1 <= K < 2 ^ 64 →
  reachable type K initial_board num_threads time_limit_seconds (ws, s) →
  (time_limit_reached time_limit_seconds elapsed = true →
     worker_iteration fuel type K initial_board time_limit_seconds elapsed
       cur s
     = Some (Break,
             set_terminate_search true
               (set_states_explored (states_explored s + 1) s)))
  ∧ (time_limit_reached time_limit_seconds elapsed = false →
     (K <= Z.of_nat (length (found_solutions s)) →
        ∃ kth, found_solutions s !! Z.to_nat (K - 1) = Some kth
               ∧ is_pruned K cur s = bool_decide (cost kth <= f_cost cur)
               ∧ (cost kth <= f_cost cur →
                  discards_and_continues fuel type K initial_board
                    time_limit_seconds elapsed cur s))
     ∧ (Z.of_nat (length (found_solutions s)) < K →
        is_pruned K cur s = false)).
Proof.
  intros HK Hreach. apply is_pruned_spec; [done|].
  by eapply reachable_costs.
Qed.

Lemma prune_against_kth_best_witness :
  discards_and_continues 0 AdjacentSwap 1 solved_2x2 0 0
    (new_State board_2x2 4 2) solver_after_solution.
Proof.
  destruct (prune_against_kth_best 0 AdjacentSwap 1 solved_2x2 2 0 0
              (new_State board_2x2 4 2) [Idle; Exited] solver_after_solution)
    as [_ Hlive].
  - lia.
  - apply (run_schedule_steps AdjacentSwap 1 solved_2x2 0 1 (fun _ => 0)
             [0; 1; 0]%nat).
    vm_compute. reflexivity.
  - destruct (Hlive eq_refl) as [Henough _].
    destruct Henough as (kth & Hkth & _ & Hdiscard); [simpl; lia|].
    injection Hkth as <-. apply Hdiscard. simpl. lia.
Defined.

(** The claim C8 as it is stated fails in a pass that finds the time
    budget exhausted: a solution of cost [4] is held, [K = 1], the popped
    state has [f_cost = 10], but the stop flag is set and the loop is
    left. *)
Lemma prune_time_limit_counterexample :
  ¬ (∀ fuel type K initial_board num_threads time_limit_seconds elapsed
       ws s cur kth,
       reachable type K initial_board num_threads time_limit_seconds (ws, s) →
       cur ∈ held_states ws →
       1 <= K →
       found_solutions s !! Z.to_nat (K - 1) = Some kth →
       cost kth <= f_cost cur →
       discards_and_continues fuel type K initial_board
         time_limit_seconds elapsed cur s).
Proof.
  intros H.
  assert (reachable AdjacentSwap 1 board_2x3 2 1
            ([Holding held_goal_state; Idle], pruned_solver)) as Hreach.
  { apply (run_schedule_steps AdjacentSwap 1 board_2x3 1 100 (fun _ => 0)
             pruned_schedule).
    vm_compute. reflexivity. }
  destruct (found_solutions pruned_solver !! 0%nat) as [kth|] eqn:Hkth;
    [|discriminate Hkth].
  specialize (H 0%nat AdjacentSwap 1 board_2x3 2 1 1
                [Holding held_goal_state; Idle] pruned_solver
                held_goal_state kth Hreach).
  unfold discards_and_continues in H.
  assert (cost kth = 4) as Hcost by (injection Hkth as <-; reflexivity).
  specialize (H ltac:(by left) ltac:(lia) Hkth ltac:(rewrite Hcost; simpl; lia)).
  vm_compute in H. discriminate H.
Qed.

(** The claim C5 as it is stated fails in a pass that finds the time
    budget exhausted: the popped state, with [g = 10] against a stored
    [g = 4], is dropped, but the stop flag is set and the loop is left. *)
Lemma stale_state_time_limit_counterexample :
  ¬ (∀ fuel type K initial_board num_threads time_limit_seconds elapsed
       ws s cur,
       reachable type K initial_board num_threads time_limit_seconds (ws, s) →
       cur ∈ held_states ws →
       is_stale cur s = true →
       discards_and_continues fuel type K initial_board
         time_limit_seconds elapsed cur s).
Proof.
  intros H.
  assert (reachable AdjacentSwap 1 board_2x3 2 1
            ([Holding held_goal_state; Idle], stale_solver)) as Hreach.
  { apply (run_schedule_steps AdjacentSwap 1 board_2x3 1 100 (fun _ => 0)
             stale_schedule).
    vm_compute. reflexivity. }
  specialize (H 0%nat AdjacentSwap 1 board_2x3 2 1 1
                [Holding held_goal_state; Idle] stale_solver
                held_goal_state Hreach).
  unfold discards_and_continues in H.
  specialize (H ltac:(by left) ltac:(vm_compute; reflexivity)).
  vm_compute in H. discriminate H.
Qed.

(** * Further properties of the board model *)

Section BoardExtras.

Implicit Types (b : Board) (t : list Z).

(** Two tile vectors of the same length that agree cell by cell are
    equal. *)
Lemma list_eq_at t t' :
  length t = length t' →
  (∀ i : Z, 0 <= i < Z.of_nat (length t) → at_ t i = at_ t' i) →
  t = t'.
Proof.
  intros Hlen Hat. apply list_eq_same_length with (length t); [done..|].
  intros i x y Hi Hx Hy.
  specialize (Hat (Z.of_nat i) ltac:(lia)).
  rewrite (at_lookup t (Z.of_nat i) x), (at_lookup t' (Z.of_nat i) y) in Hat;
    (done || lia || by rewrite Nat2Z.id).
Qed.

Lemma swap_tiles_comm t (i j : Z) :
  0 <= i < Z.of_nat (length t) → 0 <= j < Z.of_nat (length t) →
  swap_tiles t i j = swap_tiles t j i.
Proof.
  intros Hi Hj. apply list_eq_at; [by rewrite !length_swap_tiles|].
  intros p _. rewrite !at_swap_tiles by done.
  repeat case_bool_decide; congruence.
Qed.

Lemma swap_tiles_involutive t (i j : Z) :
  0 <= i < Z.of_nat (length t) → 0 <= j < Z.of_nat (length t) →
  swap_tiles (swap_tiles t i j) j i = t.
Proof.
  intros Hi Hj. apply list_eq_at; [by rewrite !length_swap_tiles|].
  intros p _. rewrite !at_swap_tiles by (by rewrite ?length_swap_tiles).
  repeat case_bool_decide; congruence.
Qed.

Lemma find_empty_spec (n m : Z) t :
  0 < m →
  match find_empty n m t with
  | Some (r, c) =>
      0 <= r * m + c < n * m ∧ 0 <= r ∧ 0 <= c < m
      ∧ at_ t (r * m + c) = 0
      ∧ ∀ i : Z, 0 <= i < r * m + c → at_ t i ≠ 0
  | None => ∀ i : Z, 0 <= i < n * m → at_ t i ≠ 0
  end.
Proof.
  intros Hm. unfold find_empty.
  destruct (list_find _ _) as [[k i]|] eqn:Hfind; simpl.
  - apply list_find_Some in Hfind as (Hk & Hz & Hfirst).
    apply lookup_seqZ in Hk as [-> Hk].
    assert (0 <= 0 + Z.of_nat k) as H0 by lia.
    pose proof (Z.quot_rem' (0 + Z.of_nat k) m) as Hqr.
    pose proof (Z.rem_bound_pos (0 + Z.of_nat k) m H0 Hm) as Hrem.
    pose proof (Z.quot_pos (0 + Z.of_nat k) m H0 Hm) as Hquot.
    assert (Z.quot (0 + Z.of_nat k) m * m + Z.rem (0 + Z.of_nat k) m
            = 0 + Z.of_nat k) as Hidx by lia.
    rewrite Hidx. split_and!; try lia; try done.
    intros i Hi Hzi.
    apply (Hfirst (Z.to_nat i) i); [|lia|done].
    apply lookup_seqZ. lia.
  - intros i Hi. rewrite list_find_None, Forall_forall in Hfind.
    apply Hfind, elem_of_seqZ. lia.
Qed.

End BoardExtras.

(** **** Property X1.  On a tile vector that holds each of [0 .. n*m-1]
    once, the constructor builds a valid board; it is the only valid board
    with these dimensions and tiles, so the constructor recovers every valid
    board from its dimensions and tiles. *)
Theorem new_Board_valid (n m : Z) (t : list Z) :
  0 < n → 0 < m → t ≡ₚ seqZ 0 (n * m) →
  ∃ b, new_Board n m t = Some b
       ∧ N b = n ∧ M b = m ∧ tiles b = t
       ∧ valid_Board b = true
       ∧ ∀ b', valid_Board b' = true → N b' = n → M b' = m →
               tiles b' = t → b' = b.
Proof.
  intros Hn Hm Hperm.
  assert (Z.of_nat (length t) = n * m) as Hlen.
  { rewrite Hperm, length_seqZ. nia. }
  pose proof (find_empty_spec n m t Hm) as Hspec.
  unfold new_Board. destruct (find_empty n m t) as [[r c]|]; simpl.
  - destruct Hspec as (Hidx & Hr & Hc & Hz & _).
    set (b := mkBoard n m t r c).
    assert (valid_Board b = true) as Hv.
    { apply valid_Board_spec. unfold blank_idx. simpl.
      split_and!; try lia; try nia.
      intros v Hv. rewrite Hperm. apply elem_of_seqZ. lia. }
    exists b. split_and!; try done.
    intros b' Hv' HN HM Ht. by apply valid_Board_eq.
  - assert (0 ∈ t) as [i Hi]%list_elem_of_lookup.
    { rewrite Hperm. apply elem_of_seqZ. nia. }
    pose proof (lookup_lt_Some _ _ _ Hi) as Hlt.
    destruct (Hspec (Z.of_nat i)); [lia|].
    apply at_lookup; [lia|by rewrite Nat2Z.id].
Qed.

Lemma new_Board_valid_witness :
  ∃ b, new_Board 3 3 [2; 3; 6; 1; 5; 8; 4; 0; 7] = Some b
       ∧ valid_Board b = true.
Proof.
  destruct (new_Board_valid 3 3 [2; 3; 6; 1; 5; 8; 4; 0; 7])
    as (b & Hb & _ & _ & _ & Hv & _); [lia|lia| |by exists b].
  apply NoDup_Permutation; [by apply (bool_decide_unpack _)|apply NoDup_seqZ|].
  intros x. rewrite elem_of_seqZ. set_unfold. lia.
Defined.

(** **** Property X2.  The constructor sets the blank coordinates to the
    cell of the first [0] of the tile vector, and leaves them unset when the
    vector holds no [0]. *)
Theorem new_Board_first_blank (n m : Z) (t : list Z) :
  0 < m → Z.of_nat (length t) = n * m →
  match new_Board n m t with
  | Some b =>
      N b = n ∧ M b = m ∧ tiles b = t
      ∧ 0 <= empty_row b ∧ 0 <= empty_col b < m ∧ blank_idx b < n * m
      ∧ at_ t (blank_idx b) = 0
      ∧ ∀ i : Z, 0 <= i < blank_idx b → at_ t i ≠ 0
  | None => 0 ∉ t
  end.
Proof.
  intros Hm Hlen.
  pose proof (find_empty_spec n m t Hm) as Hspec.
  unfold new_Board. destruct (find_empty n m t) as [[r c]|]; simpl.
  - unfold blank_idx. simpl. destruct Hspec as (Hidx & Hr & Hc & Hz & Hfirst).
    split_and!; (done || lia).
  - intros [i Hi]%list_elem_of_lookup.
    pose proof (lookup_lt_Some _ _ _ Hi) as Hlt.
    destruct (Hspec (Z.of_nat i)); [lia|].
    apply at_lookup; [lia|by rewrite Nat2Z.id].
Qed.

Lemma new_Board_first_blank_witness :
  match new_Board 2 2 [3; 0; 0; 1] with
  | Some b =>
      N b = 2 ∧ M b = 2 ∧ tiles b = [3; 0; 0; 1]
      ∧ 0 <= empty_row b ∧ 0 <= empty_col b < 2 ∧ blank_idx b < 2 * 2
      ∧ at_ [3; 0; 0; 1] (blank_idx b) = 0
      ∧ ∀ i : Z, 0 <= i < blank_idx b → at_ [3; 0; 0; 1] i ≠ 0
  | None => 0 ∉ [3; 0; 0; 1]
  end.
Proof. apply new_Board_first_blank; [lia|reflexivity]. Defined.

(** **** Property X3.  [Board::operator<] is a strict total order on (rows,
    columns, tiles). On boards of equal dimensions two boards are unordered
    exactly when [operator==] holds; boards that [operator==] equates but
    whose dimensions differ are ordered one way or the other. *)
Theorem Board_ltb_strict_order :
  (∀ a, Board_ltb a a = false)
  ∧ (∀ a b c, Board_ltb a b = true → Board_ltb b c = true →
              Board_ltb a c = true)
  ∧ (∀ a b, Board_ltb a b = false → Board_ltb b a = false →
            N a = N b ∧ M a = M b ∧ tiles a = tiles b)
  ∧ (∀ a b, N a = N b → M a = M b →
            Board_eqb a b = true
            ↔ Board_ltb a b = false ∧ Board_ltb b a = false)
  ∧ (∀ a b, Board_eqb a b = true → N a ≠ N b ∨ M a ≠ M b →
            Board_ltb a b = true ∨ Board_ltb b a = true).
Proof.
  assert (∀ a, Board_ltb a a = false) as Hirr.
  { intros a. rewrite Board_ltb_key.
    apply lexicographical_compare_irrefl, Z.ltb_irrefl. }
  assert (∀ a b, Board_ltb a b = false → Board_ltb b a = false →
                 N a = N b ∧ M a = M b ∧ tiles a = tiles b) as Htot.
  { intros a b. rewrite !Board_ltb_key. intros Hab Hba.
    pose proof (tiles_ltb_total _ _ Hab Hba) as Hkey.
    unfold board_key in Hkey. by simplify_eq. }
  split_and!; try done.
  - intros a b c. rewrite !Board_ltb_key. apply tiles_ltb_trans.
  - intros a b HN HM. unfold Board_eqb. rewrite bool_decide_eq_true. split.
    + intros Ht. rewrite !Board_ltb_key. unfold board_key.
      rewrite HN, HM, Ht. split; apply lexicographical_compare_irrefl, Z.ltb_irrefl.
    + intros [Hab Hba]. by destruct (Htot a b) as (_&_&?).
  - intros a b _ Hdims.
    destruct (Board_ltb a b) eqn:Hab; [by left|].
    destruct (Board_ltb b a) eqn:Hba; [by right|].
    destruct (Htot a b) as (?&?&_); [done..|]. lia.
Qed.

Section GoalFacts.

Implicit Types (b : Board) (t : list Z).

Lemma length_goal_tiles (n m : Z) :
  0 < n * m → Z.of_nat (length (goal_tiles n m)) = n * m.
Proof.
  intros H. unfold goal_tiles. rewrite length_app, length_seqZ. simpl. lia.
Qed.

Lemma at_goal_tiles (n m i : Z) :
  0 <= i < n * m →
  at_ (goal_tiles n m) i = if bool_decide (i = n * m - 1) then 0 else i + 1.
Proof.
  intros Hi. apply at_lookup; [lia|]. unfold goal_tiles.
  case_bool_decide as Hlast.
  - rewrite lookup_app_r by (rewrite length_seqZ; lia).
    rewrite length_seqZ.
    by replace (Z.to_nat i - Z.to_nat (n * m - 1))%nat with 0%nat by lia.
  - rewrite lookup_app_l by (rewrite length_seqZ; lia).
    apply lookup_seqZ. lia.
Qed.

Lemma is_goal_at b :
  is_goal b = true ↔
  (∀ i : Z, 0 <= i < N b * M b - 1 → at_ (tiles b) i = i + 1)
  ∧ at_ (tiles b) (N b * M b - 1) = 0.
Proof.
  unfold is_goal. rewrite andb_true_iff, forallb_forall, Z.eqb_eq.
  split; intros [Hall Hlast]; (split; [|done]).
  - intros i Hi. apply Z.eqb_eq, Hall, list_elem_of_In, elem_of_seqZ. lia.
  - intros i Hi%list_elem_of_In%elem_of_seqZ. apply Z.eqb_eq, Hall. lia.
Qed.

Lemma is_goal_tiles b :
  Z.of_nat (length (tiles b)) = N b * M b → 0 < N b * M b →
  is_goal b = true ↔ tiles b = goal_tiles (N b) (M b).
Proof.
  intros Hlen Hpos. rewrite is_goal_at. split.
  - intros [Hall Hlast]. apply list_eq_at.
    { apply Nat2Z.inj. by rewrite length_goal_tiles. }
    intros i Hi. rewrite at_goal_tiles by lia.
    case_bool_decide as Hi'; [by rewrite Hi'|]. apply Hall. lia.
  - intros ->. split.
    + intros i Hi. rewrite at_goal_tiles by lia.
      by rewrite bool_decide_eq_false_2 by lia.
    + rewrite at_goal_tiles by lia. by rewrite bool_decide_eq_true_2.
Qed.

Lemma goal_Board_valid (n m : Z) :
  0 < n → 0 < m → valid_Board (goal_Board n m) = true.
Proof.
  intros Hn Hm. assert (0 < n * m) as Hnm by nia.
  apply valid_Board_spec. unfold blank_idx. simpl.
  rewrite length_goal_tiles by done. split_and!; try lia.
  - intros v Hv. unfold goal_tiles. apply elem_of_app.
    destruct (decide (v = 0)) as [->|]; [right; by apply list_elem_of_singleton|].
    left. apply elem_of_seqZ. lia.
  - rewrite at_goal_tiles by nia. rewrite bool_decide_eq_true_2; [done|lia].
Qed.





Lemma manhattan_nonneg b : 0 <= get_manhattan_distance b.
Proof.
  unfold get_manhattan_distance.
  assert (∀ l a, 0 <= a → 0 <= foldl (manhattan_step b) a l) as H.
  { induction l as [|i l IH]; intros a Ha; simpl; [done|]. apply IH.
    unfold manhattan_step, tile_distance. destruct (_ =? 0); lia. }
  by apply H.
Qed.


End GoalFacts.

(** **** Property X4.  A board with as many tiles as cells is at the goal
    exactly when its tiles are [1, 2, ..., N*M-1, 0]; among the valid boards
    of given dimensions the goal is one board, with the blank in the last
    cell. *)
Theorem is_goal_spec (b : Board) :
  Z.of_nat (length (tiles b)) = N b * M b → 0 < N b * M b →
  (is_goal b = true ↔ tiles b = goal_tiles (N b) (M b))
  ∧ (valid_Board b = true →
     is_goal b = true ↔ b = goal_Board (N b) (M b)).
Proof.
  intros Hlen Hpos. split; [by apply is_goal_tiles|].
  intros Hv. pose proof Hv as (HN&HM&_)%valid_Board_spec.
  rewrite is_goal_tiles by done. split.
  - intros Ht. apply valid_Board_eq; [done|by apply goal_Board_valid|done..].
  - by intros ->.
Qed.

Lemma is_goal_spec_witness :
  is_goal (mkBoard 2 2 [1; 2; 3; 0] 1 1) = true
  ↔ [1; 2; 3; 0] = goal_tiles 2 2.
Proof.
  apply (is_goal_spec (mkBoard 2 2 [1; 2; 3; 0] 1 1)); [reflexivity|simpl; lia].
Defined.


Section AdjacentSwap.

Implicit Types (b : Board) (d : Direction).

Lemma in_bounds_can_move b d :
  0 <= empty_row b < N b → 0 <= empty_col b < M b →
  in_bounds b (empty_row b + dr d) (empty_col b + dc d) = can_move b d.
Proof.
  intros Hr Hc. apply eq_true_iff_eq. rewrite in_bounds_spec.
  destruct d; simpl; rewrite Z.ltb_lt; lia.
Qed.

Lemma get_neighbors_adjacent_swap_filter b :
  get_neighbors_adjacent_swap b
  = adjacent_successor b
      <$> filter (fun d => in_bounds b (empty_row b + dr d)
                             (empty_col b + dc d) = true) directions.
Proof.
  unfold get_neighbors_adjacent_swap, directions. simpl.
  unfold adjacent_swap_step. rewrite !filter_cons, filter_nil.
  repeat match goal with
         | |- context [in_bounds ?b ?r ?c] => destruct (in_bounds b r c)
         end; reflexivity.
Qed.

Lemma NoDup_directions : NoDup directions.
Proof.
  unfold directions.
  repeat (apply NoDup_cons; split;
          [rewrite ?elem_of_cons, elem_of_nil; intuition discriminate|]).
  apply NoDup_nil_2.
Qed.

Lemma dr_dc_inj d d' : dr d = dr d' → dc d = dc d' → d = d'.
Proof. by destruct d, d'. Qed.

Lemma adjacent_successor_tiles_inj b d d' :
  valid_Board b = true →
  in_bounds b (empty_row b + dr d) (empty_col b + dc d) = true →
  in_bounds b (empty_row b + dr d') (empty_col b + dc d') = true →
  tiles (adjacent_successor b d) = tiles (adjacent_successor b d') → d = d'.
Proof.
  intros Hv Hd Hd' Ht.
  pose proof (adjacent_successor_valid b d Hv Hd) as Hv1.
  pose proof (adjacent_successor_valid b d' Hv Hd') as Hv2.
  pose proof Hv as (HN&HM&Hlen&_)%valid_Board_spec.
  apply in_bounds_spec in Hd as [Hr Hc]. apply in_bounds_spec in Hd' as [Hr' Hc'].
  pose proof Hv1 as (_&_&_&_&_&Hz1)%valid_Board_spec.
  rewrite Ht in Hz1.
  apply (valid_Board_zero_unique _ _ Hv2) in Hz1;
    [|unfold blank_idx; simpl; nia].
  unfold blank_idx in Hz1. simpl in Hz1.
  destruct (quot_rem_cell (M b) (empty_row b + dr d) (empty_col b + dc d))
    as [Hq1 Hr1]; [lia..|].
  destruct (quot_rem_cell (M b) (empty_row b + dr d') (empty_col b + dc d'))
    as [Hq2 Hr2]; [lia..|].
  rewrite Hz1, Hq2 in Hq1. rewrite Hz1, Hr2 in Hr1.
  apply dr_dc_inj; lia.
Qed.

Lemma adjacent_successor_opposite b d :
  valid_Board b = true →
  in_bounds b (empty_row b + dr d) (empty_col b + dc d) = true →
  adjacent_successor (adjacent_successor b d) (opposite d) = b.
Proof.
  intros Hv Hin.
  pose proof (valid_Board_blank_idx b Hv) as Hb.
  apply valid_Board_spec in Hv as (HN&HM&Hlen&Hall&[Hr Hc]&Hz).
  apply in_bounds_spec in Hin as [Hr' Hc'].
  unfold adjacent_successor, blank_idx in *. simpl.
  assert (empty_row b + dr d + dr (opposite d) = empty_row b) as ->
    by (destruct d; simpl; lia).
  assert (empty_col b + dc d + dc (opposite d) = empty_col b) as ->
    by (destruct d; simpl; lia).
  rewrite swap_tiles_involutive by nia. by destruct b.
Qed.

Lemma adjacent_successor_moves b d :
  valid_Board b = true →
  in_bounds b (empty_row b + dr d) (empty_col b + dc d) = true →
  tiles (adjacent_successor b d) ≠ tiles b.
Proof.
  intros Hv Hin Ht.
  pose proof (adjacent_successor_valid b d Hv Hin) as Hv'.
  pose proof Hv as (HN&HM&Hlen&Hall&[Hr Hc]&Hz)%valid_Board_spec.
  pose proof Hv' as (_&_&_&_&_&Hz')%valid_Board_spec.
  apply in_bounds_spec in Hin as [Hr' Hc'].
  rewrite Ht in Hz'.
  apply (valid_Board_zero_unique _ _ Hv) in Hz';
    [|unfold blank_idx; simpl; nia].
  unfold blank_idx in Hz'. simpl in Hz'.
  destruct (quot_rem_cell (M b) (empty_row b + dr d) (empty_col b + dc d))
    as [Hq1 Hr1]; [lia..|].
  destruct (quot_rem_cell (M b) (empty_row b) (empty_col b))
    as [Hq2 Hr2]; [lia..|].
  rewrite Hz', Hq2 in Hq1. rewrite Hz', Hr2 in Hr1.
  destruct d; simpl in *; lia.
Qed.

End AdjacentSwap.

(** **** Property X6.  On a valid board [get_neighbors_adjacent_swap]
    returns one successor for each side on which the blank has a
    neighbouring cell; the successors are valid boards, pairwise different
    and different from the board itself. *)
Theorem adjacent_swap_branching_factor (b : Board) :
  valid_Board b = true →
  Z.of_nat (length (get_neighbors_adjacent_swap b))
  = Z.b2z (0 <? empty_row b) + Z.b2z (empty_row b <? N b - 1)
    + Z.b2z (0 <? empty_col b) + Z.b2z (empty_col b <? M b - 1)
  ∧ NoDup (tiles <$> get_neighbors_adjacent_swap b)
  ∧ ∀ b', b' ∈ get_neighbors_adjacent_swap b →
          valid_Board b' = true ∧ tiles b' ≠ tiles b.
Proof.
  intros Hv.
  pose proof Hv as (_&_&_&_&[Hr Hc]&_)%valid_Board_spec.
  split_and!.
  - rewrite get_neighbors_adjacent_swap_filter, length_fmap.
    unfold directions. rewrite !filter_cons, filter_nil.
    rewrite !in_bounds_can_move by done. simpl.
    repeat match goal with
           | |- context [?x <? ?y] => destruct (x <? y)
           end; reflexivity.
  - rewrite get_neighbors_adjacent_swap_filter.
    apply NoDup_fmap_2_strong.
    + intros x y [d [-> [Hd _]%list_elem_of_filter]]%list_elem_of_fmap
        [d' [-> [Hd' _]%list_elem_of_filter]]%list_elem_of_fmap Ht.
      f_equal. by apply (adjacent_successor_tiles_inj b).
    + apply NoDup_fmap_2_strong.
      * intros d d' [Hd _]%list_elem_of_filter [Hd' _]%list_elem_of_filter Heq.
        apply (adjacent_successor_tiles_inj b); [done..|by rewrite Heq].
      * apply NoDup_filter, NoDup_directions.
  - intros b' (d & Hd & ->)%elem_of_adjacent_swap. split.
    + by apply adjacent_successor_valid.
    + by apply adjacent_successor_moves.
Qed.

Lemma adjacent_swap_branching_factor_witness :
  Z.of_nat (length (get_neighbors_adjacent_swap board_3x3)) = 3.
Proof.
  by destruct (adjacent_swap_branching_factor board_3x3) as [-> _].
Defined.

Section ShiftFacts.

Implicit Types (b : Board) (d : Direction).

Lemma Board_eq_fields a b :
  N a = N b → M a = M b → tiles a = tiles b →
  empty_row a = empty_row b → empty_col a = empty_col b → a = b.
Proof. destruct a, b; simpl; congruence. Qed.

Lemma valid_Board_coords b :
  valid_Board b = true → 0 <= empty_row b < N b ∧ 0 <= empty_col b < M b.
Proof. by intros (_&_&_&_&?&_)%valid_Board_spec. Qed.

(** One more pass of the inner loop is an adjacent swap of the board it
    has reached. *)
Lemma shifted_succ b d (j : nat) :
  valid_Board b = true → (S j <= run_length b d)%nat →
  shifted b d (S j) = adjacent_successor (shifted b d j) d
  ∧ in_bounds (shifted b d j) (empty_row (shifted b d j) + dr d)
      (empty_col (shifted b d j) + dc d) = true.
Proof.
  intros Hv Hj.
  destruct (valid_Board_coords b Hv) as [Hr Hc].
  pose proof Hv as (HN&HM&Hlen&_)%valid_Board_spec.
  destruct (shifted_spec b d j Hv ltac:(lia)) as ((HNs&HMs&Hls&Hrs&Hcs)&_).
  destruct (walk_in_grid b d (Z.of_nat j) Hr Hc ltac:(lia)) as [_ Hi].
  destruct (walk_in_grid b d (Z.of_nat (S j)) Hr Hc ltac:(lia)) as [Hg Hi'].
  destruct (shifted_step_idx b d j) as [Hnew Hold].
  assert (walk_row b d (Z.of_nat (S j)) = walk_row b d (Z.of_nat j) + dr d)
    as Hwr by (unfold walk_row; lia).
  assert (walk_col b d (Z.of_nat (S j)) = walk_col b d (Z.of_nat j) + dc d)
    as Hwc by (unfold walk_col; lia).
  split.
  - change (shifted b d (S j)) with
      (mkBoard (N (shifted b d j)) (M (shifted b d j))
         (swap_tiles (tiles (shifted b d j))
            (walk_row b d (Z.of_nat (S j)) * M b + walk_col b d (Z.of_nat (S j)))
            ((walk_row b d (Z.of_nat (S j)) - dr d) * M b
             + (walk_col b d (Z.of_nat (S j)) - dc d)))
         (walk_row b d (Z.of_nat (S j))) (walk_col b d (Z.of_nat (S j)))).
    unfold adjacent_successor, blank_idx.
    rewrite Hnew, Hold, HMs, Hrs, Hcs, <- Hwr, <- Hwc.
    fold (walk_idx b d (Z.of_nat j)). fold (walk_idx b d (Z.of_nat (S j))).
    f_equal. apply swap_tiles_comm; rewrite Hls; lia.
  - apply in_bounds_spec. rewrite HNs, HMs, Hrs, Hcs, <- Hwr, <- Hwc. done.
Qed.

Lemma shifted_adjacent_moves b d : ∀ (k i : nat),
  valid_Board b = true → (i + k <= run_length b d)%nat →
  move_sequence get_neighbors_adjacent_swap (shifted b d i)
    (shifted b d <$> seq (S i) k).
Proof.
  induction k as [|k IH]; intros i Hv Hik; [done|].
  destruct (shifted_succ b d i Hv ltac:(lia)) as [Heq Hin].
  change (seq (S i) (S k)) with (S i :: seq (S (S i)) k).
  rewrite fmap_cons. cbn [move_sequence]. split.
  - apply elem_of_adjacent_swap. by exists d.
  - apply IH; [done|lia].
Qed.

Lemma run_length_bound b d :
  valid_Board b = true →
  Z.of_nat (run_length b d) < Z.max (N b) (M b).
Proof.
  intros Hv. destruct (valid_Board_coords b Hv) as [Hr Hc].
  rewrite run_length_spec by done. destruct d; lia.
Qed.

Lemma on_walk_dec b d (p : Z) (j : nat) :
  (∃ i : Z, 0 <= i <= Z.of_nat j ∧ p = walk_idx b d i)
  ∨ (∀ i : Z, 0 <= i <= Z.of_nat j → p ≠ walk_idx b d i).
Proof.
  induction j as [|j [(i & Hi & ->)|IH]].
  - destruct (decide (p = walk_idx b d 0)) as [->|Hne].
    + left. exists 0. split; [lia|done].
    + right. intros i Hi. by replace i with 0 by lia.
  - left. exists i. split; [lia|done].
  - destruct (decide (p = walk_idx b d (Z.of_nat (S j)))) as [->|Hne].
    + left. exists (Z.of_nat (S j)). split; [lia|done].
    + right. intros i Hi.
      destruct (decide (i = Z.of_nat (S j))) as [->|]; [done|].
      apply IH. lia.
Qed.

Lemma opposite_dr_dc d : dr (opposite d) = - dr d ∧ dc (opposite d) = - dc d.
Proof. by destruct d. Qed.

(** Shifting back over the same run restores the board. *)
Lemma shifted_opposite b d (j : nat) :
  valid_Board b = true → (j <= run_length b d)%nat →
  (j <= run_length (shifted b d j) (opposite d))%nat
  ∧ shifted (shifted b d j) (opposite d) j = b.
Proof.
  intros Hv Hj.
  destruct (valid_Board_coords b Hv) as [Hr Hc].
  pose proof Hv as (HN&HM&Hlen&_&_&Hz)%valid_Board_spec.
  pose proof (shifted_valid b d j Hv Hj) as Hv'.
  destruct (shifted_spec b d j Hv Hj)
    as ((HNs&HMs&Hls&Hrs&Hcs)&_&Hzero&Hrun&Hrest).
  set (b' := shifted b d j) in *.
  destruct (valid_Board_coords b' Hv') as [Hr' Hc'].
  destruct (opposite_dr_dc d) as [Hdr Hdc].
  assert (j <= run_length b' (opposite d))%nat as Hj'.
  { apply Nat2Z.inj_le.
    pose proof (run_length_spec b d Hr Hc) as Hrl.
    rewrite run_length_spec by done. rewrite HNs, HMs, Hrs, Hcs.
    unfold walk_row, walk_col. destruct d; simpl in *; lia. }
  split; [done|].
  destruct (shifted_spec b' (opposite d) j Hv' Hj')
    as ((HNt&HMt&Hlt&Hrt&Hct)&_&Hzero'&Hrun'&Hrest').
  assert (∀ i : Z, walk_idx b' (opposite d) i
                   = walk_idx b d (Z.of_nat j - i)) as Hwalk.
  { intros i. unfold walk_idx, walk_row, walk_col.
    rewrite HMs, Hrs, Hcs, Hdr, Hdc. unfold walk_row, walk_col. lia. }
  apply Board_eq_fields; try congruence.
  - apply list_eq_at; [congruence|]. intros p Hp.
    destruct (on_walk_dec b d p j) as [(i & Hi & ->)|Hoff].
    + destruct (decide (i = 0)) as [->|Hi0].
      * rewrite walk_idx_0, Hz.
        rewrite <- (walk_idx_0 b d).
        replace 0 with (Z.of_nat j - Z.of_nat j) at 1 by lia.
        by rewrite <- Hwalk.
      * replace i with (Z.of_nat j - (Z.of_nat j - i)) at 1 by lia.
        rewrite <- Hwalk, Hrun' by lia. rewrite Hwalk.
        replace (Z.of_nat j - (Z.of_nat j - i + 1)) with (i - 1) by lia.
        rewrite Hrun by lia. by replace (i - 1 + 1) with i by lia.
    + rewrite Hrest', Hrest; [done|done|].
      intros i Hi. rewrite Hwalk. apply Hoff. lia.
  - rewrite Hrt. unfold walk_row. rewrite Hrs, Hdr. unfold walk_row. lia.
  - rewrite Hct. unfold walk_col. rewrite Hcs, Hdc. unfold walk_col. lia.
Qed.

Lemma elem_of_get_neighbors_block_shift b b' :
  valid_Board b = true →
  b' ∈ get_neighbors_block_shift b ↔
  ∃ d (j : nat), (1 <= j <= run_length b d)%nat ∧ b' = shifted b d j.
Proof.
  intros Hv. destruct (valid_Board_coords b Hv) as [Hr Hc].
  rewrite get_neighbors_block_shift_shifted by done.
  rewrite !elem_of_app, !elem_of_block_shift_successors by done. split.
  - intros [(j&?&->)|[(j&?&->)|[(j&?&->)|(j&?&->)]]]; eauto.
  - intros ([] & j & Hj & ->); eauto 10.
Qed.

End ShiftFacts.

(** **** Property X7.  Moves can be undone: under both cost models a valid
    board is among the successors of each of its successors. *)
Theorem moves_reversible (type : SolveType) (b b' : Board) :
  valid_Board b = true →
  b' ∈ get_neighbors type b → b ∈ get_neighbors type b'.
Proof.
  intros Hv. destruct type; simpl.
  - intros (d & Hd & ->)%elem_of_adjacent_swap.
    apply elem_of_adjacent_swap. exists (opposite d). split.
    + destruct (valid_Board_coords b Hv) as [Hr Hc].
      destruct (opposite_dr_dc d) as [-> ->].
      apply in_bounds_spec. simpl. lia.
    + by rewrite adjacent_successor_opposite.
  - intros (d & j & Hj & ->)%elem_of_get_neighbors_block_shift; [|done].
    destruct (shifted_opposite b d j Hv ltac:(lia)) as [Hj' Heq].
    apply elem_of_get_neighbors_block_shift; [apply shifted_valid; (done || lia)|].
    exists (opposite d), j. split; [lia|done].
Qed.

Lemma moves_reversible_witness :
  board_3x3
  ∈ get_neighbors BlockShift (mkBoard 3 3 [2; 0; 6; 1; 3; 8; 4; 5; 7] 0 1).
Proof.
  apply moves_reversible; [reflexivity|].
  apply list_elem_of_lookup. exists 1%nat. vm_compute. reflexivity.
Defined.

(** **** Property X8.  A block shift over [j] cells is [j] adjacent swaps in
    a row: every BlockShift successor of a valid board is reached from it by
    at most [max N M - 1] AdjacentSwap moves, and every AdjacentSwap
    successor is also a BlockShift successor. *)
Theorem block_shift_as_adjacent_swaps (b : Board) :
  valid_Board b = true →
  (∀ b', b' ∈ get_neighbors_block_shift b →
     ∃ steps, move_sequence get_neighbors_adjacent_swap b steps
              ∧ last steps = Some b'
              ∧ Z.of_nat (length steps) < Z.max (N b) (M b))
  ∧ (∀ b', b' ∈ get_neighbors_adjacent_swap b →
           b' ∈ get_neighbors_block_shift b).
Proof.
  intros Hv. split.
  - intros b' (d & j & Hj & ->)%elem_of_get_neighbors_block_shift; [|done].
    exists (shifted b d <$> seq 1 j). split_and!.
    + apply (shifted_adjacent_moves b d j 0); [done|lia].
    + destruct j as [|j]; [lia|].
      rewrite seq_S, fmap_app.
      change (shifted b d <$> [(1 + j)%nat]) with [shifted b d (S j)].
      by rewrite last_snoc.
    + rewrite length_fmap, length_seq.
      pose proof (run_length_bound b d Hv). lia.
  - intros b' (d & Hd & ->)%elem_of_adjacent_swap.
    destruct (valid_Board_coords b Hv) as [Hr Hc].
    assert (1 <= run_length b d)%nat as Hrun.
    { apply Nat2Z.inj_le. apply (walk_in_bounds b d 1); [done..|lia|].
      unfold walk_row, walk_col. by rewrite !Z.mul_1_l. }
    apply elem_of_get_neighbors_block_shift; [done|].
    exists d, 1%nat. split; [lia|].
    by destruct (shifted_succ b d 0 Hv Hrun) as [-> _].
Qed.

Lemma block_shift_as_adjacent_swaps_witness :
  adjacent_successor board_3x3 Up ∈ get_neighbors_block_shift board_3x3.
Proof.
  apply (proj2 (block_shift_as_adjacent_swaps board_3x3 eq_refl)).
  apply elem_of_adjacent_swap. exists Up. split; reflexivity.
Defined.

Section RowBoard.

Lemma at_seqZ (m i : Z) : 0 <= i < m → at_ (seqZ 0 m) i = i.
Proof.
  intros Hi. apply at_lookup; [lia|].
  replace i with (0 + Z.of_nat (Z.to_nat i)) at 2 by lia.
  apply lookup_seqZ. lia.
Qed.

Lemma row_board_valid (m : Z) : 1 <= m → valid_Board (row_board m) = true.
Proof.
  intros Hm. apply valid_Board_spec. unfold blank_idx. simpl.
  rewrite length_seqZ. split_and!; try lia.
  - intros v Hv. apply elem_of_seqZ. lia.
  - apply at_seqZ. lia.
Qed.

Lemma cell_sum_row (m : Z) (n : nat) : ∀ k : Z,
  1 <= k → k + Z.of_nat n <= m →
  cell_sum m k (seqZ k (Z.of_nat n)) = Z.of_nat n.
Proof.
  induction n as [|n IH]; intros k Hk Hm; [done|].
  rewrite Nat2Z.inj_succ, seqZ_cons by lia. simpl.
  replace (Z.pred (Z.succ (Z.of_nat n))) with (Z.of_nat n) by lia.
  replace (Z.succ k) with (k + 1) by lia.
  rewrite IH by lia. unfold cell_term, tile_distance.
  destruct (Z.eqb_spec k 0); [lia|].
  rewrite !Z.quot_small, !Z.rem_small by lia. lia.
Qed.

Lemma row_board_distance (m : Z) :
  1 <= m → get_manhattan_distance (row_board m) = m - 1.
Proof.
  intros Hm. rewrite manhattan_cell_sum by (simpl; rewrite length_seqZ; lia).
  simpl. rewrite seqZ_cons by lia. simpl.
  replace (Z.pred m) with (Z.of_nat (Z.to_nat (m - 1))) by lia.
  rewrite cell_sum_row by lia. unfold cell_term. simpl. lia.
Qed.

End RowBoard.

(** **** Property X9.  The Manhattan distance is not admissible for the
    BlockShift cost model: on the row of width [m] whose blank stands in
    front of the tiles [1 .. m-1] it is [m - 1], while one block shift
    solves the board. *)
Theorem manhattan_overestimates_block_shift (m : Z) :
  2 <= m →
  valid_Board (row_board m) = true
  ∧ get_manhattan_distance (row_board m) = m - 1
  ∧ ∃ g, g ∈ get_neighbors_block_shift (row_board m) ∧ is_goal g = true.
Proof.
  intros Hm. assert (valid_Board (row_board m) = true) as Hv
    by (apply row_board_valid; lia).
  split_and!; [done|apply row_board_distance; lia|].
  assert (Z.of_nat (run_length (row_board m) Right) = m - 1) as Hrun.
  { rewrite run_length_spec; simpl; lia. }
  set (j := run_length (row_board m) Right) in *.
  exists (shifted (row_board m) Right j). split.
  - apply elem_of_get_neighbors_block_shift; [done|].
    exists Right, j. split; [lia|done].
  - destruct (shifted_spec (row_board m) Right j Hv ltac:(lia))
      as ((HNs&HMs&_)&_&Hzero&Hshift&_).
    assert (∀ i : Z, walk_idx (row_board m) Right i = i) as Hwalk.
    { intros i. unfold walk_idx, walk_row, walk_col. simpl. lia. }
    apply is_goal_at. rewrite HNs, HMs. simpl. split.
    + intros i Hi. pose proof (Hshift i ltac:(lia)) as Hi'.
      rewrite !Hwalk in Hi'. rewrite Hi'. simpl. apply at_seqZ. lia.
    + rewrite Hwalk in Hzero.
      by replace (1 * m - 1) with (Z.of_nat j) by lia.
Qed.

Lemma manhattan_overestimates_block_shift_witness :
  get_manhattan_distance (row_board 4) = 3
  ∧ ∃ g, g ∈ get_neighbors_block_shift (row_board 4) ∧ is_goal g = true.
Proof.
  destruct (manhattan_overestimates_block_shift 4) as (_ & Hd & Hg); [lia|].
  by split.
Defined.

(** * Coverage of the cost table, and what an empty answer means *)

Section HeldStates.

Implicit Types (ws : list WorkerState) (w : WorkerState) (st cur : State).

Lemma elem_of_held_states ws st :
  st ∈ held_states ws ↔ ∃ t : nat, ws !! t = Some (Holding st).
Proof.
  unfold held_states. rewrite list_elem_of_bind. split.
  - intros (w & Hst & [t Ht]%list_elem_of_lookup).
    destruct w; try by apply elem_of_nil in Hst.
    apply list_elem_of_singleton in Hst as ->. by exists t.
  - intros [t Ht]. exists (Holding st). split.
    + by apply list_elem_of_singleton.
    + by eapply list_elem_of_lookup_2.
Qed.

Lemma held_states_insert_keep ws (t : nat) w w' st :
  ws !! t = Some w → w ≠ Holding st →
  st ∈ held_states ws → st ∈ held_states (<[t := w']> ws).
Proof.
  intros Ht Hw [i Hi]%elem_of_held_states. apply elem_of_held_states.
  exists i. rewrite list_lookup_insert_ne; [done|]. intros ->. congruence.
Qed.

Lemma held_states_split ws (t : nat) w w' st :
  ws !! t = Some w → st ∈ held_states ws →
  w = Holding st ∨ st ∈ held_states (<[t := w']> ws).
Proof.
  intros Ht [i Hi]%elem_of_held_states.
  destruct (decide (i = t)) as [->|Hne]; [left; congruence|right].
  apply elem_of_held_states. exists i. by rewrite list_lookup_insert_ne.
Qed.

Lemma held_states_insert_new ws (t : nat) w cur :
  ws !! t = Some w → cur ∈ held_states (<[t := Holding cur]> ws).
Proof.
  intros Ht. apply elem_of_held_states. exists t.
  apply list_lookup_insert_eq. by eapply lookup_lt_Some.
Qed.

Lemma held_states_all_exited ws :
  forallb has_exited ws = true → held_states ws = [].
Proof.
  induction ws as [|w ws IH]; [done|]. simpl.
  intros [Hw Hws]%andb_true_iff. destruct w; try done. by apply IH.
Qed.

End HeldStates.

Section Coverage.

Context (type : SolveType) (K : Z) (initial_board : Board)
  (time_limit_seconds : Z).
Hypothesis K_range : 1 <= K < 2 ^ 64.
Hypothesis no_time_limit : time_limit_seconds <= 0.

Implicit Types (s : PuzzleSolver) (cur st : State) (ws : list WorkerState)
  (n b : Board) (extra : list State).

Lemma set_insert_nonempty (x : Solution) (l : list Solution) :
  set_insert x l ≠ [].
Proof.
  destruct l as [|y l]; simpl; [done|].
  destruct (Solution_ltb x y); [done|]. by destruct (Solution_ltb y x).
Qed.

Lemma no_time_limit_reached (elapsed : Z) :
  time_limit_reached time_limit_seconds elapsed = false.
Proof.
  unfold time_limit_reached.
  destruct (Z.gtb_spec time_limit_seconds 0); [lia|done].
Qed.

Lemma is_pruned_none cur s :
  found_solutions s = [] → is_pruned K cur s = false.
Proof.
  intros Hf. unfold is_pruned. rewrite Hf.
  rewrite nth_best_cost_few by (simpl; lia). done.
Qed.

Lemma closed_at_mono s s' k g :
  (∀ k' g', g_costs s !! k' = Some g' →
            ∃ g'', g_costs s' !! k' = Some g'' ∧ g'' <= g') →
  closed_at type initial_board s k g → closed_at type initial_board s' k g.
Proof.
  intros Hmono (b & Hb & Hok & Hgoal & Hn). exists b. split_and!; try done.
  intros n Hin. destruct (Hn n Hin) as (g' & Hg' & Hle).
  destruct (Hmono _ _ Hg') as (g'' & ? & ?). exists g''. split; [done|lia].
Qed.

Lemma foldl_relax_g_costs cur (ns : list Board) : ∀ s k g,
  g_costs s !! k = Some g →
  ∃ g', g_costs (foldl (relax cur) s ns) !! k = Some g' ∧ g' <= g.
Proof.
  induction ns as [|n ns IH]; intros s k g Hk; simpl; [by exists g|].
  destruct (relax_g_costs cur s n k g Hk) as (g1 & Hg1 & Hle & _).
  destruct (IH _ _ _ Hg1) as (g2 & ? & ?). exists g2. split; [done|lia].
Qed.

Lemma relax_neighbor cur s n :
  ∃ g', g_costs (relax cur s n) !! tiles n = Some g' ∧ g' <= g_cost cur + 1.
Proof.
  unfold relax. destruct (g_costs s !! tiles n) as [stored|] eqn:Hn.
  - destruct (Z.ltb_spec (g_cost cur + 1) stored); simpl.
    + rewrite lookup_insert_eq. eexists. split; [done|lia].
    + exists stored. split; [done|lia].
  - simpl. rewrite lookup_insert_eq. eexists. split; [done|lia].
Qed.

Lemma foldl_relax_neighbors cur (ns : list Board) : ∀ s n,
  n ∈ ns →
  ∃ g', g_costs (foldl (relax cur) s ns) !! tiles n = Some g'
        ∧ g' <= g_cost cur + 1.
Proof.
  induction ns as [|n0 ns IH]; intros s n Hn; [by apply elem_of_nil in Hn|].
  simpl. apply elem_of_cons in Hn as [->|Hn]; [|by apply IH].
  destruct (relax_neighbor cur s n0) as (g1 & Hg1 & Hle).
  destruct (foldl_relax_g_costs cur ns _ _ _ Hg1) as (g2 & ? & ?).
  exists g2. split; [done|lia].
Qed.

Lemma relax_covered extra cur s n :
  covered_except type initial_board extra cur s →
  covered_except type initial_board extra cur (relax cur s n).
Proof.
  intros Hcov k g Hk.
  assert (∀ k' g', g_costs s !! k' = Some g' →
            ∃ g'', g_costs (relax cur s n) !! k' = Some g'' ∧ g'' <= g')
    as Hmono.
  { intros k' g' Hk'.
    destruct (relax_g_costs cur s n k' g' Hk') as (g''&?&?&_). eauto. }
  assert (∀ st, st ∈ open_set s → st ∈ open_set (relax cur s n)) as Hopen.
  { intros st Hst. unfold relax.
    destruct (g_costs s !! tiles n); [destruct (_ <? _)|]; simpl; try done;
      apply elem_of_cons; by right. }
  assert (g_costs s !! k = Some g
          ∨ (k = tiles n ∧ g = g_cost cur + 1
             ∧ new_State n (g_cost cur + 1) (get_manhattan_distance n)
               ∈ open_set (relax cur s n))) as [Heq|(-> & -> & Hnew)].
  { unfold relax in *.
    destruct (g_costs s !! tiles n) as [stored|] eqn:Hn;
      [destruct (Z.ltb_spec (g_cost cur + 1) stored)|]; simpl in *;
      try (by left).
    - destruct (decide (k = tiles n)) as [->|Hne].
      + rewrite lookup_insert_eq in Hk. injection Hk as <-. right.
        split_and!; try done. apply elem_of_cons; by left.
      + rewrite lookup_insert_ne in Hk by done. by left.
    - destruct (decide (k = tiles n)) as [->|Hne].
      + rewrite lookup_insert_eq in Hk. injection Hk as <-. right.
        split_and!; try done. apply elem_of_cons; by left.
      + rewrite lookup_insert_ne in Hk by done. by left. }
  - destruct (Hcov k g Heq) as [(st & Hst & ? & ?)|[Hc|?]].
    + left. exists st. split_and!; try done.
      apply elem_of_app in Hst as [?|?]; apply elem_of_app;
        [left; by apply Hopen|by right].
    + right; left. by eapply closed_at_mono.
    + by right; right.
  - left. eexists. split_and!; [apply elem_of_app; left; exact Hnew|done..].
Qed.

Lemma foldl_relax_covered extra cur (ns : list Board) : ∀ s,
  covered_except type initial_board extra cur s →
  covered_except type initial_board extra cur (foldl (relax cur) s ns).
Proof.
  induction ns as [|n ns IH]; intros s Hs; simpl; [done|].
  by apply IH, relax_covered.
Qed.

Lemma covered_frame ws s ws' s' :
  covered type initial_board (ws, s) →
  g_costs s' = g_costs s →
  (∀ st, st ∈ open_set s ++ held_states ws →
         g_costs s !! tiles (board st) = Some (g_cost st) →
         st ∈ open_set s' ++ held_states ws') →
  covered type initial_board (ws', s').
Proof.
  intros Hcov Hg Hlive k g Hk. simpl in *. rewrite Hg in Hk.
  destruct (Hcov k g Hk) as [(st & Hst & <- & <-)|Hc].
  - left. exists st. split_and!; try done. by apply Hlive.
  - right. eapply closed_at_mono; [|exact Hc].
    intros k' g' Hk'. exists g'. by rewrite Hg.
Qed.

Lemma pool_step_covered c c' :
  search_inv type initial_board c → boards_valid initial_board c →
  pool_step type K initial_board time_limit_seconds c c' →
  found_solutions c'.2 = [] →
  covered type initial_board c → covered type initial_board c'.
Proof.
  intros Hinv Hbv Hstep Hfound Hcov.
  destruct Hstep as [ws s t w w' s' fuel elapsed Hw Hws]. simpl in *.
  destruct w as [|cur|]; simpl in Hws.
  - (* the loop condition *)
    assert (∀ st, st ∈ held_states ws →
                  st ∈ held_states (<[t := w']> ws)) as Hkeep.
    { intros st Hst.
      by destruct (held_states_split ws t Idle w' st Hw Hst). }
    destruct (terminate_search s).
    { injection Hws as <- <-. apply (covered_frame ws s); [done..|].
      intros st [?|?]%elem_of_app _; apply elem_of_app; auto. }
    destruct (try_pop (open_set s)) as [[cur rest]|] eqn:Epop.
    2:{ injection Hws as <- <-. apply (covered_frame ws s); [done..|].
        intros st [?|?]%elem_of_app _; apply elem_of_app; auto. }
    injection Hws as <- <-. apply try_pop_spec in Epop as [HP _].
    apply (covered_frame ws s); [done..|]. simpl.
    intros st [Hst|Hst]%elem_of_app _; apply elem_of_app.
    + rewrite HP in Hst. apply elem_of_cons in Hst as [->|Hst]; [right|by left].
      by eapply held_states_insert_new.
    + right. by destruct (held_states_split ws t Idle (Holding cur) st Hw Hst).
  - (* the loop body *)
    pose proof (held_states_lookup _ _ _ Hw) as Hcur.
    unfold worker_iteration in Hws.
    rewrite no_time_limit_reached in Hws.
    set (s1 := set_states_explored (states_explored s + 1) s) in *.
    destruct (is_pruned K cur s1) eqn:Hpr.
    { injection Hws as <- <-. simpl in Hfound.
      by rewrite (is_pruned_none cur s1) in Hpr. }
    destruct (is_stale cur s1) eqn:Hstale.
    { injection Hws as <- <-. apply (covered_frame ws s); [done..|]. simpl.
      intros st [Hst|Hst]%elem_of_app Hlive; apply elem_of_app; [by left|].
      destruct (held_states_split ws t _ Idle st Hw Hst) as [[= <-]|?];
        [|by right].
      unfold is_stale in Hstale. simpl in Hstale. rewrite Hlive in Hstale.
      rewrite Z.gtb_ltb, Z.ltb_lt in Hstale. lia. }
    destruct (is_goal (board cur)) eqn:Hgoal.
    { destruct (collect_solution fuel K initial_board cur s1) as [s2|] eqn:Hc;
        simpl in Hws; [|done].
      injection Hws as <- <-.
      apply collect_solution_found in Hc as (path & _ & Hf).
      rewrite Hf in Hfound. by apply set_insert_nonempty in Hfound. }
    injection Hws as <- <-.
    destruct Hinv as [_ Hst _ _]. destruct Hbv as [Hboards _ _]. simpl in *.
    assert (state_ok initial_board s cur) as ((g0 & Hg0 & Hle) & _)
      by (eapply Forall_forall in Hst; [done|apply elem_of_app; by right]).
    assert (board_ok initial_board (board cur)) as Hok.
    { eapply Forall_forall in Hboards; [exact Hboards|].
      apply elem_of_app; by right. }
    assert (g0 = g_cost cur) as ->.
    { unfold is_stale in Hstale. simpl in Hstale. rewrite Hg0 in Hstale.
      rewrite Z.gtb_ltb, Z.ltb_ge in Hstale. lia. }
    assert (covered_except type initial_board
              (held_states (<[t := Idle]> ws)) cur s1) as Hs1.
    { intros k g Hk. destruct (Hcov k g Hk) as [(st & Hin & <- & <-)|Hc].
      - apply elem_of_app in Hin as [Hin|Hin].
        + left. exists st. split_and!; try done. apply elem_of_app; by left.
        + destruct (held_states_split ws t _ Idle st Hw Hin) as [[= <-]|?].
          * by right; right.
          * left. exists st. split_and!; try done. apply elem_of_app; by right.
      - right; left. eapply closed_at_mono; [|exact Hc].
        intros k' g' Hk'. exists g'. split; [done|lia]. }
    pose proof (foldl_relax_covered _ cur
                  (get_neighbors type (board cur)) s1 Hs1) as Hfin.
    intros k g Hk. destruct (Hfin k g Hk) as [?|[?|[-> ->]]]; [by left|by right|].
    right. exists (board cur). split_and!; try done.
    intros n Hn. by apply foldl_relax_neighbors.
  - injection Hws as <- <-. by rewrite list_insert_id.
Qed.

End Coverage.

Section Completeness.

Context (type : SolveType) (K : Z) (initial_board : Board)
  (num_threads time_limit_seconds : Z).
Hypothesis initial_valid : valid_Board initial_board = true.
Hypothesis K_range : 1 <= K < 2 ^ 64.
Hypothesis no_time_limit : time_limit_seconds <= 0.

Implicit Types (s : PuzzleSolver) (cur st : State) (ws : list WorkerState)
  (n b : Board) (c : list WorkerState * PuzzleSolver).

Local Abbreviation step :=
  (pool_step type K initial_board time_limit_seconds).
Local Abbreviation reach :=
  (reachable type K initial_board num_threads time_limit_seconds).

(** What one step of the pool does to the solution set and the stop
    flag. *)
Lemma pool_step_found c c' :
  step c c' →
  found_solutions c'.2 = found_solutions c.2
  ∨ ∃ cur path fuel,
      cur ∈ held_states c.1 ∧ is_goal (board cur) = true
      ∧ is_stale cur c.2 = false ∧ is_pruned K cur c.2 = false
      ∧ reconstruct_path fuel (came_from c.2) (board cur) initial_board
        = Some path
      ∧ found_solutions c'.2
        = set_insert (mkSolution (g_cost cur) path) (found_solutions c.2).
Proof.
  intros [ws s t w w' s' fuel elapsed Hw Hws]. simpl.
  destruct w as [|cur|]; simpl in Hws.
  - destruct (terminate_search s); [injection Hws as <- <-; by left|].
    destruct (try_pop (open_set s)) as [[cur rest]|];
      injection Hws as <- <-; by left.
  - unfold worker_iteration in Hws.
    rewrite (no_time_limit_reached _ no_time_limit) in Hws.
    set (s1 := set_states_explored (states_explored s + 1) s) in *.
    destruct (is_pruned K cur s1) eqn:Hpr; [injection Hws as <- <-; by left|].
    destruct (is_stale cur s1) eqn:Hstale; [injection Hws as <- <-; by left|].
    destruct (is_goal (board cur)) eqn:Hgoal.
    + destruct (collect_solution fuel K initial_board cur s1) as [s2|] eqn:Hc;
        simpl in Hws; [|done].
      injection Hws as <- <-.
      apply collect_solution_found in Hc as (path & Hpath & Hf).
      right. exists cur, path, fuel. split_and!; try done.
      by eapply held_states_lookup.
    + injection Hws as <- <-. left. unfold expand.
      by rewrite relax_found_solutions.
  - injection Hws as <- <-. by left.
Qed.

Lemma pool_step_found_nil c c' :
  step c c' → found_solutions c'.2 = [] → found_solutions c.2 = [].
Proof.
  intros [->|(cur & path & fuel & _ & _ & _ & _ & _ & ->)]%pool_step_found;
    [done|].
  by intros ?%set_insert_nonempty.
Qed.

Lemma initial_covered ws :
  covered type initial_board (ws, initial_solver initial_board).
Proof.
  intros k g Hk. simpl in Hk.
  apply lookup_singleton_Some in Hk as [<- <-]. left. simpl.
  eexists. split_and!; [by apply elem_of_cons; left|done..].
Qed.

Lemma reach_step c c' : reach c → step c c' → reach c'.
Proof. intros Hc Hstep. by eapply rtc_r. Qed.

Lemma reachable_covered c :
  reach c → found_solutions c.2 = [] → covered type initial_board c.
Proof.
  intros Hreach.
  enough (reach c ∧ (found_solutions c.2 = [] →
                     covered type initial_board c)) as [_ H]; [done|].
  eapply (rtc_ind_r
            (fun c => reach c ∧
                      (found_solutions c.2 = [] →
                       covered type initial_board c)));
    [| |exact Hreach].
  - split; [apply rtc_refl|]. intros _. apply initial_covered.
  - intros c1 c2 Hc1 Hstep [Hr1 IH]. split; [by eapply reach_step|].
    intros Hnil.
    eapply (pool_step_covered type K initial_board time_limit_seconds);
      try done.
    + by eapply reachable_inv.
    + by eapply reachable_boards_valid.
    + apply IH. by eapply pool_step_found_nil.
Qed.

(** Along a sequence of moves that starts at a board the cost table
    knows with a [g] of at most [i], either there is a live state on a
    board of the sequence whose [g] does not exceed the number of moves up
    to that board, or the sequence does not end in a goal. *)
Lemma covered_path c (steps : list Board) : ∀ b (i g : Z),
  covered type initial_board c →
  board_ok initial_board b →
  g_costs c.2 !! tiles b = Some g → g <= i →
  move_sequence (get_neighbors type) b steps →
  (∃ (j : nat) bj rest st,
      board_ok initial_board bj
      ∧ move_sequence (get_neighbors type) bj rest
      ∧ default bj (last rest) = default b (last steps)
      ∧ length steps = (j + length rest)%nat
      ∧ st ∈ open_set c.2 ++ held_states c.1
      ∧ tiles (board st) = tiles bj
      ∧ g_cost st <= i + Z.of_nat j)
  ∨ is_goal (default b (last steps)) = false.
Proof.
  induction steps as [|b1 steps IH]; intros b i g Hcov Hok Hg Hle Hmoves.
  - destruct (Hcov _ _ Hg) as [(st & Hst & Ht & Hgc)|(b0 & Ht & Hok0 & Hgoal & _)].
    + left. exists 0%nat, b, [], st. split_and!; try done. lia.
    + right. simpl.
      replace b with b0; [done|].
      destruct Hok0 as [? [??]], Hok as [? [??]].
      apply valid_Board_eq; try done. split; congruence.
  - destruct Hmoves as [Hb1 Hmoves].
    destruct (Hcov _ _ Hg) as [(st & Hst & Ht & Hgc)|(b0 & Ht & Hok0 & Hgoal & Hn)].
    + left. exists 0%nat, b, (b1 :: steps), st.
      split_and!; try done; lia.
    + assert (b0 = b) as ->.
      { destruct Hok0 as [? [??]], Hok as [? [??]].
        apply valid_Board_eq; try done. split; congruence. }
      destruct (Hn b1 Hb1) as (g1 & Hg1 & Hle1).
      assert (board_ok initial_board b1) as Hok1
        by (by eapply get_neighbors_ok).
      assert (default b (last (b1 :: steps)) = default b1 (last steps)) as Hlast.
      { rewrite last_cons. by destruct (last steps). }
      destruct (IH b1 (i + 1) g1 Hcov Hok1 Hg1 ltac:(lia) Hmoves)
        as [(j & bj & rest & st & ? & ? & ? & Hlen & ? & ? & ?)|Hng].
      * left. exists (S j), bj, rest, st. split_and!; try done.
        -- congruence.
        -- simpl. lia.
        -- lia.
      * right. by rewrite Hlast.
Qed.

Lemma pool_step_active c c' : step c c' → pool_active c → pool_active c'.
Proof.
  intros [ws s t w w' s' fuel elapsed Hw Hws] Hact. unfold pool_active.
  simpl in *.
  assert (t < length ws)%nat as Ht by (by eapply lookup_lt_Some).
  assert (has_exited w' = false →
          ∃ w0, w0 ∈ <[t := w']> ws ∧ has_exited w0 = false) as Hnew.
  { intros Hw'. exists w'. split; [|done].
    eapply list_elem_of_lookup_2. by apply list_lookup_insert_eq. }
  destruct w as [|cur|]; simpl in Hws.
  - destruct (terminate_search s) eqn:Hterm.
    { injection Hws as <- <-. right; by left. }
    destruct (try_pop (open_set s)) as [[cur rest]|] eqn:Hpop.
    + injection Hws as <- <-. left. by apply Hnew.
    + injection Hws as <- <-. right; right.
      by destruct (open_set s).
  - destruct (worker_iteration _ _ _ _ _ _ _ _) as [[[] s2]|] eqn:Hit;
      [| |done]; injection Hws as <- <-.
    + left. by apply Hnew.
    + apply worker_iteration_cases in Hit
        as [[_ ->]|[[? _]|[(?&_)|(?&_)]]]; try done.
      right; by left.
  - injection Hws as <- <-. by rewrite list_insert_id.
Qed.

Lemma reachable_active c : 1 <= num_threads → reach c → pool_active c.
Proof.
  intros Hn Hreach.
  eapply (rtc_ind_r (fun c => pool_active c)); [| |exact Hreach].
  - left. exists Idle. split; [|done].
    destruct (Z.to_nat num_threads) as [|k] eqn:Hk; [lia|].
    simpl. by apply elem_of_cons; left.
  - intros c1 c2 _ Hstep IH. by eapply pool_step_active.
Qed.

(** The stop flag is only raised with a solution in the set. *)
Lemma reachable_terminate c :
  reach c → terminate_search c.2 = true → found_solutions c.2 ≠ [].
Proof.
  intros Hreach.
  eapply (rtc_ind_r (fun c => terminate_search c.2 = true →
                              found_solutions c.2 ≠ []));
    [| |exact Hreach]; [done|].
  intros c1 c2 _ Hstep IH Hterm Hnil.
  pose proof (pool_step_found_nil _ _ Hstep Hnil) as Hnil1.
  destruct Hstep as [ws s t w w' s' fuel elapsed Hw Hws]. simpl in *.
  destruct (terminate_search s) eqn:Hts; [by apply IH|].
  destruct w as [|cur|]; simpl in Hws.
  - rewrite Hts in Hws.
    destruct (try_pop (open_set s)) as [[cur rest]|];
      injection Hws as <- <-; simpl in Hterm; congruence.
  - unfold worker_iteration in Hws.
    rewrite (no_time_limit_reached _ no_time_limit) in Hws.
    set (s1 := set_states_explored (states_explored s + 1) s) in *.
    destruct (is_pruned K cur s1);
      [injection Hws as <- <-; simpl in Hterm; congruence|].
    destruct (is_stale cur s1);
      [injection Hws as <- <-; simpl in Hterm; congruence|].
    destruct (is_goal (board cur)).
    + destruct (collect_solution fuel K initial_board cur s1) as [s2|] eqn:Hc;
        simpl in Hws; [|done].
      injection Hws as <- <-.
      apply collect_solution_found in Hc as (path & _ & Hf).
      rewrite Hf in Hnil. by apply set_insert_nonempty in Hnil.
    + injection Hws as <- <-.
      assert (terminate_search (expand type cur s1) = terminate_search s1)
        as Hexp.
      { unfold expand. generalize (get_neighbors type (board cur)).
        intros ns. generalize s1. induction ns as [|n ns IHns]; intros s0;
          simpl; [done|].
        rewrite IHns. unfold relax.
        destruct (g_costs s0 !! tiles n); [destruct (_ <? _)|]; done. }
      rewrite Hexp in Hterm. simpl in Hterm. congruence.
  - injection Hws as <- <-. congruence.
Qed.

End Completeness.

(** **** Property X11.  With no time limit, at least one worker and [K >=
    1], on a valid board: when [solve] returns no solution, no sequence of
    moves of the active cost model leads from the initial board to the goal.
    *)
Theorem solve_empty_unsolvable (fuel : nat) (initial_board : Board)
    (type : SolveType) (K num_threads time_limit_seconds : Z)
    (clock : Z → Z) (schedule : list nat) (steps : list Board) :
  valid_Board initial_board = true →
  1 <= K < 2 ^ 64 → 1 <= num_threads → time_limit_seconds <= 0 →
  solve fuel initial_board type K num_threads time_limit_seconds clock
    schedule = Some [] →
  move_sequence (get_neighbors type) initial_board steps →
  is_goal (default initial_board (last steps)) = false.
Proof.
  intros Hv HK Hn Htl Hsolve Hmoves.
  unfold solve in Hsolve.
  destruct (run_schedule _ _ _ _ _ _ _ _ _) as [[ws s]|] eqn:Hrun; [|done].
  destruct (forallb has_exited ws) eqn:Hexit; [|done].
  injection Hsolve as Hr.
  apply run_schedule_steps in Hrun.
  assert (found_solutions s = []) as Hnil.
  { rewrite extract_solutions_take in Hr.
    destruct (found_solutions s) as [|sol l]; [done|].
    replace (Z.to_nat (K - 0)) with (S (Z.to_nat (K - 1))) in Hr by lia.
    done. }
  pose proof (reachable_covered type K initial_board num_threads
                time_limit_seconds Hv HK Htl (ws, s) Hrun Hnil) as Hcov.
  pose proof (reachable_active type K initial_board num_threads
                time_limit_seconds (ws, s) Hn Hrun) as Hact.
  pose proof (reachable_terminate type K initial_board num_threads
                time_limit_seconds Htl (ws, s) Hrun) as Hterm.
  pose proof (reachable_inv _ _ _ _ _ _ Hrun) as [[Hg0 _ _ _] _ _ _].
  simpl in *.
  assert (open_set s = []) as Hopen.
  { destruct Hact as [(w & Hw & Hne)|[Ht|?]]; [|by apply Hterm in Ht|done].
    rewrite forallb_forall in Hexit.
    apply list_elem_of_In, Hexit in Hw. congruence. }
  assert (board_ok initial_board initial_board) as Hok0
    by (split; [done|by split]).
  destruct (covered_path type initial_board (ws, s) steps initial_board 0 0
              Hcov Hok0 Hg0 ltac:(lia) Hmoves)
    as [(j & bj & rest & st & _ & _ & _ & _ & Hst & _)|Hng]; [|done].
  simpl in Hst. rewrite Hopen, held_states_all_exited in Hst by done.
  by apply elem_of_nil in Hst.
Qed.

(** * The first solution of a single worker *)

Section States.

Context (type : SolveType) (K : Z) (initial_board : Board)
  (num_threads time_limit_seconds : Z).

Implicit Types (s : PuzzleSolver) (cur st : State) (ws : list WorkerState)
  (n b : Board) (c : list WorkerState * PuzzleSolver).

Local Abbreviation step :=
  (pool_step type K initial_board time_limit_seconds).
Local Abbreviation reach :=
  (reachable type K initial_board num_threads time_limit_seconds).

Lemma foldl_relax_open_set (P : State → Prop) cur (ns : list Board) :
  (∀ n g, P (new_State n g (get_manhattan_distance n))) →
  ∀ s, Forall P (open_set s) → Forall P (open_set (foldl (relax cur) s ns)).
Proof.
  intros HP. induction ns as [|n ns IH]; intros s Hs; simpl; [done|].
  apply IH. unfold relax.
  destruct (g_costs s !! tiles n); [destruct (_ <? _)|]; simpl; try done;
    by apply Forall_cons.
Qed.

(** A property of the states that [State(board, g, h)] establishes when
    [h] is the Manhattan distance holds of every state on the frontier
    or held by a worker. *)
Lemma pool_step_states (P : State → Prop) c c' :
  (∀ n g, P (new_State n g (get_manhattan_distance n))) →
  step c c' →
  Forall P (open_set c.2 ++ held_states c.1) →
  Forall P (open_set c'.2 ++ held_states c'.1).
Proof.
  intros HP [ws s t w w' s' fuel elapsed Hw Hws] Hall. simpl in *.
  pose proof Hall as [Hq Hh]%Forall_app.
  destruct w as [|cur|]; simpl in Hws.
  - destruct (terminate_search s).
    { injection Hws as <- <-. by apply Forall_held_insert. }
    destruct (try_pop (open_set s)) as [[cur rest]|] eqn:Epop.
    2:{ injection Hws as <- <-. by apply Forall_held_insert. }
    injection Hws as <- <-. apply try_pop_spec in Epop as [HPm _].
    rewrite HPm in Hq. apply Forall_cons in Hq as [Hcur Hrest]. simpl.
    apply Forall_held_insert; [by apply Forall_app|]. by intros st [= <-].
  - destruct (worker_iteration _ _ _ _ _ _ _ _) as [[ctl s2]|] eqn:Hit;
      [|done].
    assert (w' = match ctl with Break => Exited | Continue => Idle end
            ∧ s' = s2) as [-> ->] by (by destruct ctl; injection Hws as <- <-).
    assert (∀ st, match ctl with Break => Exited | Continue => Idle end
                  = Holding st → P st) as Hnone by (by destruct ctl).
    apply Forall_held_insert; [|done]. apply Forall_app. split; [|done].
    destruct (worker_iteration_cases _ _ _ _ _ _ _ _ _ _ Hit)
      as [[_ ->]|[[_ ->]|[(_&_&Hc)|(_&_&->)]]]; try done.
    + apply collect_solution_tables in Hc as (_ & _ & ->). done.
    + by apply foldl_relax_open_set.
  - injection Hws as <- <-. by rewrite list_insert_id.
Qed.

Lemma reachable_states (P : State → Prop) c :
  (∀ n g, P (new_State n g (get_manhattan_distance n))) →
  reach c → Forall P (open_set c.2 ++ held_states c.1).
Proof.
  intros HP Hreach.
  eapply (rtc_ind_r (fun c => Forall P (open_set c.2 ++ held_states c.1)));
    [| |exact Hreach].
  - simpl. rewrite held_states_replicate_Idle. apply Forall_singleton, HP.
  - intros c1 c2 _ Hstep IH. by eapply pool_step_states.
Qed.

Lemma new_State_wf n (g : Z) :
  state_wf (new_State n g (get_manhattan_distance n)).
Proof. done. Qed.

Lemma pool_step_held_is_best c c' :
  step c c' → held_is_best c → held_is_best c'.
Proof.
  intros [ws s t w w' s' fuel elapsed Hw Hws] [Hlen Hbest]. simpl in *.
  destruct ws as [|w0 [|]]; try done.
  destruct t as [|t]; [|done]. simpl in Hw. injection Hw as ->.
  split; [done|]. simpl. intros cur Hcur.
  destruct w' as [|cur'|]; try by apply elem_of_nil in Hcur.
  simpl in Hcur. apply list_elem_of_singleton in Hcur as ->.
  destruct w as [|cur|]; simpl in Hws.
  - destruct (terminate_search s); [done|].
    destruct (try_pop (open_set s)) as [[cur rest]|] eqn:Epop; [|done].
    injection Hws as <- <-. by apply try_pop_spec in Epop as [_ ?].
  - by destruct (worker_iteration _ _ _ _ _ _ _ _) as [[[] s2]|].
  - done.
Qed.

End States.

Section Optimal.

Context (type : SolveType) (K : Z) (initial_board : Board)
  (time_limit_seconds : Z).
Hypothesis initial_valid : valid_Board initial_board = true.
Hypothesis K_range : 1 <= K < 2 ^ 64.
Hypothesis no_time_limit : time_limit_seconds <= 0.
Hypothesis admissible : ∀ b steps,
  valid_Board b = true →
  move_sequence (get_neighbors type) b steps →
  is_goal (default b (last steps)) = true →
  get_manhattan_distance b <= Z.of_nat (length steps).

Implicit Types (s : PuzzleSolver) (cur st : State) (ws : list WorkerState)
  (n b : Board) (c : list WorkerState * PuzzleSolver).

Local Abbreviation step :=
  (pool_step type K initial_board time_limit_seconds).
Local Abbreviation reach :=
  (reachable type K initial_board 1 time_limit_seconds).

Lemma reachable_held_is_best c : reach c → held_is_best c.
Proof.
  intros Hreach.
  eapply (rtc_ind_r (fun c => held_is_best c)); [| |exact Hreach].
  - split; [done|]. simpl. intros cur Hcur. by apply elem_of_nil in Hcur.
  - intros c1 c2 _ Hstep IH. by eapply pool_step_held_is_best.
Qed.

Lemma elem_of_set_insert_old (x sol : Solution) (l : list Solution) :
  sol ∈ l → sol ∈ set_insert x l.
Proof.
  induction l as [|y l IH]; intros Hsol; [by apply elem_of_nil in Hsol|].
  simpl. destruct (Solution_ltb x y); [by apply elem_of_cons; right|].
  destruct (Solution_ltb y x); [|done].
  apply elem_of_cons in Hsol as [->|Hsol]; apply elem_of_cons; auto.
Qed.

(** The goal state a single worker pops while the solution set is empty
    carries the least cost. *)
Lemma first_goal_optimal c cur :
  reach c → found_solutions c.2 = [] →
  cur ∈ held_states c.1 → is_goal (board cur) = true →
  cost_optimal type initial_board (g_cost cur).
Proof.
  intros Hreach Hnil Hcur Hgoal steps Hmoves Hend.
  pose proof (reachable_covered type K initial_board 1 time_limit_seconds
                initial_valid K_range no_time_limit c Hreach Hnil) as Hcov.
  pose proof (reachable_held_is_best c Hreach) as [_ Hbest].
  pose proof (reachable_states type K initial_board 1 time_limit_seconds
                state_wf c new_State_wf Hreach) as Hwf.
  pose proof (reachable_boards_valid _ _ _ _ initial_valid _ _ Hreach)
    as [Hboards _ _].
  pose proof (reachable_inv _ _ _ _ _ _ Hreach) as [[Hg0 _ _ _] _ _ _].
  assert (board_ok initial_board initial_board) as Hok0
    by (split; [done|by split]).
  destruct (covered_path type initial_board c steps initial_board 0 0
              Hcov Hok0 Hg0 ltac:(lia) Hmoves)
    as [(j & bj & rest & st & Hokj & Hrest & Hlast & Hlen & Hst & Ht & Hg)|Hng];
    [|congruence].
  assert (state_wf cur) as [Hhc Hfc].
  { eapply Forall_forall in Hwf; [exact Hwf|]. apply elem_of_app. by right. }
  pose proof (manhattan_nonneg (board cur)) as Hh0.
  assert (state_wf st) as [Hhs Hfs] by (by eapply Forall_forall in Hwf).
  assert (board st = bj) as Hbj.
  { assert (board_ok initial_board (board st)) as [? [??]].
    { by eapply Forall_forall in Hboards; [|exact Hst]. }
    destruct Hokj as [? [??]].
    apply valid_Board_eq; try done. split; congruence. }
  assert (get_manhattan_distance bj <= Z.of_nat (length rest)) as Hadm.
  { apply admissible; [by destruct Hokj|done|by rewrite Hlast]. }
  assert (served_before cur st ∨ st = cur) as [Hserved| ->].
  { apply elem_of_app in Hst as [Hst|Hst].
    - left. specialize (Hbest cur Hcur).
      by eapply Forall_forall in Hbest.
    - destruct c as [ws s]. simpl in *.
      pose proof (reachable_held_is_best _ Hreach) as [Hlen1 _].
      simpl in Hlen1. destruct ws as [|w [|]]; try done.
      destruct w; try by apply elem_of_nil in Hst.
      simpl in Hst, Hcur. apply list_elem_of_singleton in Hst, Hcur.
      right. congruence. }
  - unfold served_before in Hserved. rewrite Hbj in Hhs. lia.
  - lia.
Qed.

Lemma reachable_optimal c :
  reach c →
  found_solutions c.2 = []
  ∨ ∃ sol, sol ∈ found_solutions c.2
           ∧ cost_optimal type initial_board (cost sol).
Proof.
  intros Hreach.
  enough (reach c ∧
          (found_solutions c.2 = []
           ∨ ∃ sol, sol ∈ found_solutions c.2
                    ∧ cost_optimal type initial_board (cost sol)))
    as [_ H]; [done|].
  eapply (rtc_ind_r
            (fun c => reach c ∧
               (found_solutions c.2 = []
                ∨ ∃ sol, sol ∈ found_solutions c.2
                         ∧ cost_optimal type initial_board (cost sol))));
    [| |exact Hreach].
  - split; [apply rtc_refl|by left].
  - intros c1 c2 _ Hstep [Hr1 IH]. split; [by eapply rtc_r|].
    destruct (pool_step_found type K initial_board time_limit_seconds
                no_time_limit c1 c2 Hstep)
      as [->|(cur & path & fuel & Hcur & Hgoal & _ & _ & _ & ->)]; [done|].
    right. destruct IH as [Hnil|(sol & Hsol & Hopt)].
    + rewrite Hnil. exists (mkSolution (g_cost cur) path). split.
      * by apply list_elem_of_singleton.
      * by apply (first_goal_optimal c1).
    + exists sol. split; [by apply elem_of_set_insert_old|done].
Qed.

Lemma moves_in_move_sequence (steps : list Board) : ∀ b,
  moves_in type (b :: steps) → move_sequence (get_neighbors type) b steps.
Proof.
  induction steps as [|b1 steps IH]; intros b; [done|].
  intros [Hb1 Hrest]. split; [done|by apply IH].
Qed.

Lemma Sorted_head_cost (found : list Solution) (sol0 sol : Solution) :
  Sorted Solution_lt found → head found = Some sol0 → sol ∈ found →
  cost sol0 <= cost sol.
Proof.
  intros Hs%Sorted_StronglySorted Hhead Hsol; [|apply Solution_lt_trans].
  destruct found as [|x l]; [done|]. injection Hhead as ->.
  apply StronglySorted_inv in Hs as [_ Hall].
  apply elem_of_cons in Hsol as [->|Hsol]; [lia|].
  eapply Forall_forall in Hall; [|exact Hsol].
  apply Solution_lt_spec in Hall. lia.
Qed.

End Optimal.

(** **** Property X12.  With one worker and no time limit, on a valid board
    under the AdjacentSwap cost model: the first solution [solve] returns
    has the least cost, no sequence of moves from the initial board to the
    goal is shorter, and its cost is the number of moves of its path. *)
Theorem single_worker_first_solution_optimal (fuel : nat)
    (initial_board : Board) (K time_limit_seconds : Z) (clock : Z → Z)
    (schedule : list nat) (r : list Solution) (sol0 : Solution) :
  valid_Board initial_board = true →
  1 <= K < 2 ^ 64 → time_limit_seconds <= 0 →
  solve fuel initial_board AdjacentSwap K 1 time_limit_seconds clock
    schedule = Some r →
  head r = Some sol0 →
  (∀ steps, move_sequence get_neighbors_adjacent_swap initial_board steps →
            is_goal (default initial_board (last steps)) = true →
            cost sol0 <= Z.of_nat (length steps))
  ∧ cost sol0 = Z.of_nat (length (path sol0)) - 1.
Proof.
  intros Hv HK Htl Hsolve Hhead.
  assert (sol0 ∈ r) as Hin by (destruct r; [done|]; injection Hhead as ->;
                                by apply elem_of_cons; left).
  destruct (returned_solutions_sound _ _ _ _ _ _ _ _ _ sol0 Hsolve Hin)
    as (Hfirst & (g & Hlastp & Hgoal) & _ & Hmoves & Hlen).
  specialize (Hmoves Hv).
  apply solve_reachable in Hsolve as (ws & s & Hreach & ->).
  rewrite extract_solutions_take in Hhead.
  assert (head (found_solutions s) = Some sol0) as Hhead'.
  { destruct (found_solutions s) as [|x l]; [by rewrite take_nil in Hhead|].
    by destruct (Z.to_nat (K - 0)). }
  pose proof (reachable_inv _ _ _ _ _ _ Hreach) as [_ _ Hsorted _].
  simpl in Hsorted.
  assert (cost_optimal AdjacentSwap initial_board (cost sol0)) as Hopt.
  { destruct (reachable_optimal AdjacentSwap K initial_board
                time_limit_seconds Hv HK Htl
                (fun b steps => move_sequence_distance steps b)
                (ws, s) Hreach) as [Hnil|(sol & Hsol & Hopt)]; simpl in *.
    - by rewrite Hnil in Hhead'.
    - intros steps Hsteps Hend.
      pose proof (Sorted_head_cost _ _ _ Hsorted Hhead' Hsol).
      specialize (Hopt steps Hsteps Hend). lia. }
  split; [exact Hopt|].
  destruct (path sol0) as [|b steps] eqn:Hpath; [done|].
  injection Hfirst as ->.
  apply (moves_in_move_sequence AdjacentSwap) in Hmoves.
  assert (default initial_board (last steps) = g) as Hg.
  { rewrite last_cons in Hlastp. destruct (last steps); by injection Hlastp. }
  specialize (Hopt steps Hmoves ltac:(by rewrite Hg)).
  simpl in Hlen |- *. lia.
Qed.

(** * Time limit, degenerate arguments, a solved board *)

Section TimeLimit.

Context (type : SolveType) (K : Z) (initial_board : Board)
  (time_limit_seconds : Z) (clock : Z → Z) (fuel : nat).
Hypothesis limit_set : 0 < time_limit_seconds.
Hypothesis expired : ∀ n, time_limit_seconds <= clock n.

Lemma expired_time_limit_reached (n : Z) :
  time_limit_reached time_limit_seconds (clock n) = true.
Proof.
  unfold time_limit_reached. specialize (expired n).
  apply andb_true_iff. split; [apply Z.gtb_lt|apply Z.geb_le]; lia.
Qed.

Lemma run_schedule_expired (schedule : list nat) : ∀ ws s ws' s',
  run_schedule fuel type K initial_board time_limit_seconds clock schedule
    ws s = Some (ws', s') →
  found_solutions s = [] → found_solutions s' = [].
Proof.
  induction schedule as [|t schedule IH]; intros ws s ws' s' Hrun Hnil.
  - by injection Hrun as <- <-.
  - simpl in Hrun. destruct (ws !! t) as [w|]; [|done].
    destruct (worker_step _ _ _ _ _ _ _ _) as [[w1 s1]|] eqn:Hstep; [|done].
    apply (IH _ _ _ _ Hrun).
    destruct w as [|cur|]; simpl in Hstep.
    + destruct (terminate_search s); [by injection Hstep as <- <-|].
      destruct (try_pop (open_set s)) as [[cur rest]|];
        by injection Hstep as <- <-.
    + rewrite worker_iteration_time_limit in Hstep
        by apply expired_time_limit_reached.
      by injection Hstep as <- <-.
    + by injection Hstep as <- <-.
Qed.

End TimeLimit.

(** **** Property X13.  When the time limit has passed by the time the
    workers first read the clock, [solve] returns no solution, whatever the
    board. *)
Theorem expired_time_limit_no_solution (fuel : nat) (initial_board : Board)
    (type : SolveType) (K num_threads time_limit_seconds : Z)
    (clock : Z → Z) (schedule : list nat) (r : list Solution) :
  0 < time_limit_seconds →
  (∀ n, time_limit_seconds <= clock n) →
  solve fuel initial_board type K num_threads time_limit_seconds clock
    schedule = Some r →
  r = [].
Proof.
  intros Hlimit Hclock Hsolve. unfold solve in Hsolve.
  destruct (run_schedule _ _ _ _ _ _ _ _ _) as [[ws s]|] eqn:Hrun; [|done].
  destruct (forallb has_exited ws); [|done]. injection Hsolve as <-.
  by rewrite (run_schedule_expired _ _ _ _ _ _ Hlimit Hclock _ _ _ _ _ Hrun).
Qed.

Lemma expired_time_limit_no_solution_witness :
  solve 1 solved_2x2 AdjacentSwap 1 1 5 (fun _ => 7) [0; 0]%nat = Some [].
Proof.
  pose proof (expired_time_limit_no_solution 1 solved_2x2 AdjacentSwap 1 1 5
                (fun _ => 7) [0; 0]%nat) as H.
  destruct (solve 1 solved_2x2 AdjacentSwap 1 1 5 (fun _ => 7) [0; 0]%nat)
    as [r|] eqn:Hr; [|discriminate Hr].
  f_equal. apply H; [lia|intros _; lia|reflexivity].
Defined.

(** **** Property X14.  [solve] with no worker to start, or asked for a
    negative number of solutions, returns the empty vector. *)
Theorem solve_degenerate (fuel : nat) (initial_board : Board)
    (type : SolveType) (K num_threads time_limit_seconds : Z)
    (clock : Z → Z) (schedule : list nat) (r : list Solution) :
  num_threads <= 0 ∨ K < 0 →
  solve fuel initial_board type K num_threads time_limit_seconds clock
    schedule = Some r →
  r = [] ∧ (num_threads <= 0 → schedule = []).
Proof.
  intros Hdeg Hsolve. unfold solve in Hsolve.
  destruct (run_schedule _ _ _ _ _ _ _ _ _) as [[ws s]|] eqn:Hrun; [|done].
  destruct (forallb has_exited ws); [|done]. injection Hsolve as <-.
  assert (num_threads <= 0 → schedule = [] ∧ found_solutions s = [])
    as Hnone.
  { intros Hn. replace (Z.to_nat num_threads) with 0%nat in Hrun by lia.
    destruct schedule as [|t schedule]; [|done].
    by injection Hrun as <- <-. }
  split; [|by intros [? _]%Hnone].
  destruct Hdeg as [[_ ->]%Hnone|HK]; [done|].
  rewrite extract_solutions_take.
  replace (Z.to_nat (K - 0)) with 0%nat by lia. done.
Qed.

Lemma solve_degenerate_witness :
  solve 0 board_2x2 AdjacentSwap 1 0 0 (fun _ => 0) [] = Some [].
Proof.
  pose proof (solve_degenerate 0 board_2x2 AdjacentSwap 1 0 0 (fun _ => 0) [])
    as H.
  destruct (solve 0 board_2x2 AdjacentSwap 1 0 0 (fun _ => 0) [])
    as [r|] eqn:Hr; [|discriminate Hr].
  f_equal. apply H; [left; lia|reflexivity].
Defined.

Section SolvedBoard.

Context (type : SolveType) (K : Z) (initial_board : Board)
  (num_threads time_limit_seconds : Z).
Hypothesis initial_goal : is_goal initial_board = true.
Hypothesis K_range : 1 <= K < 2 ^ 64.
Hypothesis no_time_limit : time_limit_seconds <= 0.

Implicit Types (s : PuzzleSolver) (cur st : State) (ws : list WorkerState)
  (c : list WorkerState * PuzzleSolver).

Local Abbreviation step :=
  (pool_step type K initial_board time_limit_seconds).
Local Abbreviation reach :=
  (reachable type K initial_board num_threads time_limit_seconds).
Local Abbreviation st0 := (initial_state initial_board).
Local Abbreviation sol0 := (trivial_solution initial_board).

Lemma reconstruct_path_initial (fuel : nat) parents :
  reconstruct_path (S fuel) parents initial_board initial_board
  = Some [initial_board].
Proof.
  unfold reconstruct_path. simpl. unfold Board_eqb.
  by rewrite bool_decide_eq_true_2.
Qed.

Lemma set_insert_trivial_again :
  set_insert sol0 [sol0] = [sol0].
Proof.
  simpl. unfold Solution_ltb. simpl.
  by rewrite path_ltb_irrefl.
Qed.

Lemma initial_state_f_cost : f_cost st0 = 0.
Proof.
  unfold initial_state. simpl. by rewrite is_goal_distance.
Qed.

(** The loop body on the initial state: it is collected, or, with one
    solution asked for and already there, pruned. *)
Lemma worker_iteration_initial (fuel : nat) (elapsed : Z) s ctl s' :
  g_costs s !! tiles initial_board = Some 0 →
  found_solutions s = [] ∨ found_solutions s = [sol0] →
  worker_iteration fuel type K initial_board time_limit_seconds elapsed
    st0 s = Some (ctl, s') →
  ctl = Continue ∧ open_set s' = open_set s
  ∧ found_solutions s' = [sol0].
Proof.
  intros Hg Hfound. unfold worker_iteration.
  rewrite (no_time_limit_reached _ no_time_limit).
  set (s1 := set_states_explored (states_explored s + 1) s).
  destruct (is_pruned K st0 s1) eqn:Hpr.
  { intros [= <- <-]. destruct Hfound as [Hnil|Hone]; [|done].
    by rewrite (is_pruned_none K K_range st0 s1) in Hpr. }
  assert (is_stale st0 s1 = false) as ->.
  { unfold is_stale. simpl. by rewrite Hg. }
  simpl. rewrite initial_goal. unfold collect_solution. simpl.
  destruct fuel as [|fuel]; [done|].
  rewrite reconstruct_path_initial. simpl.
  assert (set_insert {| cost := 0; path := [initial_board] |}
            (found_solutions s) = [sol0]) as Hins.
  { destruct Hfound as [->| ->]; [done|apply set_insert_trivial_again]. }
  rewrite Hins.
  destruct (size_ge _ _); intros [= <- <-]; done.
Qed.

Lemma Forall_holds_insert ws (t : nat) w' :
  Forall (holds_initial initial_board) ws →
  holds_initial initial_board w' →
  Forall (holds_initial initial_board) (<[t := w']> ws).
Proof. intros. by apply Forall_insert. Qed.

Lemma pool_step_solved c c' :
  g_costs c.2 !! tiles initial_board = Some 0 →
  step c c' → solved_phase initial_board c → solved_phase initial_board c'.
Proof.
  intros Hg Hstep Hphase.
  destruct Hstep as [ws s t w w' s' fuel elapsed Hw Hws]. simpl in *.
  assert (t < length ws)%nat as Ht by (by eapply lookup_lt_Some).
  destruct Hphase as [(Hopen & Hfound & Hterm & Hidle)
                     |[(Hopen & Hfound & Hterm & [t' Ht'] & Hhold)
                      |(Hopen & Hfound & Hhold)]]; simpl in *.
  - (* on the frontier *)
    assert (w = Idle) as ->.
    { eapply Forall_forall in Hidle; [exact Hidle|].
      by eapply list_elem_of_lookup_2. }
    simpl in Hws. rewrite Hterm, Hopen in Hws. simpl in Hws.
    injection Hws as <- <-. right; left. simpl. split_and!; try done.
    + exists t. by apply list_lookup_insert_eq.
    + apply Forall_holds_insert; [|by intros st [= <-]].
      eapply Forall_impl; [exact Hidle|]. by intros w ->.
  - (* in the hands of a worker *)
    destruct w as [|cur|]; simpl in Hws.
    + rewrite Hterm, Hopen in Hws. simpl in Hws. injection Hws as <- <-.
      right; left. simpl. split_and!; try done.
      * exists t'. rewrite list_lookup_insert_ne; [done|]. intros ->.
        congruence.
      * by apply Forall_holds_insert.
    + assert (cur = st0) as ->.
      { eapply Forall_forall in Hhold; [by apply Hhold|].
        by eapply list_elem_of_lookup_2. }
      destruct (worker_iteration _ _ _ _ _ _ _ _) as [[ctl s2]|] eqn:Hit;
        [|done].
      apply worker_iteration_initial in Hit as (-> & Ho & Hf); [|done|by left].
      injection Hws as <- <-. right; right. simpl. split_and!; try congruence.
      by apply Forall_holds_insert.
    + injection Hws as <- <-. right; left. simpl. split_and!; try done.
      * exists t'. rewrite list_lookup_insert_ne; [done|]. intros ->.
        congruence.
      * by apply Forall_holds_insert.
  - (* collected *)
    right; right. destruct w as [|cur|]; simpl in Hws.
    + rewrite Hopen in Hws. simpl in Hws.
      destruct (terminate_search s); injection Hws as <- <-; simpl;
        (split_and!; [done..|by apply Forall_holds_insert]).
    + assert (cur = st0) as ->.
      { eapply Forall_forall in Hhold; [by apply Hhold|].
        by eapply list_elem_of_lookup_2. }
      destruct (worker_iteration _ _ _ _ _ _ _ _) as [[ctl s2]|] eqn:Hit;
        [|done].
      apply worker_iteration_initial in Hit as (-> & Ho & Hf); [|done|by right].
      injection Hws as <- <-. simpl. split_and!; try congruence.
      by apply Forall_holds_insert.
    + injection Hws as <- <-. simpl. split_and!; try done.
      by apply Forall_holds_insert.
Qed.

Lemma reachable_solved c : reach c → solved_phase initial_board c.
Proof.
  intros Hreach.
  enough (reach c ∧ solved_phase initial_board c) as [_ H]; [done|].
  eapply (rtc_ind_r (fun c => reach c ∧ solved_phase initial_board c));
    [| |exact Hreach].
  - split; [apply rtc_refl|]. left. simpl. split_and!; try done.
    by apply Forall_replicate.
  - intros c1 c2 _ Hstep [Hr1 IH]. split; [by eapply rtc_r|].
    eapply pool_step_solved; [|done..].
    by pose proof (reachable_inv _ _ _ _ _ _ Hr1) as [[? _ _ _] _ _ _].
Qed.

Lemma reachable_length c : reach c → length c.1 = Z.to_nat num_threads.
Proof.
  intros Hreach.
  eapply (rtc_ind_r (fun c => length c.1 = Z.to_nat num_threads));
    [| |exact Hreach].
  - simpl. by rewrite length_replicate.
  - intros c1 c2 _ [ws s t w w' s' fuel elapsed Hw Hws] IH. simpl in *.
    by rewrite length_insert.
Qed.

(** Once the loop condition fails, the workers that test it leave one
    after the other. *)
Lemma run_schedule_exit (fuel : nat) (clock : Z → Z) s (k : nat) :
  terminate_search s = true ∨ open_set s = [] →
  ∀ i : nat,
    run_schedule fuel type K initial_board time_limit_seconds clock
      (seq i k) (replicate i Exited ++ replicate k Idle) s
    = Some (replicate (i + k) Exited, s).
Proof.
  intros Hstop. induction k as [|k IH]; intros i.
  - simpl. by rewrite app_nil_r, Nat.add_0_r.
  - simpl seq. simpl run_schedule.
    rewrite lookup_app_r by (by rewrite length_replicate).
    rewrite length_replicate, Nat.sub_diag. simpl.
    assert ((if terminate_search s then Some (Exited, s)
             else match try_pop (open_set s) with
                  | Some (current_state, rest) =>
                      Some (Holding current_state, set_open_set rest s)
                  | None => Some (Exited, s)
                  end) = Some (Exited, s)) as ->.
    { destruct Hstop as [-> | ->]; [done|]. by destruct (terminate_search s). }
    replace (<[i := Exited]> (replicate i Exited ++ Idle :: replicate k Idle))
      with (replicate (S i) Exited ++ replicate k Idle).
    + rewrite IH. by replace (S i + k)%nat with (i + S k)%nat by lia.
    + rewrite insert_app_r_alt by (by rewrite length_replicate).
      rewrite length_replicate, Nat.sub_diag.
      rewrite replicate_S_end, <- app_assoc. done.
Qed.

End SolvedBoard.

(** **** Property X15.  On a board that is already at the goal, with no time
    limit, at least one worker and [K >= 1], [solve] returns exactly one
    solution: cost [0], the path the initial board alone. Every schedule
    under which [solve] returns gives it, and the schedule in which the
    first worker pops and collects before the workers leave is one. *)
Theorem solve_goal_board (fuel : nat) (initial_board : Board)
    (type : SolveType) (K num_threads time_limit_seconds : Z)
    (clock : Z → Z) :
  is_goal initial_board = true →
  1 <= K < 2 ^ 64 → 1 <= num_threads → time_limit_seconds <= 0 →
  (∀ schedule r,
     solve fuel initial_board type K num_threads time_limit_seconds clock
       schedule = Some r →
     r = [mkSolution 0 [initial_board]])
  ∧ solve (S fuel) initial_board type K num_threads time_limit_seconds clock
      (first_worker_schedule num_threads)
    = Some [mkSolution 0 [initial_board]].
Proof.
  intros Hgoal HK Hn Htl.
  assert (extract_solutions K 0 [trivial_solution initial_board]
          = [mkSolution 0 [initial_board]]) as Hextract.
  { rewrite extract_solutions_take.
    replace (Z.to_nat (K - 0)) with (S (Z.to_nat (K - 1))) by lia.
    simpl. by rewrite take_nil. }
  split.
  - intros schedule r Hsolve. unfold solve in Hsolve.
    destruct (run_schedule _ _ _ _ _ _ _ _ _) as [[ws s]|] eqn:Hrun; [|done].
    destruct (forallb has_exited ws) eqn:Hexit; [|done].
    injection Hsolve as <-. apply run_schedule_steps in Hrun.
    rewrite forallb_forall in Hexit.
    pose proof (reachable_solved type K initial_board num_threads
                  time_limit_seconds Hgoal HK Htl (ws, s) Hrun) as Hphase.
    unfold solved_phase in Hphase. simpl in Hphase.
    destruct Hphase
      as [(_ & _ & _ & Hidle)|[(_ & _ & _ & [t Ht] & _)|(_ & -> & _)]];
      [| |done].
    + pose proof (reachable_active type K initial_board num_threads
                    time_limit_seconds (ws, s) Hn Hrun) as Hact.
      exfalso.
      pose proof (reachable_length type K initial_board num_threads
                    time_limit_seconds (ws, s) Hrun) as Hlen.
      simpl in Hlen.
      destruct ws as [|w ws]; [simpl in Hlen; lia|].
      apply Forall_cons in Hidle as [-> _].
      specialize (Hexit Idle ltac:(by left)). done.
    + apply list_elem_of_lookup_2, list_elem_of_In, Hexit in Ht. done.
  - unfold solve, first_worker_schedule.
    destruct (Z.to_nat num_threads) as [|n] eqn:Hnum; [lia|].
    change (replicate (S n) Idle) with (Idle :: replicate n Idle).
    simpl. unfold worker_iteration.
    rewrite (no_time_limit_reached _ Htl).
    rewrite (is_pruned_none K HK) by done.
    unfold is_stale. simpl. rewrite lookup_singleton_eq. simpl.
    rewrite Hgoal. unfold collect_solution. simpl.
    rewrite reconstruct_path_initial. simpl.
    set (s := if size_ge 1 K then _ else _).
    assert (found_solutions s = [trivial_solution initial_board]
            ∧ open_set s = []) as [Hfound Hopen].
    { unfold s. by destruct (size_ge 1 K). }
    assert (terminate_search s = true ∨ open_set s = []) as Hstop
      by (by right).
    assert ((if terminate_search s then Some (Exited, s)
             else match try_pop (open_set s) with
                  | Some (current_state, rest) =>
                      Some (Holding current_state, set_open_set rest s)
                  | None => Some (Exited, s)
                  end) = Some (Exited, s)) as ->.
    { rewrite Hopen. by destruct (terminate_search s). }
    simpl.
    change (Exited :: replicate n Idle)
      with (replicate 1 Exited ++ replicate n Idle).
    rewrite (run_schedule_exit type K initial_board time_limit_seconds
               (S fuel) clock s n Hstop 1).
    assert (forallb has_exited (replicate (1 + n) Exited) = true) as ->.
    { apply forallb_forall. by intros w [-> _]%list_elem_of_In%elem_of_replicate. }
    by rewrite Hfound, Hextract.
Qed.

(** * Invariants of a run *)

Section Progress.

Context (type : SolveType) (K : Z) (initial_board : Board)
  (time_limit_seconds : Z).

Implicit Types (s : PuzzleSolver) (cur st : State) (ws : list WorkerState)
  (c : list WorkerState * PuzzleSolver).

Lemma foldl_relax_flags cur (ns : list Board) : ∀ s,
  terminate_search (foldl (relax cur) s ns) = terminate_search s
  ∧ states_explored (foldl (relax cur) s ns) = states_explored s.
Proof.
  induction ns as [|n ns IH]; intros s; simpl; [done|].
  destruct (IH (relax cur s n)) as [-> ->]. unfold relax.
  destruct (g_costs s !! tiles n); [destruct (_ <? _)|]; done.
Qed.

Lemma pool_step_progress c c' :
  pool_step type K initial_board time_limit_seconds c c' →
  (∀ sol, sol ∈ found_solutions c.2 → sol ∈ found_solutions c'.2)
  ∧ (terminate_search c.2 = true → terminate_search c'.2 = true)
  ∧ states_explored c.2 <= states_explored c'.2.
Proof.
  intros [ws s t w w' s' fuel elapsed Hw Hws]. simpl.
  destruct w as [|cur|]; simpl in Hws.
  - destruct (terminate_search s) eqn:Hterm;
      [injection Hws as <- <-; simpl; split_and!; (done || lia)|].
    destruct (try_pop (open_set s)) as [[cur rest]|];
      injection Hws as <- <-; simpl; split_and!; (done || lia).
  - destruct (worker_iteration _ _ _ _ _ _ _ _) as [[ctl s2]|] eqn:Hit;
      [|done].
    assert (s' = s2) as -> by (by destruct ctl; injection Hws as <- <-).
    destruct (worker_iteration_cases _ _ _ _ _ _ _ _ _ _ Hit)
      as [[_ ->]|[[_ ->]|[(_&_&Hc)|(_&_&->)]]]; simpl.
    + split_and!; (done || lia).
    + split_and!; (done || lia).
    + unfold collect_solution in Hc.
      destruct (reconstruct_path _ _ _ _) as [path|]; [|done].
      injection Hc as <-. split_and!.
      * intros sol Hsol.
        destruct (size_ge _ _); simpl; by apply elem_of_set_insert_old.
      * intros Hterm. destruct (size_ge _ _); simpl; done.
      * destruct (size_ge _ _); simpl; lia.
    + unfold expand.
      destruct (foldl_relax_flags cur (get_neighbors type (board cur))
                  (set_states_explored (states_explored s + 1) s)) as [-> ->].
      rewrite relax_found_solutions. simpl. split_and!; (done || lia).
  - injection Hws as <- <-. simpl. split_and!; (done || lia).
Qed.

End Progress.

(** **** Property X18.  During a run, whatever the workers do, a collected
    solution stays in the solution set, the stop flag is never cleared and
    the count of explored states never goes down. *)
Theorem search_progress_monotone (type : SolveType) (K : Z)
    (initial_board : Board) (time_limit_seconds : Z)
    (c c' : list WorkerState * PuzzleSolver) :
  rtc (pool_step type K initial_board time_limit_seconds) c c' →
  (∀ sol, sol ∈ found_solutions c.2 → sol ∈ found_solutions c'.2)
  ∧ (terminate_search c.2 = true → terminate_search c'.2 = true)
  ∧ states_explored c.2 <= states_explored c'.2.
Proof.
  intros Hsteps.
  eapply (rtc_ind_r
            (fun c' =>
               (∀ sol, sol ∈ found_solutions c.2 → sol ∈ found_solutions c'.2)
               ∧ (terminate_search c.2 = true → terminate_search c'.2 = true)
               ∧ states_explored c.2 <= states_explored c'.2));
    [| |exact Hsteps].
  - split_and!; (done || lia).
  - intros c1 c2 _ Hstep (IH1 & IH2 & IH3).
    destruct (pool_step_progress _ _ _ _ _ _ Hstep) as (H1 & H2 & H3).
    split_and!; [auto|auto|lia].
Qed.

Lemma search_progress_monotone_witness :
  states_explored (initial_solver board_2x3)
  <= states_explored pruned_solver.
Proof.
  destruct (search_progress_monotone AdjacentSwap 1 board_2x3 1
              (replicate 2 Idle, initial_solver board_2x3)
              ([Holding held_goal_state; Idle], pruned_solver))
    as (_ & _ & H).
  - apply (run_schedule_steps AdjacentSwap 1 board_2x3 1 100 (fun _ => 0)
             pruned_schedule).
    vm_compute. reflexivity.
  - exact H.
Defined.







Lemma solve_empty_unsolvable_witness :
  is_goal (default unsolvable_2x2 (last [])) = false.
Proof.
  apply (solve_empty_unsolvable 5 unsolvable_2x2 AdjacentSwap 1 1 0
           (fun _ => 0) (single_worker_schedule 30) []).
  - reflexivity.
  - lia.
  - lia.
  - lia.
  - vm_compute. reflexivity.
  - exact I.
Defined.

Lemma single_worker_first_solution_optimal_witness :
  (∀ steps, move_sequence get_neighbors_adjacent_swap board_2x3 steps →
            is_goal (default board_2x3 (last steps)) = true →
            cost optimal_solution_2x3 <= Z.of_nat (length steps))
  ∧ cost optimal_solution_2x3
    = Z.of_nat (length (path optimal_solution_2x3)) - 1.
Proof.
  apply (single_worker_first_solution_optimal 100 board_2x3 1 0 (fun _ => 0)
           (single_worker_schedule 12) [optimal_solution_2x3]).
  - reflexivity.
  - lia.
  - lia.
  - vm_compute. reflexivity.
  - reflexivity.
Defined.

Lemma solve_goal_board_witness :
  solve 1 solved_2x2 BlockShift 1 2 0 (fun _ => 0) (first_worker_schedule 2)
  = Some [mkSolution 0 [solved_2x2]].
Proof.
  destruct (solve_goal_board 0 solved_2x2 BlockShift 1 2 0 (fun _ => 0))
    as [_ H]; [reflexivity|lia|lia|lia|exact H].
Defined.

(** **** Property X19.  The BlockShift search does not always return a
    cheapest solution, even with a single worker: on the board [3 5 1 / _ 4
    2] it returns a solution of cost [13], and [11] block shifts solve the
    board. *)
Theorem block_shift_search_not_optimal :
  ∃ sol,
    valid_Board shift_board_2x3 = true
    ∧ solve 100 shift_board_2x3 BlockShift 1 1 0 (fun _ => 0)
        (single_worker_schedule 200) = Some [sol]
    ∧ move_sequence get_neighbors_block_shift shift_board_2x3
        shift_short_path
    ∧ is_goal (default shift_board_2x3 (last shift_short_path)) = true
    ∧ Z.of_nat (length shift_short_path) < cost sol.
Proof.
  eexists. split_and!.
  - reflexivity.
  - vm_compute. reflexivity.
  - unfold shift_short_path. cbn [move_sequence].
    repeat split; apply list_elem_of_In; vm_compute; tauto.
  - reflexivity.
  - vm_compute. reflexivity.
Qed.

(** * Printing a board *)

Section Printing.

Implicit Types (b : Board) (s : string).

Lemma string_length_app s1 s2 :
  String.length (s1 +:+ s2) = (String.length s1 + String.length s2)%nat.
Proof. induction s1 as [|a s1 IH]; simpl; [done|]. by rewrite IH. Qed.

Lemma padded_width (v : Z) :
  0 <= v < 100 →
  String.length ((if v <? 10 then " " else "") +:+ to_string_int v) = 2%nat.
Proof.
  intros Hv.
  assert (forallb padded_width_ok (seqZ 0 100) = true) as Hall
    by (vm_compute; reflexivity).
  rewrite forallb_forall in Hall.
  apply Nat.eqb_eq, (Hall v), list_elem_of_In, elem_of_seqZ. lia.
Qed.

Lemma valid_Board_cell b (r c : Z) :
  valid_Board b = true → 0 <= r < N b → 0 <= c < M b →
  0 <= at_ (tiles b) (r * M b + c) < N b * M b.
Proof.
  intros Hv Hr Hc.
  pose proof (valid_Board_Permutation b Hv) as Hperm.
  pose proof Hv as (HN&HM&Hlen&_)%valid_Board_spec.
  assert (at_ (tiles b) (r * M b + c) ∈ tiles b) as Hin.
  { eapply list_elem_of_lookup_2. apply lookup_at. nia. }
  set (x := at_ (tiles b) (r * M b + c)) in *.
  rewrite Hperm in Hin. apply elem_of_seqZ in Hin. lia.
Qed.

Lemma valid_Board_zero_cell b (r c : Z) :
  valid_Board b = true → 0 <= r < N b → 0 <= c < M b →
  at_ (tiles b) (r * M b + c) = 0 ↔ r = empty_row b ∧ c = empty_col b.
Proof.
  intros Hv Hr Hc.
  pose proof Hv as (HN&HM&Hlen&_&[Her Hec]&Hz)%valid_Board_spec. split.
  - intros Hzero. apply (valid_Board_zero_unique b _ Hv) in Hzero; [|nia].
    unfold blank_idx in Hzero.
    destruct (quot_rem_cell (M b) r c) as [Hq1 Hr1]; [lia..|].
    destruct (quot_rem_cell (M b) (empty_row b) (empty_col b)) as [Hq2 Hr2];
      [lia..|].
    rewrite Hzero, Hq2 in Hq1. rewrite Hzero, Hr2 in Hr1. done.
  - by intros [-> ->].
Qed.

(** The inner loops, over the first [k] columns of row [r]. *)
Lemma to_string_cells_length b (r : Z) (k : nat) : ∀ s,
  valid_Board b = true → N b * M b <= 100 →
  0 <= r < N b → Z.of_nat k <= M b →
  String.length (foldl (to_string_cell b r) s (seqZ 0 (Z.of_nat k)))
  = (String.length s + 3 * k)%nat.
Proof.
  induction k as [|k IH]; intros s Hv Hsmall Hr Hk; [simpl; lia|].
  rewrite seqZ_S, foldl_snoc, Z.add_0_l.
  unfold to_string_cell at 1.
  pose proof (valid_Board_cell b r (Z.of_nat k) Hv Hr ltac:(lia)) as Hcell.
  rewrite string_length_app.
  destruct (Z.eqb_spec (at_ (tiles b) (r * M b + Z.of_nat k)) 0).
  - rewrite string_length_app, IH by (done || lia). simpl. lia.
  - rewrite string_length_app, IH, padded_width by (done || lia). simpl. lia.
Qed.

Lemma print_board_cells_length b (r : Z) (k : nat) : ∀ s,
  valid_Board b = true → N b * M b <= 100 →
  0 <= r < N b → Z.of_nat k <= M b →
  String.length (foldl (print_board_cell b r) s (seqZ 0 (Z.of_nat k)))
  = (String.length s + 3 * k
     + if bool_decide (r = empty_row b ∧ (empty_col b < Z.of_nat k)%Z)
       then 1 else 0)%nat.
Proof.
  induction k as [|k IH]; intros s Hv Hsmall Hr Hk.
  { simpl. pose proof (valid_Board_coords b Hv).
    rewrite bool_decide_eq_false_2 by lia. lia. }
  rewrite seqZ_S, foldl_snoc, Z.add_0_l.
  unfold print_board_cell at 1.
  pose proof (valid_Board_cell b r (Z.of_nat k) Hv Hr ltac:(lia)) as Hcell.
  pose proof (valid_Board_zero_cell b r (Z.of_nat k) Hv Hr ltac:(lia)) as Hz.
  rewrite string_length_app, IH by (done || lia).
  destruct (Z.eqb_spec (at_ (tiles b) (r * M b + Z.of_nat k)) 0) as [He|Hne].
  - rewrite He. destruct (proj1 Hz He) as [-> Hcol].
    change (String.length (("  " +:+ to_string_int 0) +:+ " ")) with 4%nat.
    rewrite bool_decide_eq_false_2 by lia.
    rewrite bool_decide_eq_true_2 by lia. lia.
  - lazy beta iota. rewrite string_length_app, padded_width by lia.
    assert (¬ (r = empty_row b ∧ Z.of_nat k = empty_col b)) as Hno
      by (intros ?%Hz; done).
    simpl. repeat case_bool_decide; lia.
Qed.

Lemma to_string_rows_length b (k : nat) :
  valid_Board b = true → N b * M b <= 100 → Z.of_nat k <= N b →
  String.length (foldl (to_string_row b) "" (seqZ 0 (Z.of_nat k)))
  = (k * (3 * Z.to_nat (M b) + 1))%nat.
Proof.
  intros Hv Hsmall. induction k as [|k IH]; intros Hk; [done|].
  pose proof Hv as (HN&HM&_)%valid_Board_spec.
  rewrite seqZ_S, foldl_snoc, Z.add_0_l.
  unfold to_string_row at 1. rewrite string_length_app.
  replace (M b) with (Z.of_nat (Z.to_nat (M b))) at 1 by lia.
  rewrite to_string_cells_length, IH by (done || lia). simpl. lia.
Qed.

Lemma print_board_rows_length b (k : nat) :
  valid_Board b = true → N b * M b <= 100 → Z.of_nat k <= N b →
  String.length (foldl (print_board_row b) "" (seqZ 0 (Z.of_nat k)))
  = (k * (3 * Z.to_nat (M b) + 1)
     + if bool_decide (empty_row b < Z.of_nat k)%Z then 1 else 0)%nat.
Proof.
  intros Hv Hsmall.
  destruct (valid_Board_coords b Hv) as [Her Hec].
  induction k as [|k IH]; intros Hk.
  { simpl. by rewrite bool_decide_eq_false_2 by lia. }
  pose proof Hv as (HN&HM&_)%valid_Board_spec.
  rewrite seqZ_S, foldl_snoc, Z.add_0_l.
  unfold print_board_row at 1. rewrite string_length_app.
  replace (M b) with (Z.of_nat (Z.to_nat (M b))) at 1 by lia.
  rewrite print_board_cells_length, IH by (done || lia). simpl.
  repeat case_bool_decide; lia.
Qed.

End Printing.

(** **** Property X20.  For a valid board with at most [100] cells,
    [Board::to_string] gives every tile three characters and every row a
    line feed, [N * (3 * M + 1)] characters in all; [print_board] of
    [main.cpp], which prints the blank as two spaces and the digit [0],
    gives one character more. *)
Theorem to_string_length (b : Board) :
  valid_Board b = true → N b * M b <= 100 →
  Z.of_nat (String.length (to_string b)) = N b * (3 * M b + 1)
  ∧ String.length (print_board b) = S (String.length (to_string b)).
Proof.
  intros Hv Hsmall.
  pose proof Hv as (HN&HM&_)%valid_Board_spec.
  destruct (valid_Board_coords b Hv) as [Her Hec].
  unfold to_string, print_board.
  replace (N b) with (Z.of_nat (Z.to_nat (N b))) at 1 3 4 by lia.
  rewrite to_string_rows_length, print_board_rows_length by (done || lia).
  rewrite bool_decide_eq_true_2 by lia. split; [nia|lia].
Qed.

Lemma to_string_length_witness :
  Z.of_nat (String.length (to_string board_3x3)) = 3 * (3 * 3 + 1)
  ∧ String.length (print_board board_3x3)
    = S (String.length (to_string board_3x3)).
Proof. apply (to_string_length board_3x3); [reflexivity|simpl; lia]. Defined.

(** * Termination of the worker pool *)

Section Measure.

Implicit Types (m : gmap (list Z) Z) (s : PuzzleSolver) (cur st : State)
  (ws : list WorkerState) (n b : Board)
  (c : list WorkerState * PuzzleSolver).

Lemma measure_lt_wf : well_founded measure_lt.
Proof.
  intros [[a b] c]. revert b c.
  induction (lt_wf a) as [a _ IHa]. intros b.
  induction (lt_wf b) as [b _ IHb]. intros c.
  induction (lt_wf c) as [c _ IHc].
  constructor. intros [[a' b'] c'] [H|[[H1 H]|(H1 & H2 & H)]]; simpl in *.
  - by apply IHa.
  - subst. by apply IHb.
  - subst. by apply IHc.
Qed.

Lemma sum_g_insert_new m k (g : Z) :
  m !! k = None → sum_g (<[k := g]> m) = g + sum_g m.
Proof.
  intros Hk. unfold sum_g. rewrite map_fold_insert_L; [done| |done].
  intros. lia.
Qed.

Lemma sum_g_update m k (g stored : Z) :
  m !! k = Some stored → sum_g (<[k := g]> m) = sum_g m - stored + g.
Proof.
  intros Hk.
  rewrite <- (insert_delete_eq m k g), sum_g_insert_new
    by apply lookup_delete_eq.
  rewrite <- (insert_delete_id m k stored) at 2 by done.
  rewrite sum_g_insert_new by apply lookup_delete_eq. lia.
Qed.

Lemma sum_g_nonneg m :
  (∀ k g, m !! k = Some g → 0 <= g) → 0 <= sum_g m.
Proof.
  induction m as [|k g m Hk IH] using map_ind; intros Hall; [done|].
  rewrite sum_g_insert_new by done.
  pose proof (Hall k g ltac:(by rewrite lookup_insert_eq)).
  assert (0 <= sum_g m); [|lia].
  apply IH. intros k' g' Hk'. apply (Hall k').
  rewrite lookup_insert_ne; [done|]. intros ->. congruence.
Qed.

Lemma pool_weight_insert ws (t : nat) w w' :
  ws !! t = Some w →
  (workers_weight (<[t := w']> ws) + worker_weight w
   = workers_weight ws + worker_weight w')%nat.
Proof.
  revert t. induction ws as [|w0 ws IH]; intros [|t] Ht; simpl in *;
    try done.
  - injection Ht as ->. lia.
  - specialize (IH t Ht). lia.
Qed.

Lemma board_space_elem (initial_board n : Board) :
  board_ok initial_board n →
  tiles n ∈ board_space (N initial_board) (M initial_board).
Proof.
  intros [Hv [HN HM]]. unfold board_space.
  apply elem_of_list_to_set, permutations_Permutation.
  rewrite <- HN, <- HM. symmetry. by apply valid_Board_Permutation.
Qed.

End Measure.

Section Termination.

Context (type : SolveType) (K : Z) (initial_board : Board)
  (time_limit_seconds : Z).

Implicit Types (s : PuzzleSolver) (cur st : State) (ws : list WorkerState)
  (n b : Board) (c : list WorkerState * PuzzleSolver).

Local Abbreviation space :=
  (board_space (N initial_board) (M initial_board)).
Local Abbreviation nonneg_costs s :=
  (∀ k g, g_costs s !! k = Some g → 0 <= g).
Local Abbreviation unchanged s' s :=
  (g_costs s' = g_costs s ∧ open_set s' = open_set s).

Lemma size_space_insert (m : gmap (list Z) Z) (k : list Z) (g : Z) :
  k ∈ space → m !! k = None →
  (size (space ∖ dom (<[k := g]> m)) < size (space ∖ dom m))%nat.
Proof.
  intros Hk Hnone%not_elem_of_dom. apply subset_size.
  rewrite dom_insert_L. split.
  - apply elem_of_subseteq. intros x.
    rewrite !elem_of_difference, elem_of_union. tauto.
  - intros Hsub. apply elem_of_subseteq in Hsub. specialize (Hsub k).
    rewrite !elem_of_difference, elem_of_union, elem_of_singleton in Hsub.
    tauto.
Qed.

Lemma size_space_update (m : gmap (list Z) Z) (k : list Z) (g stored : Z) :
  m !! k = Some stored →
  size (space ∖ dom (<[k := g]> m)) = size (space ∖ dom m).
Proof.
  intros Hk. rewrite dom_insert_L.
  rewrite (subseteq_union_1_L {[k]} (dom m)); [done|].
  apply singleton_subseteq_l, elem_of_dom. eauto.
Qed.

Lemma relax_tables cur s n :
  0 <= g_cost cur → nonneg_costs s → board_ok initial_board n →
  nonneg_costs (relax cur s n)
  ∧ (tables_lt initial_board (relax cur s n) s
     ∨ unchanged (relax cur s n) s).
Proof.
  intros Hcur Hnn Hok. unfold relax, tables_lt, undiscovered.
  destruct (g_costs s !! tiles n) as [stored|] eqn:Hn;
    [destruct (Z.ltb_spec (g_cost cur + 1) stored)|]; simpl.
  - assert (nonneg_costs
              (set_g_costs (<[tiles n := g_cost cur + 1]> (g_costs s)) s))
      as Hnn'.
    { intros k g. simpl. destruct (decide (k = tiles n)) as [->|Hne].
      - rewrite lookup_insert_eq. intros [= <-]. lia.
      - rewrite lookup_insert_ne by done. apply Hnn. }
    split; [exact Hnn'|]. left. right.
    split; [by eapply size_space_update|].
    pose proof (sum_g_nonneg _ Hnn') as Hsum. simpl in Hsum.
    rewrite (sum_g_update _ _ _ stored) in Hsum |- * by done. lia.
  - split; [done|by right].
  - split.
    + intros k g. destruct (decide (k = tiles n)) as [->|Hne].
      * rewrite lookup_insert_eq. intros [= <-]. lia.
      * rewrite lookup_insert_ne by done. apply Hnn.
    + left. left. apply size_space_insert; [by apply board_space_elem|done].
Qed.

Lemma tables_lt_trans s1 s2 s3 :
  tables_lt initial_board s1 s2 → tables_lt initial_board s2 s3 →
  tables_lt initial_board s1 s3.
Proof. unfold tables_lt. lia. Qed.

Lemma tables_lt_unchanged s1 s2 s3 :
  tables_lt initial_board s1 s2 → g_costs s2 = g_costs s3 →
  tables_lt initial_board s1 s3.
Proof. unfold tables_lt, undiscovered. by intros ? <-. Qed.

Lemma foldl_relax_tables cur (ns : list Board) : ∀ s,
  0 <= g_cost cur → nonneg_costs s → Forall (board_ok initial_board) ns →
  nonneg_costs (foldl (relax cur) s ns)
  ∧ (tables_lt initial_board (foldl (relax cur) s ns) s
     ∨ unchanged (foldl (relax cur) s ns) s).
Proof.
  induction ns as [|n ns IH]; intros s Hcur Hnn Hns; simpl.
  { split; [done|by right]. }
  apply Forall_cons in Hns as [Hn Hns].
  destruct (relax_tables cur s n Hcur Hnn Hn) as [Hnn1 Hstep].
  destruct (IH (relax cur s n) Hcur Hnn1 Hns) as [Hnn2 Hrest].
  split; [done|].
  destruct Hrest as [Hlt|[Hg Ho]], Hstep as [Hlt'|[Hg' Ho']].
  - left. by eapply tables_lt_trans.
  - left. by eapply tables_lt_unchanged.
  - left. unfold tables_lt, undiscovered in *. by rewrite Hg.
  - right. split; congruence.
Qed.

Lemma measure_tables_lt ws s ws' s' :
  tables_lt initial_board s' s →
  measure_lt (pool_measure initial_board (ws', s'))
    (pool_measure initial_board (ws, s)).
Proof. unfold tables_lt, measure_lt, pool_measure. simpl. lia. Qed.

Lemma measure_weight_lt ws s ws' s' :
  g_costs s' = g_costs s →
  (pool_weight (ws', s') < pool_weight (ws, s))%nat →
  measure_lt (pool_measure initial_board (ws', s'))
    (pool_measure initial_board (ws, s)).
Proof.
  intros Hg Hw. unfold measure_lt, pool_measure, undiscovered. simpl.
  rewrite Hg. right; right. done.
Qed.

(** Every step of a worker that is still in its loop lowers the
    measure. *)
Lemma active_step_measure c c' :
  search_inv type initial_board c → boards_valid initial_board c →
  active_step type K initial_board time_limit_seconds c c' →
  measure_lt (pool_measure initial_board c') (pool_measure initial_board c).
Proof.
  intros Hinv Hbv [Hstep Hne].
  destruct Hstep as [ws s t w w' s' fuel elapsed Hw Hws].
  pose proof (pool_weight_insert ws t w w' Hw) as Hweight.
  destruct w as [|cur|]; simpl in Hws.
  - (* the loop condition *)
    destruct (terminate_search s).
    { injection Hws as <- <-. apply measure_weight_lt; [done|].
      unfold pool_weight. simpl in *. lia. }
    destruct (try_pop (open_set s)) as [[cur rest]|] eqn:Epop.
    2:{ injection Hws as <- <-. apply measure_weight_lt; [done|].
        unfold pool_weight. simpl in *. lia. }
    injection Hws as <- <-. apply try_pop_spec in Epop as [HP _].
    apply Permutation_length in HP.
    apply measure_weight_lt; [done|].
    unfold pool_weight. simpl in *. lia.
  - (* the loop body *)
    destruct Hinv as [[_ _ _ Hentry] Hst _ _].
    destruct Hbv as [Hboards _ _]. simpl in *.
    pose proof (held_states_lookup _ _ _ Hw) as Hcur.
    assert (state_ok initial_board s cur) as ((g0 & Hg0 & Hle) & _)
      by (eapply Forall_forall in Hst; [done|apply elem_of_app; by right]).
    assert (board_ok initial_board (board cur)) as Hok.
    { eapply Forall_forall in Hboards; [exact Hboards|].
      apply elem_of_app; by right. }
    destruct (Hentry _ _ Hg0) as [Hg0' _].
    destruct (worker_iteration _ _ _ _ _ _ _ _) as [[ctl s2]|] eqn:Hit;
      [|done].
    assert (w' = match ctl with Break => Exited | Continue => Idle end
            ∧ s' = s2) as [-> ->]
      by (by destruct ctl; injection Hws as <- <-).
    assert (worker_weight
              (match ctl with Break => Exited | Continue => Idle end) <= 1)%nat
      as Hw' by (destruct ctl; simpl; lia).
    destruct (worker_iteration_cases _ _ _ _ _ _ _ _ _ _ Hit)
      as [[_ ->]|[[_ ->]|[(_&_&Hc)|(_&_&->)]]].
    + apply measure_weight_lt; [done|]. unfold pool_weight. simpl in *. lia.
    + apply measure_weight_lt; [done|]. unfold pool_weight. simpl in *. lia.
    + apply collect_solution_tables in Hc as (Hg & _ & Ho). simpl in Hg, Ho.
      apply measure_weight_lt; [done|]. unfold pool_weight. simpl in *.
      rewrite Ho. lia.
    + destruct (foldl_relax_tables cur (get_neighbors type (board cur))
                  (set_states_explored (states_explored s + 1) s))
        as [_ [Hlt|[Hg Ho]]];
        [lia|exact (λ k g Hk, proj1 (Hentry k g Hk))| | |].
      * apply Forall_forall. intros n Hn. by eapply get_neighbors_ok.
      * apply measure_tables_lt. by eapply tables_lt_unchanged.
      * apply measure_weight_lt; [done|]. unfold pool_weight, expand.
        simpl in *. rewrite Ho. simpl. lia.
  - injection Hws as <- <-. rewrite list_insert_id in Hne by done. done.
Qed.

(** The steps counted are those of the workers still in their loop: such
    a worker always changes its own state. *)
Lemma active_step_worker ws s (t : nat) (w w' : WorkerState) s'
    (fuel : nat) (elapsed : Z) :
  ws !! t = Some w → has_exited w = false →
  worker_step fuel type K initial_board time_limit_seconds elapsed w s
  = Some (w', s') →
  active_step type K initial_board time_limit_seconds
    (ws, s) (<[t := w']> ws, s').
Proof.
  intros Hw Hne Hstep. split; [by econstructor|].
  intros [= Hws _].
  assert ((<[t := w']> ws) !! t = Some w') as Hw'
    by (apply list_lookup_insert_eq; by eapply lookup_lt_Some).
  rewrite Hws, Hw in Hw'. injection Hw' as <-.
  destruct w as [|cur|]; simpl in Hstep; [| |done].
  - destruct (terminate_search s); [done|].
    by destruct (try_pop (open_set s)) as [[cur rest]|].
  - destruct (worker_iteration _ _ _ _ _ _ _ _) as [[[] s2]|]; done.
Qed.

End Termination.

(** **** Property X21.  Every run of the worker pool ends: from any
    configuration a call of [solve] on a valid board with [K <> 0] passes
    through, there is no infinite sequence of steps in which a worker that
    has not left its loop tests the loop condition or runs the loop body. *)
Theorem worker_pool_terminates (type : SolveType) (K : Z)
    (initial_board : Board) (num_threads time_limit_seconds : Z)
    (c : list WorkerState * PuzzleSolver) :
  valid_Board initial_board = true → K ≠ 0 →
  reachable type K initial_board num_threads time_limit_seconds c →
  sn (active_step type K initial_board time_limit_seconds) c.
Proof.
  intros Hv _ Hreach.
  remember (pool_measure initial_board c) as mu eqn:Hmu.
  revert c Hmu Hreach.
  induction (measure_lt_wf mu) as [mu _ IH]. intros c -> Hreach.
  constructor. intros c' Hstep. unfold flip in Hstep.
  apply (IH (pool_measure initial_board c')); [|done|].
  - apply (active_step_measure type K initial_board time_limit_seconds);
      [by eapply reachable_inv|by eapply reachable_boards_valid|done].
  - eapply rtc_r; [exact Hreach|]. by destruct Hstep.
Qed.

Lemma worker_pool_terminates_witness :
  sn (active_step AdjacentSwap 1 board_2x3 1)
    ([Holding held_goal_state; Idle], pruned_solver).
Proof.
  apply (worker_pool_terminates AdjacentSwap 1 board_2x3 2 1);
    [reflexivity|lia|].
  apply (run_schedule_steps AdjacentSwap 1 board_2x3 1 100 (fun _ => 0)
           pruned_schedule).
  vm_compute. reflexivity.
Defined.

Section Completion.

Context (type : SolveType) (K : Z) (initial_board : Board)
  (num_threads time_limit_seconds : Z) (clock : Z → Z).

Implicit Types (s : PuzzleSolver) (cur : State) (ws : list WorkerState)
  (w : WorkerState) (schedule : list nat) (fuel : nat).

Local Abbreviation run fuel :=
  (run_schedule fuel type K initial_board time_limit_seconds clock).
Local Abbreviation reach :=
  (reachable type K initial_board num_threads time_limit_seconds).










End Completion.



(** * The solver that keeps the path in the state *)

Section PathSolverFacts.

Import PathSolver.

Context (type : SolveType) (K : Z) (initial_board : Board).

Implicit Types (s : PuzzleSolver) (cur st : State) (ws : list WorkerState)
  (w : WorkerState) (schedule : list nat) (n b : Board).

Lemma PathSolver_Compare_spec (a b : State) :
  CompareStateForTBB a b = true
  ↔ f_cost a < f_cost b ∨ (f_cost a = f_cost b ∧ g_cost a < g_cost b).
Proof.
  unfold CompareStateForTBB.
  destruct (Z.eqb_spec (f_cost a) (f_cost b)); simpl;
    rewrite Z.ltb_lt; lia.
Qed.

Lemma PathSolver_Compare_gtb (a b : State) :
  CompareStateForTBB a b = State_gtb b a.
Proof.
  unfold CompareStateForTBB, State_gtb.
  rewrite (Z.eqb_sym (f_cost b)), !Z.gtb_ltb. done.
Qed.

Lemma PathSolver_pop_top_spec (q : list State) : ∀ best top others,
  pop_top best q = (top, others) →
  best :: q ≡ₚ top :: others
  ∧ served_first top best
  ∧ Forall (served_first top) others.
Proof.
  induction q as [|x q IH]; intros best top others; simpl.
  - intros [= <- <-].
    split_and!; [done|unfold served_first; lia|by constructor].
  - destruct (CompareStateForTBB best x) eqn:E.
    + destruct (pop_top x q) as [top' others'] eqn:Ep. intros [= <- <-].
      destruct (IH _ _ _ Ep) as (HP & Hx & Hall).
      apply PathSolver_Compare_spec in E.
      assert (served_first top' best)
        by (revert Hx; unfold served_first; lia).
      split_and!; [|done|by constructor].
      rewrite HP. apply Permutation_swap.
    + destruct (pop_top best q) as [top' others'] eqn:Ep. intros [= <- <-].
      destruct (IH _ _ _ Ep) as (HP & Hb & Hall).
      assert (served_first best x) as Hbx.
      { apply not_true_iff_false in E.
        rewrite PathSolver_Compare_spec in E. unfold served_first. lia. }
      split_and!; [|done|].
      * rewrite (Permutation_swap x best q), HP. apply Permutation_swap.
      * constructor; [|done]. revert Hb Hbx. unfold served_first. lia.
Qed.

Lemma last_cons_default {A} (x y : A) (l : list A) :
  default x (last (y :: l)) = default y (last l).
Proof.
  enough (last (y :: l) = Some (default y (last l))) as -> by done.
  revert y. induction l as [|z l IH]; intros y; [done|].
  change (last (y :: z :: l)) with (last (z :: l)). by rewrite IH.
Qed.

Lemma move_sequence_snoc (nb : Board → list Board) (steps : list Board) :
  ∀ b n, move_sequence nb b steps → n ∈ nb (default b (last steps)) →
         move_sequence nb b (steps ++ [n]).
Proof.
  induction steps as [|b' steps IH]; intros b n; simpl.
  - by intros _ Hn.
  - intros [Hb' Hrest] Hn. split; [done|]. apply IH; [done|].
    by rewrite <- (last_cons_default b).
Qed.

Lemma path_ok_snoc b g p n :
  path_ok type initial_board b g p → n ∈ get_neighbors type b →
  path_ok type initial_board n (g + 1) (p ++ [n]).
Proof.
  intros (steps & -> & Hmoves & Hlast & ->) Hn. exists (steps ++ [n]).
  split_and!.
  - done.
  - apply move_sequence_snoc; [done|]. by rewrite Hlast.
  - by rewrite last_snoc.
  - rewrite length_app. simpl. lia.
Qed.

Lemma PathSolver_relax cur s n :
  path_state_ok type initial_board cur →
  n ∈ get_neighbors type (board cur) →
  Forall (path_state_ok type initial_board) (open_set s) →
  Forall (path_state_ok type initial_board) (open_set (relax cur s n))
  ∧ found_solutions (relax cur s n) = found_solutions s.
Proof.
  intros Hcur Hn Hopen.
  assert (path_state_ok type initial_board
            (new_State n (g_cost cur + 1) (get_manhattan_distance n)
               (path cur ++ [n]))) as Hnew
    by (by apply path_ok_snoc with (board cur)).
  unfold relax. destruct (g_costs s !! tiles n) as [stored|];
    [destruct (g_cost cur + 1 <? stored)|]; simpl;
    (split; [|done]); try done; by constructor.
Qed.

Lemma PathSolver_foldl_relax cur (ns : list Board) : ∀ s,
  path_state_ok type initial_board cur →
  (∀ n, n ∈ ns → n ∈ get_neighbors type (board cur)) →
  Forall (path_state_ok type initial_board) (open_set s) →
  Forall (path_state_ok type initial_board)
    (open_set (foldl (relax cur) s ns))
  ∧ found_solutions (foldl (relax cur) s ns) = found_solutions s.
Proof.
  induction ns as [|n ns IH]; intros s Hcur Hns Hopen; simpl; [done|].
  destruct (PathSolver_relax cur s n Hcur) as [Hopen1 Hf1];
    [apply Hns; by left|done|].
  destruct (IH (relax cur s n) Hcur) as [Hopen2 Hf2];
    [intros n' Hn'; apply Hns; by right|done|].
  split; [done|congruence].
Qed.

Lemma PathSolver_worker_iteration cur s :
  path_state_ok type initial_board cur →
  Forall (path_state_ok type initial_board) (open_set s) →
  Forall (path_solution_ok type initial_board) (found_solutions s) →
  Forall (path_state_ok type initial_board)
    (open_set (worker_iteration type K cur s))
  ∧ Forall (path_solution_ok type initial_board)
      (found_solutions (worker_iteration type K cur s)).
Proof.
  intros Hcur Hopen Hfound. unfold worker_iteration.
  destruct (is_pruned _ _ _); [done|].
  destruct (is_stale _ _); [done|].
  destruct (is_goal (board cur)) eqn:Hgoal.
  - unfold collect_solution.
    assert (Forall (path_solution_ok type initial_board)
              (set_insert (mkSolution (g_cost cur) (path cur))
                 (found_solutions s))) as Hins.
    { apply Forall_forall. intros sol [->|Hsol]%elem_of_set_insert.
      - by exists (board cur).
      - by eapply Forall_forall in Hfound. }
    by destruct (size_ge _ _).
  - destruct (PathSolver_foldl_relax cur
                (get_neighbors type (board cur))
                (set_states_explored (states_explored s + 1) s) Hcur)
      as [Hopen' Hf']; [done|done|].
    unfold expand. split; [done|]. by rewrite Hf'.
Qed.

Lemma PathSolver_held_insert ws (t : nat) w' :
  (∀ (i : nat) cur, ws !! i = Some (Holding cur) →
     path_state_ok type initial_board cur) →
  (∀ cur, w' = Holding cur → path_state_ok type initial_board cur) →
  ∀ (i : nat) cur, (<[t := w']> ws) !! i = Some (Holding cur) →
    path_state_ok type initial_board cur.
Proof.
  intros Hheld Hnew i cur [(_ & -> & _)|[_ Hi]]%list_lookup_insert_Some.
  - by apply Hnew.
  - by eapply Hheld.
Qed.

Lemma PathSolver_worker_step ws s (t : nat) w w' s' :
  ws !! t = Some w → worker_step type K w s = (w', s') →
  paths_ok type initial_board (ws, s) →
  paths_ok type initial_board (<[t := w']> ws, s').
Proof.
  intros Hw Hstep (Hopen & Hheld & Hfound). unfold paths_ok. simpl in *.
  destruct w as [|cur|]; simpl in Hstep.
  - destruct (terminate_search s).
    { injection Hstep as <- <-.
      split_and!; [done|by apply PathSolver_held_insert|done]. }
    destruct (open_set s) as [|x q] eqn:Hq; simpl in Hstep.
    { injection Hstep as <- <-. rewrite Hq.
      split_and!; [done|by apply PathSolver_held_insert|done]. }
    destruct (pop_top x q) as [cur rest] eqn:Hpop.
    injection Hstep as <- <-. simpl.
    apply PathSolver_pop_top_spec in Hpop as (HP & _ & _).
    rewrite HP in Hopen. apply Forall_cons in Hopen as [Hcur Hrest].
    split_and!; [done| |done].
    apply PathSolver_held_insert; [done|]. by intros ? [= <-].
  - injection Hstep as <- <-.
    destruct (PathSolver_worker_iteration cur s) as [Hopen' Hfound'];
      [by eapply Hheld|done|done|].
    split_and!; [done|by apply PathSolver_held_insert|done].
  - injection Hstep as <- <-.
    split_and!; [done|by apply PathSolver_held_insert|done].
Qed.

Lemma PathSolver_run_schedule schedule : ∀ ws s ws' s',
  run_schedule type K schedule ws s = Some (ws', s') →
  paths_ok type initial_board (ws, s) →
  paths_ok type initial_board (ws', s').
Proof.
  induction schedule as [|t schedule IH]; intros ws s ws' s'; simpl.
  { by intros [= <- <-]. }
  destruct (ws !! t) as [w|] eqn:Hw; [|done].
  destruct (worker_step type K w s) as [w1 s1] eqn:Hstep.
  intros Hrun Hok. eapply IH; [exact Hrun|].
  by eapply PathSolver_worker_step.
Qed.

Lemma PathSolver_initial (k : nat) :
  paths_ok type initial_board
    (replicate k Idle, initial_solver initial_board).
Proof.
  split_and!; simpl.
  - constructor; [|done]. by exists [].
  - by intros t cur [? _]%lookup_replicate.
  - done.
Qed.

End PathSolverFacts.

(** **** Property X23.  In the solver that keeps the path in the state,
    under every schedule of any number of workers and for [K <> 0], the
    path of every solution [solve] returns is a sequence of moves of the
    active cost model from the initial board to a goal board, and the cost
    of the solution is the number of these moves, one less than the number
    of boards. *)
Theorem path_solver_cost_is_path_length (initial_board : Board)
    (type : SolveType) (K num_threads : Z) (schedule : list nat)
    (r : list Solution) (sol : Solution) :
  K ≠ 0 →
  PathSolver.solve initial_board type K num_threads schedule = Some r →
  sol ∈ r →
  ∃ steps,
    path sol = initial_board :: steps
    ∧ move_sequence (get_neighbors type) initial_board steps
    ∧ is_goal (default initial_board (last steps)) = true
    ∧ cost sol = Z.of_nat (length steps)
    ∧ cost sol = Z.of_nat (length (path sol)) - 1.
Proof.
  intros _ Hsolve Hsol. unfold PathSolver.solve in Hsolve.
  destruct (PathSolver.run_schedule _ _ _ _ _) as [[ws s]|] eqn:Hrun;
    [|done].
  destruct (forallb _ ws); [|done]. injection Hsolve as <-.
  apply PathSolver_run_schedule with (initial_board := initial_board)
    in Hrun as (_ & _ & Hfound); [|apply PathSolver_initial].
  rewrite extract_solutions_take in Hsol.
  apply elem_of_take in Hsol as (i & Hi%list_elem_of_lookup_2 & _).
  simpl in Hfound. eapply Forall_forall in Hfound; [|exact Hi].
  destruct Hfound as (b & Hgoal & steps & Hpath & Hmoves & Hlast & Hcost).
  exists steps. rewrite Hlast, Hpath. simpl. split_and!; [done..|lia].
Qed.

Lemma path_solver_cost_is_path_length_witness :
  ∃ steps,
    path detour_solution = detour_board :: steps
    ∧ move_sequence (get_neighbors AdjacentSwap) detour_board steps
    ∧ is_goal (default detour_board (last steps)) = true
    ∧ cost detour_solution = Z.of_nat (length steps)
    ∧ cost detour_solution = Z.of_nat (length (path detour_solution)) - 1.
Proof.
  apply (path_solver_cost_is_path_length detour_board AdjacentSwap 1 1
           (single_worker_schedule 24) [detour_solution]).
  - lia.
  - vm_compute. reflexivity.
  - apply list_elem_of_singleton. reflexivity.
Defined.

(** **** Property X24.  The queue of the path-carrying solver hands out
    a state of the largest [f_cost] first, and among those one of the
    largest [g_cost]: no state of the queue is greater under
    [State::operator>] than the one [try_pop] removes. *)
Theorem path_solver_pops_largest_f (q : list PathSolver.State)
    (top : PathSolver.State) (others : list PathSolver.State) :
  PathSolver.try_pop q = Some (top, others) →
  q ≡ₚ top :: others
  ∧ ∀ x, x ∈ q →
      PathSolver.State_gtb x top = false
      ∧ PathSolver.f_cost x <= PathSolver.f_cost top
      ∧ (PathSolver.f_cost x = PathSolver.f_cost top →
         PathSolver.g_cost x <= PathSolver.g_cost top).
Proof.
  destruct q as [|y q]; [done|]. simpl. intros [= Hpop].
  apply PathSolver_pop_top_spec in Hpop as (HP & Hy & Hall).
  split; [done|]. intros x Hx. rewrite HP in Hx.
  assert (served_first top x) as Hs.
  { apply elem_of_cons in Hx as [->|Hx]; [unfold served_first; lia|].
    by eapply Forall_forall in Hall. }
  rewrite <- PathSolver_Compare_gtb.
  split; [|unfold served_first in Hs; lia].
  apply not_true_iff_false. rewrite PathSolver_Compare_spec.
  unfold served_first in Hs. lia.
Qed.

Lemma path_solver_pops_largest_f_witness :
  detour_frontier
  ≡ₚ [PathSolver.new_State (mkBoard 2 2 [3; 1; 0; 2] 1 0) 1 3
        [detour_board; mkBoard 2 2 [3; 1; 0; 2] 1 0];
      PathSolver.new_State (mkBoard 2 2 [1; 0; 3; 2] 0 1) 1 1
        [detour_board; mkBoard 2 2 [1; 0; 3; 2] 0 1]]
  ∧ ∀ x, x ∈ detour_frontier →
      PathSolver.State_gtb x
        (PathSolver.new_State (mkBoard 2 2 [3; 1; 0; 2] 1 0) 1 3
           [detour_board; mkBoard 2 2 [3; 1; 0; 2] 1 0]) = false
      ∧ PathSolver.f_cost x <= 4
      ∧ (PathSolver.f_cost x = 4 → PathSolver.g_cost x <= 1).
Proof.
  apply (path_solver_pops_largest_f detour_frontier). reflexivity.
Defined.

(** **** Property X25.  The path-carrying solver does not always return
    a cheapest solution, even with a single worker: on the board
    [_ 1 / 3 2], which two moves solve and for which the later solver
    returns a solution of cost [2], it returns a solution of cost [10]. *)
Theorem path_solver_not_optimal :
  ∃ sol,
    valid_Board detour_board = true
    ∧ PathSolver.solve detour_board AdjacentSwap 1 1
        (single_worker_schedule 24) = Some [sol]
    ∧ cost sol = 10
    ∧ move_sequence get_neighbors_adjacent_swap detour_board
        detour_short_path
    ∧ is_goal (default detour_board (last detour_short_path)) = true
    ∧ solve 100 detour_board AdjacentSwap 1 1 0 (fun _ => 0)
        (single_worker_schedule 24)
      = Some [mkSolution 2 (detour_board :: detour_short_path)].
Proof.
  eexists. split_and!.
  - reflexivity.
  - vm_compute. reflexivity.
  - reflexivity.
  - unfold detour_short_path. cbn [move_sequence].
    repeat split; apply list_elem_of_In; vm_compute; tauto.
  - reflexivity.
  - vm_compute. reflexivity.
Qed.
